(** * Gauss-Newton inversion of the ERT examples: a shallow embedding

    The repository solves electrical-resistivity inverse problems with a small
    Gauss-Newton iterator ([GaussNewton.__call__]) around objective, gradient
    and Hessian helpers written with numpy.

    - Floating-point numbers are read as real numbers.
    - A 1-D numpy array is a list of reals; a 2-D array is a record of its
      shape and its rows.  The operators raise where numpy raises (shapes
      that do not conform) and broadcast where numpy broadcasts.
    - A raised Python exception is a [Raise] outcome.
    - The callables of the problem (gradient, Hessian, misfit,
      regularisation) are functions from a model to an outcome; their calls,
      the linear solves and the prints are recorded in a trace of events.
    - [np.linalg.solve] is a parameter of the solver; the theorems name the
      part of its contract they rely on, and a Gaussian elimination in exact
      arithmetic shows that the contract can be met.
    - Where rounding decides what the code does, at the linear solve of a
      singular system, [lapack] follows the elimination of LAPACK in
      binary64 numbers. *)

From Stdlib Require Import String DecimalString.
From Stdlib Require Import Reals List ZArith Bool Arith Lia Lra.
From Stdlib Require Import Zfloor.
From Stdlib Require Floats.
Import ListNotations.

(** ** Exceptions and outcomes *)

Inductive exn : Type :=
| LinAlgError (msg : string)
| ValueError (msg : string).

Inductive result (A : Type) : Type :=
| Ok (a : A)
| Raise (e : exn).

Arguments Ok {A} a.
Arguments Raise {A} e.

Definition rbind {A B : Type} (r : result A) (k : A -> result B) : result B :=
  match r with
  | Ok a => k a
  | Raise e => Raise e
  end.

Definition rmap {A B : Type} (f : A -> B) (r : result A) : result B :=
  rbind r (fun a => Ok (f a)).

Declare Scope result_scope.
Delimit Scope result_scope with result.
Notation "x <- e ;; k" := (rbind e (fun x => k))
  (at level 61, e at next level, right associativity) : result_scope.
Notation "' p <- e ;; k" := (rbind e (fun p => k))
  (at level 61, p pattern, e at next level, right associativity) : result_scope.

(** ** The part of numpy the scripts use *)

Module np.

Local Open Scope R_scope.

(** A 1-D array. *)
Definition vector : Type := list R.

(** A 2-D array: its shape and its rows. *)
Record matrix : Type := mkMatrix {
  nrows : nat;
  ncols : nat;
  rows : list (list R)
}.

(** Every array numpy builds is rectangular. *)
Definition wf (A : matrix) : Prop :=
  length (rows A) = nrows A /\ Forall (fun r => length r = ncols A) (rows A).

Definition vget (v : vector) (i : nat) : R := nth i v 0.
Definition mget (A : matrix) (i j : nat) : R := nth j (nth i (rows A) []) 0.

Definition mk_vector (n : nat) (f : nat -> R) : vector := map f (seq 0 n).

Definition mk_matrix (n m : nat) (f : nat -> nat -> R) : matrix :=
  {| nrows := n; ncols := m;
     rows := map (fun i => map (f i) (seq 0 m)) (seq 0 n) |}.

Fixpoint sum_n (n : nat) (f : nat -> R) : R :=
  match n with
  | O => 0
  | S k => sum_n k f + f k
  end.

Definition zeros (n : nat) : vector := mk_vector n (fun _ => 0).

(** [np.array(x)]: a copy. *)
Definition array (v : vector) : vector := v.

(** [np.eye(n)]. *)
Definition eye (n : nat) : matrix :=
  mk_matrix n n (fun i j => if Nat.eqb i j then 1 else 0).

(** Unary minus, and a Python scalar times an array. *)
Definition negative (v : vector) : vector := map Ropp v.
Definition scale (c : R) (v : vector) : vector := map (Rmult c) v.
Definition mscale (c : R) (A : matrix) : matrix :=
  {| nrows := nrows A; ncols := ncols A; rows := map (map (Rmult c)) (rows A) |}.

(** [np.exp], [np.log] on 1-D and 2-D arrays.  The logarithm is the one of
    the real numbers: the [nan] and [inf] that numpy yields at numbers that
    are not positive have no counterpart here, so [log] stands for
    [np.log] at positive numbers only, and a statement about the value of a
    logarithm assumes its argument positive. *)
Definition exp (v : vector) : vector := map Rtrigo_def.exp v.
Definition log (v : vector) : vector := map ln v.
Definition mexp (A : matrix) : matrix :=
  {| nrows := nrows A; ncols := ncols A; rows := map (map Rtrigo_def.exp) (rows A) |}.

(** [A.T]. *)
Definition transpose (A : matrix) : matrix :=
  mk_matrix (ncols A) (nrows A) (fun i j => mget A j i).

(** [v[:, np.newaxis]] and [v[np.newaxis, :]]. *)
Definition newaxis_col (v : vector) : matrix :=
  mk_matrix (length v) 1 (fun i _ => vget v i).
Definition newaxis_row (v : vector) : matrix :=
  mk_matrix 1 (length v) (fun _ j => vget v j).

(** Broadcasting of one axis: equal lengths, or one of them is 1. *)
Definition bdim (a b : nat) : option nat :=
  if Nat.eqb a b then Some a
  else if Nat.eqb a 1 then Some b
  else if Nat.eqb b 1 then Some a
  else None.

Definition bvget (v : vector) (i : nat) : R :=
  vget v (if Nat.eqb (length v) 1 then 0%nat else i).
Definition bmget (A : matrix) (i j : nat) : R :=
  mget A (if Nat.eqb (nrows A) 1 then 0%nat else i)
         (if Nat.eqb (ncols A) 1 then 0%nat else j).

Definition broadcast_error : exn :=
  ValueError "operands could not be broadcast together".

(** An elementwise binary operator on 1-D arrays. *)
Definition broadcast1 (op : R -> R -> R) (u v : vector) : result vector :=
  match bdim (length u) (length v) with
  | Some n => Ok (mk_vector n (fun i => op (bvget u i) (bvget v i)))
  | None => Raise broadcast_error
  end.

(** An elementwise binary operator on 2-D arrays. *)
Definition broadcast2 (op : R -> R -> R) (A B : matrix) : result matrix :=
  match bdim (nrows A) (nrows B), bdim (ncols A) (ncols B) with
  | Some n, Some m => Ok (mk_matrix n m (fun i j => op (bmget A i j) (bmget B i j)))
  | _, _ => Raise broadcast_error
  end.

Definition add (u v : vector) : result vector := broadcast1 Rplus u v.
Definition subtract (u v : vector) : result vector := broadcast1 Rminus u v.
Definition mdivide (A B : matrix) : result matrix := broadcast2 Rdiv A B.
Definition mmultiply (A B : matrix) : result matrix := broadcast2 Rmult A B.

Definition matmul_error : exn :=
  ValueError "matmul: mismatch in core dimension".

(** The operator [@]: 2-D @ 2-D, 1-D @ 2-D and 2-D @ 1-D.  It does not
    broadcast: the inner dimensions agree or it raises. *)
Definition matmul (A B : matrix) : result matrix :=
  if Nat.eqb (ncols A) (nrows B)
  then Ok (mk_matrix (nrows A) (ncols B)
             (fun i j => sum_n (ncols A) (fun k => mget A i k * mget B k j)))
  else Raise matmul_error.

Definition vecmat (v : vector) (A : matrix) : result vector :=
  if Nat.eqb (length v) (nrows A)
  then Ok (mk_vector (ncols A)
             (fun j => sum_n (nrows A) (fun k => vget v k * mget A k j)))
  else Raise matmul_error.

Definition matvec (A : matrix) (v : vector) : result vector :=
  if Nat.eqb (ncols A) (length v)
  then Ok (mk_vector (nrows A)
             (fun i => sum_n (ncols A) (fun k => mget A i k * vget v k)))
  else Raise matmul_error.

(** 1-D @ 1-D: the inner product. *)
Definition vecvec (u v : vector) : result R :=
  if Nat.eqb (length u) (length v)
  then Ok (sum_n (length u) (fun k => vget u k * vget v k))
  else Raise matmul_error.

(** [np.ones(n)], an array times a Python scalar, and the elementwise
    power [x ** i] with a natural exponent. *)
Definition ones (n : nat) : vector := mk_vector n (fun _ => 1).
Definition times (v : vector) (c : R) : vector := map (fun x => x * c) v.
Definition power (v : vector) (i : nat) : vector := map (fun x => x ^ i) v.

(** Dense plus sparse: the regularisation matrix is a scipy COO matrix,
    and scipy adds a dense array to a sparse matrix after
    [np.broadcast_to(dense, sparse.shape)]: the dense operand [A] takes the
    shape of the sparse operand [B] when each of its dimensions is that of
    [B] or 1, and the sum raises otherwise. *)
Definition madd (A B : matrix) : result matrix :=
  if (Nat.eqb (nrows A) (nrows B) || Nat.eqb (nrows A) 1)
     && (Nat.eqb (ncols A) (ncols B) || Nat.eqb (ncols A) 1)
  then Ok (mk_matrix (nrows B) (ncols B) (fun i j => bmget A i j + mget B i j))
  else Raise (ValueError "operands could not be broadcast together with remapped shapes").

End np.

Import np.

(** ** Effects: calls of the problem's callables, linear solves and prints *)

Inductive printed : Type :=
| PStr (s : string)
| PNum (x : R)
| PArr (v : vector).

Inductive callee : Type := Hessian | Gradient | Misfit | Reg.

Inductive event : Type :=
| EvCall (f : callee) (m : vector)
| EvSolve (A : matrix) (b : vector)
| EvPrint (p : printed).

(** A computation yields the events it performed and how it ended. *)
Definition io (A : Type) : Type := (list event * result A)%type.

Definition ret {A : Type} (a : A) : io A := ([], Ok a).

Definition bind {A B : Type} (c : io A) (k : A -> io B) : io B :=
  match c with
  | (t, Ok a) => let (t', r) := k a in (t ++ t', r)
  | (t, Raise e) => (t, Raise e)
  end.

Definition lift {A : Type} (r : result A) : io A := ([], r).

Definition emit (e : event) : io unit := ([e], Ok tt).

Definition print (p : printed) : io unit := emit (EvPrint p).

Definition trace {A : Type} (c : io A) : list event := fst c.
Definition outcome {A : Type} (c : io A) : result A := snd c.

Declare Scope io_scope.
Delimit Scope io_scope with io.
Notation "x <- e ;; k" := (bind e (fun x => k))
  (at level 61, e at next level, right associativity) : io_scope.
Notation "e ;; k" := (bind e (fun _ => k))
  (at level 61, right associativity) : io_scope.

(** [range(n)] and a [for] loop that threads the loop-carried variable. *)
Definition range (n : Z) : list Z := map Z.of_nat (seq 0 (Z.to_nat n)).

Fixpoint for_each {S : Type} (body : Z -> S -> io S) (l : list Z) (s : S) : io S :=
  match l with
  | [] => ret s
  | i :: l' => bind (body i s) (for_each body l')
  end.

Fixpoint str_repeat (s : string) (n : nat) : string :=
  match n with
  | O => EmptyString
  | S k => String.append s (str_repeat s k)
  end.

Definition str_of_int (z : Z) : string := NilZero.string_of_int (Z.to_int z).

(** ** The collaborators the scripts receive *)

Module pygimli.

(** The ERT forward operator: [response(model)], and the Jacobian that
    [createJacobian(model)] stores for [jacobian()] to return. *)
Record forward_operator : Type := {
  response : vector -> vector;
  compute_jacobian : vector -> matrix;
  stored_jacobian : matrix
}.

Definition createJacobian (fop : forward_operator) (model : vector) : forward_operator :=
  {| response := response fop;
     compute_jacobian := compute_jacobian fop;
     stored_jacobian := compute_jacobian fop model |}.

Definition jacobian (fop : forward_operator) : matrix := stored_jacobian fop.

(** [pygimli.utils.squeezeComplex] leaves a real-valued array as it is. *)
Definition squeezeComplex (model : vector) : vector := model.

(** What [starting_model] reads off an [ert.ERTManager]: the apparent
    resistivities [data['rhoa']] and [paraDomain.cellCount()]. *)
Record ERTManager : Type := {
  data_rhoa : vector;
  paraDomain_cellCount : nat
}.

End pygimli.

Module cofi.

Record BaseProblem : Type := {
  initial_model : vector;
  residual : vector -> result vector;
  jacobian : vector -> result matrix;
  gradient : vector -> result vector;
  hessian : vector -> result matrix;
  data_misfit : vector -> result R;
  data_misfit_defined : bool;
  regularisation : vector -> result R;
  regularisation_defined : bool
}.

(** [inv_options.get_params()] of the Gauss-Newton tool. *)
Record params : Type := {
  niter : Z;
  verbose : bool
}.

(** What a solver returns. *)
Record solver_result : Type := {
  model : vector;
  success : bool
}.

End cofi.

(** ** notebooks/pygimli_ert/tmp/pygimli_ert_gauss_newton.py *)

Module pygimli_ert_gauss_newton.

Import pygimli.
Local Open Scope R_scope.
Local Open Scope result_scope.

Definition get_response (model : vector) (forward_operator : forward_operator) : vector :=
  np.log (array (response forward_operator model)).

Definition get_residual (model log_data : vector) (forward_operator : forward_operator)
  : result vector :=
  let response := get_response model forward_operator in
  residual <- subtract log_data response ;;
  Ok residual.

Definition get_jacobian (model : vector) (forward_operator : forward_operator)
  : result matrix :=
  let response := get_response model forward_operator in
  let forward_operator := createJacobian forward_operator model in
  let J := jacobian forward_operator in
  q <- mdivide J (mexp (newaxis_col response)) ;;
  jac <- mmultiply q (newaxis_row (np.exp (np.log model))) ;;
  Ok jac.

Definition get_jac_residual (model log_data : vector) (forward_operator : forward_operator)
  : result (matrix * vector) :=
  let response := get_response model forward_operator in
  residual <- subtract log_data response ;;
  let forward_operator := createJacobian forward_operator model in
  let J := jacobian forward_operator in
  q <- mdivide J (mexp (newaxis_col response)) ;;
  jac <- mmultiply q (newaxis_row (np.exp (np.log model))) ;;
  Ok (jac, residual).

Definition get_data_misfit (model log_data : vector) (forward_operator : forward_operator)
  : result R :=
  residual <- get_residual model log_data forward_operator ;;
  vecvec residual residual.

Definition get_regularisation (model : vector) (Wm : matrix) (lamda : R) : result R :=
  a <- matvec Wm model ;;
  b <- matvec Wm model ;;
  vecvec (scale lamda a) b.

Definition get_objective (model log_data : vector) (forward_operator : forward_operator)
    (Wm : matrix) (lamda : R) : result R :=
  data_misfit <- get_data_misfit model log_data forward_operator ;;
  regularisation <- get_regularisation model Wm lamda ;;
  let obj := data_misfit + regularisation in
  Ok obj.

Definition get_gradient (model log_data : vector) (forward_operator : forward_operator)
    (Wm : matrix) (lamda : R) : result vector :=
  '(jac, residual) <- get_jac_residual model log_data forward_operator ;;
  data_misfit_grad <- vecmat (scale (- 2) residual) jac ;;
  WtW <- matmul (mscale (2 * lamda) (transpose Wm)) Wm ;;
  regularisation_grad <- matvec WtW model ;;
  add data_misfit_grad regularisation_grad.

Definition get_hessian (model log_data : vector) (forward_operator : forward_operator)
    (Wm : matrix) (lamda : R) : result matrix :=
  jac <- get_jacobian model forward_operator ;;
  JtJ <- matmul (transpose jac) jac ;;
  WtW <- matmul (mscale lamda (transpose Wm)) Wm ;;
  hess <- madd JtJ WtW ;;
  Ok hess.

(** The solver object: the fields [__init__] stores. *)
Record GaussNewton : Type := {
  _niter : Z;
  _verbose : bool;
  _model_0 : vector;
  _residual : vector -> result vector;
  _jacobian : vector -> result matrix;
  _gradient : vector -> result vector;
  _hessian : vector -> result matrix;
  _misfit : option (vector -> result R);
  _reg : option (vector -> result R)
}.

Definition __init__ (inv_problem : cofi.BaseProblem) (inv_options : cofi.params)
  : GaussNewton :=
  {| _niter := cofi.niter inv_options;
     _verbose := cofi.verbose inv_options;
     _model_0 := cofi.initial_model inv_problem;
     _residual := cofi.residual inv_problem;
     _jacobian := cofi.jacobian inv_problem;
     _gradient := cofi.gradient inv_problem;
     _hessian := cofi.hessian inv_problem;
     _misfit := if cofi.data_misfit_defined inv_problem
                then Some (cofi.data_misfit inv_problem) else None;
     _reg := if cofi.regularisation_defined inv_problem
             then Some (cofi.regularisation inv_problem) else None |}.

(** The same solver with another iteration count, another start, or other
    reporting options. *)
Definition set_niter (self : GaussNewton) (n : Z) : GaussNewton :=
  {| _niter := n; _verbose := _verbose self; _model_0 := _model_0 self;
     _residual := _residual self; _jacobian := _jacobian self;
     _gradient := _gradient self; _hessian := _hessian self;
     _misfit := _misfit self; _reg := _reg self |}.

Definition set_model_0 (self : GaussNewton) (m : vector) : GaussNewton :=
  {| _niter := _niter self; _verbose := _verbose self; _model_0 := m;
     _residual := _residual self; _jacobian := _jacobian self;
     _gradient := _gradient self; _hessian := _hessian self;
     _misfit := _misfit self; _reg := _reg self |}.

Definition set_reporting (self : GaussNewton) (v : bool)
    (misfit reg : option (vector -> result R)) : GaussNewton :=
  {| _niter := _niter self; _verbose := v; _model_0 := _model_0 self;
     _residual := _residual self; _jacobian := _jacobian self;
     _gradient := _gradient self; _hessian := _hessian self;
     _misfit := misfit; _reg := reg |}.

Section Solver.

(** [np.linalg.solve], which numpy hands to LAPACK. *)
Variable linalg_solve : matrix -> vector -> result vector.

Local Open Scope io_scope.

Definition call {A : Type} (f : callee) (g : vector -> result A) (m : vector) : io A :=
  emit (EvCall f m) ;; lift (g m).

Definition solve (A : matrix) (b : vector) : io vector :=
  emit (EvSolve A b) ;; lift (linalg_solve A b).

(** The report of the verbose branch. *)
Definition report (self : GaussNewton) (i : Z) (current_model : vector) : io unit :=
  if _verbose self then
    print (PStr (str_repeat "-" 80)) ;;
    print (PStr (String.append "Iteration " (str_of_int (i + 1)))) ;;
    match _misfit self with
    | Some misfit => x <- call Misfit misfit current_model ;; print (PNum x)
    | None => ret tt
    end ;;
    match _reg self with
    | Some reg => x <- call Reg reg current_model ;; print (PNum x)
    | None => ret tt
    end
  else ret tt.

(** One pass of the [for] loop. *)
Definition loop_body (self : GaussNewton) (i : Z) (current_model : vector) : io vector :=
  term1 <- call Hessian (_hessian self) current_model ;;
  g <- call Gradient (_gradient self) current_model ;;
  let term2 := negative g in
  model_update <- solve term1 term2 ;;
  s <- lift (add current_model model_update) ;;
  let current_model := array s in
  report self i current_model ;;
  ret current_model.

Definition __call__ (self : GaussNewton) : io cofi.solver_result :=
  let current_model := array (_model_0 self) in
  current_model <- for_each (loop_body self) (range (_niter self)) current_model ;;
  ret {| cofi.model := current_model; cofi.success := true |}.

End Solver.

(** The problem the script hands to the solver. *)
Definition ert_problem (log_data : vector) (forward_operator : forward_operator)
    (Wm : matrix) (lamda : R) (start_model : vector) : cofi.BaseProblem :=
  {| cofi.initial_model := start_model;
     cofi.residual := fun m => get_residual m log_data forward_operator;
     cofi.jacobian := fun m => get_jacobian m forward_operator;
     cofi.gradient := fun m => get_gradient m log_data forward_operator Wm lamda;
     cofi.hessian := fun m => get_hessian m log_data forward_operator Wm lamda;
     cofi.data_misfit := fun m => get_data_misfit m log_data forward_operator;
     cofi.data_misfit_defined := true;
     cofi.regularisation := fun m => get_regularisation m Wm lamda;
     cofi.regularisation_defined := true |}.

End pygimli_ert_gauss_newton.

(** ** notebooks/pygimli_ert/tmp/pygimli_ert_scipy_minimize.py *)

Module pygimli_ert_scipy_minimize.

Import pygimli.
Local Open Scope R_scope.
Local Open Scope result_scope.

Definition get_response (model : vector) (forward_operator : forward_operator) : vector :=
  np.log (array (response forward_operator model)).

Definition get_jac_residual (model log_data : vector) (forward_operator : forward_operator)
  : result (matrix * vector) :=
  let response := get_response model forward_operator in
  residual <- subtract log_data response ;;
  let forward_operator := createJacobian forward_operator model in
  let J := jacobian forward_operator in
  q <- mdivide J (mexp (newaxis_col response)) ;;
  jac <- mmultiply q (newaxis_row (np.exp (np.log model))) ;;
  Ok (jac, residual).

Definition get_gradient (model log_data : vector) (forward_operator : forward_operator)
    (Wm : matrix) (lamda : R) : result vector :=
  '(jac, residual) <- get_jac_residual model log_data forward_operator ;;
  data_misfit_grad <- vecmat (negative residual) jac ;;
  WtW <- matmul (mscale lamda (transpose Wm)) Wm ;;
  regularisation_grad <- matvec WtW model ;;
  add data_misfit_grad regularisation_grad.

Definition get_residual (model log_data : vector) (forward_operator : forward_operator)
  : result vector :=
  let response := get_response model forward_operator in
  residual <- subtract log_data response ;;
  Ok residual.

Definition get_jacobian (model : vector) (forward_operator : forward_operator)
  : result matrix :=
  let response := get_response model forward_operator in
  let forward_operator := createJacobian forward_operator model in
  let J := jacobian forward_operator in
  q <- mdivide J (mexp (newaxis_col response)) ;;
  jac <- mmultiply q (newaxis_row (np.exp (np.log model))) ;;
  Ok jac.

(** Here the misfit goes through [np.abs]. *)
Definition get_data_misfit (model log_data : vector) (forward_operator : forward_operator)
  : result R :=
  residual <- get_residual model log_data forward_operator ;;
  x <- vecvec residual residual ;;
  Ok (Rabs x).

Definition get_regularisation (model : vector) (Wm : matrix) (lamda : R) : result R :=
  a <- matvec Wm model ;;
  b <- matvec Wm model ;;
  vecvec (scale lamda a) b.

Definition get_objective (model log_data : vector) (forward_operator : forward_operator)
    (Wm : matrix) (lamda : R) : result R :=
  data_misfit <- get_data_misfit model log_data forward_operator ;;
  regularisation <- get_regularisation model Wm lamda ;;
  let obj := data_misfit + regularisation in
  Ok obj.

Definition get_hessian (model log_data : vector) (forward_operator : forward_operator)
    (Wm : matrix) (lamda : R) : result matrix :=
  jac <- get_jacobian model forward_operator ;;
  JtJ <- matmul (transpose jac) jac ;;
  WtW <- matmul (mscale lamda (transpose Wm)) Wm ;;
  hess <- madd JtJ WtW ;;
  Ok hess.

End pygimli_ert_scipy_minimize.

(** ** notebooks/pygimli_dcip/tmp/pygimli_dcip_lib.py

    These functions take the model in log space. *)

Module pygimli_dcip_lib.

Import pygimli.
Local Open Scope R_scope.
Local Open Scope io_scope.

Definition get_response (model : vector) (forward_operator : forward_operator) : io vector :=
  let x_re_im := np.exp (squeezeComplex model) in
  print (PArr x_re_im) ;;
  ret (np.log (array (response forward_operator x_re_im))).

Definition get_jacobian (model : vector) (forward_operator : forward_operator) : io matrix :=
  response <- get_response model forward_operator ;;
  let forward_operator := createJacobian forward_operator (np.exp model) in
  let J := jacobian forward_operator in
  q <- lift (mdivide J (mexp (newaxis_col response))) ;;
  jac <- lift (mmultiply q (newaxis_row (np.exp model))) ;;
  ret jac.

Definition get_hessian (model log_data : vector) (forward_operator : forward_operator)
    (Wm : matrix) (lamda : R) (data_cov_inv : option matrix) : io matrix :=
  jac <- get_jacobian model forward_operator ;;
  let data_cov_inv :=
    match data_cov_inv with
    | None => eye (length log_data)
    | Some c => c
    end in
  JtC <- lift (matmul (transpose jac) data_cov_inv) ;;
  JtCJ <- lift (matmul JtC jac) ;;
  WtW <- lift (matmul (mscale lamda (transpose Wm)) Wm) ;;
  hess <- lift (madd JtCJ WtW) ;;
  ret hess.

Definition get_residual (model log_data : vector) (forward_operator : forward_operator)
  : io vector :=
  response <- get_response model forward_operator ;;
  residual <- lift (subtract log_data response) ;;
  ret residual.

Definition get_jac_residual (model log_data : vector) (forward_operator : forward_operator)
  : io (matrix * vector) :=
  response <- get_response model forward_operator ;;
  residual <- lift (subtract log_data response) ;;
  let forward_operator := createJacobian forward_operator (np.exp model) in
  let J := jacobian forward_operator in
  q <- lift (mdivide J (mexp (newaxis_col response))) ;;
  jac <- lift (mmultiply q (newaxis_row (np.exp model))) ;;
  ret (jac, residual).

Definition get_data_misfit (model log_data : vector) (forward_operator : forward_operator)
    (data_cov_inv : option matrix) : io R :=
  residual <- get_residual model log_data forward_operator ;;
  let data_cov_inv :=
    match data_cov_inv with
    | None => eye (length log_data)
    | Some c => c
    end in
  rC <- lift (vecmat residual data_cov_inv) ;;
  x <- lift (vecvec rC residual) ;;
  ret (Rabs x).

(** The regularisation is taken at the exponential of the model. *)
Definition get_regularisation (model : vector) (Wm : matrix) (lamda : R) : result R :=
  let model := np.exp model in
  rbind (matvec Wm model) (fun a =>
  rbind (matvec Wm model) (fun b =>
  vecvec (scale lamda a) b)).

Definition get_objective (model log_data : vector) (forward_operator : forward_operator)
    (Wm : matrix) (lamda : R) (data_cov_inv : option matrix) : io R :=
  data_misfit <- get_data_misfit model log_data forward_operator data_cov_inv ;;
  regularisation <- lift (get_regularisation model Wm lamda) ;;
  let obj := data_misfit + regularisation in
  ret obj.

Definition get_gradient (model log_data : vector) (forward_operator : forward_operator)
    (Wm : matrix) (lamda : R) (data_cov_inv : option matrix) : io vector :=
  jr <- get_jac_residual model log_data forward_operator ;;
  let jac := fst jr in
  let residual := snd jr in
  let data_cov_inv :=
    match data_cov_inv with
    | None => eye (length log_data)
    | Some c => c
    end in
  rC <- lift (vecmat (negative residual) data_cov_inv) ;;
  data_misfit_grad <- lift (vecmat rC jac) ;;
  WtW <- lift (matmul (mscale lamda (transpose Wm)) Wm) ;;
  regularisation_grad <- lift (matvec WtW (np.exp model)) ;;
  lift (add data_misfit_grad regularisation_grad).

Section Median.

(** [np.median]. *)
Variable median : vector -> R.

(** [starting_model(ert_manager, val=None)]: [val if val else ...] takes
    the median also when [val] is zero. *)
Definition starting_model (ert_manager : ERTManager) (val : option R)
  : vector * vector :=
  let start_val :=
    match val with
    | Some v => if Req_EM_T v 0 then median (data_rhoa ert_manager) else v
    | None => median (data_rhoa ert_manager)
    end in
  let start_model := times (ones (paraDomain_cellCount ert_manager)) start_val in
  let start_val_log := ln start_val in
  let start_model_log := times (ones (paraDomain_cellCount ert_manager)) start_val_log in
  (start_model, start_model_log).

End Median.

End pygimli_dcip_lib.

(** ** scripts/linear_regression.py and
    notebooks/linear_regression/linear_regression_optimiser_lstsq.py *)

Module linear_regression.

Local Open Scope R_scope.
Local Open Scope result_scope.

(** [np.array([x**i for i in range(4)]).T]: one row per sample. *)
Definition basis_func (x : vector) : matrix :=
  transpose (mkMatrix 4 (length x) (map (fun i => power x (Z.to_nat i)) (range 4))).

Definition _m_true : vector := [-6; -5; 2; 1].

Section Samples.

(** The sample locations, drawn by [np.random.choice]. *)
Variable x : vector.

Definition forward_func (m : vector) : result vector := matvec (basis_func x) m.

(** [forward_func(_m_true) + np.random.normal(0, 1, sample_size)], for the
    noise drawn. *)
Definition y_observed (noise : vector) : result vector :=
  y <- forward_func _m_true ;;
  add y noise.

End Samples.

End linear_regression.

(** ** A reference linear solver in exact arithmetic

    Gaussian elimination with partial pivoting, the method of LAPACK's
    [gesv] behind [np.linalg.solve], and its shape checks.  It raises
    "Singular matrix" when the largest pivot candidate is zero. *)

Module exact.

Local Open Scope R_scope.

(** A row of the augmented system: coefficients and right-hand side. *)
Definition row : Type := (list R * R)%type.

Definition lead (r : row) : R := hd 0 (fst r).

Fixpoint dot (u v : list R) : R :=
  match u, v with
  | x :: u', y :: v' => x * y + dot u' v'
  | _, _ => 0
  end.

(** The row whose leading coefficient is largest in absolute value, and
    the other rows. *)
Fixpoint pick_max (r : row) (rest : list row) : row * list row :=
  match rest with
  | [] => (r, [])
  | r' :: rest' =>
      if Rlt_dec (Rabs (lead r)) (Rabs (lead r'))
      then let (p, others) := pick_max r' rest' in (p, r :: others)
      else let (p, others) := pick_max r rest' in (p, r' :: others)
  end.

(** Eliminate the first unknown from [r] with the pivot row [p]. *)
Definition eliminate (p r : row) : row :=
  let f := lead r / lead p in
  (map (fun xy => fst xy - f * snd xy) (combine (tl (fst r)) (tl (fst p))),
   snd r - f * snd p).

Fixpoint gauss (n : nat) (sys : list row) : option (list R) :=
  match n with
  | O => Some []
  | S k =>
      match sys with
      | [] => None
      | r :: rest =>
          let (p, others) := pick_max r rest in
          if Req_EM_T (lead p) 0 then None
          else
            match gauss k (map (eliminate p) others) with
            | None => None
            | Some xs => Some ((snd p - dot (tl (fst p)) xs) / lead p :: xs)
            end
      end
  end.

Definition solve (a : matrix) (b : vector) : result vector :=
  if negb (Nat.eqb (nrows a) (ncols a))
  then Raise (LinAlgError "Last 2 dimensions of the array must be square")
  else if negb (Nat.eqb (length b) (nrows a))
  then Raise (ValueError "solve: mismatch in core dimension")
  else
    match gauss (nrows a) (combine (rows a) b) with
    | Some x => Ok x
    | None => Raise (LinAlgError "Singular matrix")
    end.

End exact.

(** ** The linear solver in binary64

    [np.linalg.solve] hands the system to LAPACK's [dgesv]: an LU
    factorisation with partial pivoting and row interchanges ([dgetrf]),
    then the two triangular solves ([dgetrs]), every operation rounded to
    binary64.  numpy raises [LinAlgError] when LAPACK reports a pivot that
    is exactly zero, and at no other matrix.  The operations and their order
    are those of the reference LAPACK, without fused multiply-add. *)

Module lapack.

(** A row of the augmented system: the coefficients from the current
    column on, and the right-hand side. *)
Definition row : Type := (list PrimFloat.float * PrimFloat.float)%type.

Definition lead (r : row) : PrimFloat.float := hd PrimFloat.zero (fst r).

(** [idamax]: the index of the first row whose leading coefficient is
    largest in absolute value. *)
Fixpoint idamax (best : PrimFloat.float) (bi i : nat) (l : list row) : nat :=
  match l with
  | [] => bi
  | r :: l' =>
      if PrimFloat.ltb best (PrimFloat.abs (lead r))
      then idamax (PrimFloat.abs (lead r)) i (S i) l'
      else idamax best bi (S i) l'
  end.

Fixpoint put (j : nat) (r : row) (l : list row) : list row :=
  match l, j with
  | [], _ => []
  | _ :: l', O => r :: l'
  | r' :: l', S j' => r' :: put j' r l'
  end.

(** The pivot row changes places with the first row. *)
Definition interchange (r : row) (rest : list row) : row * list row :=
  match idamax (PrimFloat.abs (lead r)) 0 1 rest with
  | O => (r, rest)
  | S j => (nth j rest r, put j r rest)
  end.

(** The smallest number whose reciprocal does not overflow. *)
Definition sfmin : PrimFloat.float :=
  Eval compute in FloatOps.Z.ldexp PrimFloat.one (-1022).

(** The multiplier of the row [r] is its leading coefficient times the
    reciprocal of the pivot; the row loses that multiple of the pivot row,
    and so does its right-hand side when the one of the pivot row is not
    zero. *)
Definition eliminate (p r : row) : row :=
  let l := if PrimFloat.leb sfmin (PrimFloat.abs (lead p))
           then PrimFloat.mul (lead r) (PrimFloat.div PrimFloat.one (lead p))
           else PrimFloat.div (lead r) (lead p) in
  (map (fun au => PrimFloat.sub (fst au) (PrimFloat.mul l (snd au)))
       (combine (tl (fst r)) (tl (fst p))),
   if PrimFloat.eqb (snd p) PrimFloat.zero then snd r
   else PrimFloat.sub (snd r) (PrimFloat.mul (snd p) l)).

(** The factorisation with the forward substitution: the rows of the
    upper triangle, or nothing when a pivot is exactly zero. *)
Fixpoint getrf (n : nat) (sys : list row) : option (list row) :=
  match n with
  | O => Some []
  | S k =>
      match sys with
      | [] => None
      | r :: rest =>
          let (p, others) := interchange r rest in
          if PrimFloat.eqb (lead p) PrimFloat.zero then None
          else
            match getrf k (map (eliminate p) others) with
            | None => None
            | Some U => Some (p :: U)
            end
      end
  end.

(** The back substitution, column by column from the last unknown. *)
Fixpoint getrs (U : list row) : list PrimFloat.float :=
  match U with
  | [] => []
  | r :: U' =>
      let xs := getrs U' in
      let b := fold_right
                 (fun ux acc => if PrimFloat.eqb (snd ux) PrimFloat.zero then acc
                                else PrimFloat.sub acc (PrimFloat.mul (snd ux) (fst ux)))
                 (snd r) (combine (tl (fst r)) xs) in
      (if PrimFloat.eqb b PrimFloat.zero then b else PrimFloat.div b (lead r)) :: xs
  end.

Definition gesv (a : list (list PrimFloat.float)) (b : list PrimFloat.float)
  : option (list PrimFloat.float) :=
  match getrf (length a) (combine a b) with
  | Some U => Some (getrs U)
  | None => None
  end.

(** Between the arrays of real numbers and binary64: a whole number up to
    [2^53] is a binary64 number, and a finite binary64 number is a real
    number. *)
Definition of_Z (z : Z) : PrimFloat.float :=
  match z with
  | Z0 => PrimFloat.zero
  | Zpos p => PrimFloat.of_uint63 (Uint63.of_Z (Zpos p))
  | Zneg p => PrimFloat.opp (PrimFloat.of_uint63 (Uint63.of_Z (Zpos p)))
  end.

Definition as_Z (x : R) : option Z :=
  let z := Zfloor x in
  if Req_EM_T x (IZR z)
  then if (Z.abs z <=? 2 ^ 53)%Z then Some z else None
  else None.

Fixpoint whole (v : list R) : option (list Z) :=
  match v with
  | [] => Some []
  | x :: v' =>
      match as_Z x, whole v' with
      | Some z, Some zs => Some (z :: zs)
      | _, _ => None
      end
  end.

Fixpoint whole_rows (l : list (list R)) : option (list (list Z)) :=
  match l with
  | [] => Some []
  | v :: l' =>
      match whole v, whole_rows l' with
      | Some zs, Some zss => Some (zs :: zss)
      | _, _ => None
      end
  end.

Definition bpow (e : Z) : R :=
  if (0 <=? e)%Z then IZR (2 ^ e) else (/ IZR (2 ^ (- e)))%R.

(** The value of a finite number; an infinity or a [nan] has none, and 0
    stands for it. *)
Definition to_R (f : PrimFloat.float) : R :=
  match FloatOps.Prim2SF f with
  | SpecFloat.S754_finite s m e => ((if s then -1 else 1) * IZR (Zpos m) * bpow e)%R
  | _ => 0%R
  end.

(** [np.linalg.solve] on a system of whole numbers, which the arrays of
    numpy hold exactly: the elimination in binary64.  The rounding of other
    real numbers on their way into an array is not modelled: there the
    elimination is the exact one. *)
Definition solve (a : matrix) (b : vector) : result vector :=
  if negb (Nat.eqb (nrows a) (ncols a))
  then Raise (LinAlgError "Last 2 dimensions of the array must be square")
  else if negb (Nat.eqb (length b) (nrows a))
  then Raise (ValueError "solve: mismatch in core dimension")
  else
    match whole_rows (rows a), whole b with
    | Some az, Some bz =>
        match gesv (map (map of_Z) az) (map of_Z bz) with
        | Some x => Ok (map to_R x)
        | None => Raise (LinAlgError "Singular matrix")
        end
    | _, _ => exact.solve a b
    end.

End lapack.

(** ** Contracts of the collaborators and vocabulary of the statements *)

Module contract.

Import pygimli_ert_gauss_newton.
Local Open Scope R_scope.

(** A square matrix with a non-zero vector in its kernel: the linear
    system has no unique solution. *)
Definition singular (A : matrix) : Prop :=
  exists v, length v = ncols A /\ v <> zeros (ncols A) /\
            matvec A v = Ok (zeros (nrows A)).

(** [np.linalg.solve(a, b)] returns a solution of [a x = b] ... *)
Definition solve_sound (solve : matrix -> vector -> result vector) : Prop :=
  forall A b x, wf A -> solve A b = Ok x -> matvec A x = Ok b.

(** ... of the shape of [b] ... *)
Definition solve_shape (solve : matrix -> vector -> result vector) : Prop :=
  forall A b x, solve A b = Ok x -> length x = length b.

(** ... and raises [LinAlgError] on a singular matrix. *)
Definition solve_raises_singular (solve : matrix -> vector -> result vector) : Prop :=
  forall A b, wf A -> nrows A = ncols A -> length b = nrows A -> singular A ->
              solve A b = Raise (LinAlgError "Singular matrix").

(** ... and returns when the matrix is square, conformant with [b] and not
    singular. *)
Definition solve_complete (solve : matrix -> vector -> result vector) : Prop :=
  forall A b, wf A -> nrows A = ncols A -> length b = nrows A -> ~ singular A ->
              exists x, solve A b = Ok x.

(** The reporting callables return a number at every model. *)
Definition total (f : option (vector -> result R)) : Prop :=
  forall g, f = Some g -> forall m, exists x, g m = Ok x.

Definition reporters_total (self : GaussNewton) : Prop :=
  total (_misfit self) /\ total (_reg self).

(** The Hessian callable returns rectangular arrays. *)
Definition hessian_wf (self : GaussNewton) : Prop :=
  forall m H, _hessian self m = Ok H -> wf H.

(** One update of the model, in the words of the specification: evaluate
    the Hessian and the gradient at the current model, solve
    [H delta = - g], add [delta]. *)
Inductive update_step (solve : matrix -> vector -> result vector)
    (self : GaussNewton) (m m' : vector) : Prop :=
| update_step_intro (H : matrix) (g delta : vector) :
    _hessian self m = Ok H ->
    _gradient self m = Ok g ->
    solve H (negative g) = Ok delta ->
    matvec H delta = Ok (negative g) ->
    add m delta = Ok m' ->
    update_step solve self m m'.

(** [n] updates in a row. *)
Inductive steps (solve : matrix -> vector -> result vector)
    (self : GaussNewton) : nat -> vector -> vector -> Prop :=
| steps_O (m : vector) : steps solve self O m m
| steps_S (n : nat) (m1 m2 m3 : vector) :
    steps solve self n m1 m2 ->
    update_step solve self m2 m3 ->
    steps solve self (S n) m1 m3.

(** One update applied by hand, outside the solver. *)
Definition manual_step (solve : matrix -> vector -> result vector)
    (self : GaussNewton) (m : vector) : result vector :=
  (H <- _hessian self m ;;
   g <- _gradient self m ;;
   delta <- solve H (negative g) ;;
   add m delta)%result.

Definition is_solve (e : event) : bool :=
  match e with EvSolve _ _ => true | _ => false end.

Definition is_call (f : callee) (e : event) : bool :=
  match e, f with
  | EvCall Hessian _, Hessian => true
  | EvCall Gradient _, Gradient => true
  | EvCall Misfit _, Misfit => true
  | EvCall Reg _, Reg => true
  | _, _ => false
  end.

(** The events of the computation proper: not the reports. *)
Definition is_update (e : event) : bool :=
  match e with
  | EvCall Hessian _ | EvCall Gradient _ | EvSolve _ _ => true
  | _ => false
  end.

Definition count (p : event -> bool) (t : list event) : nat := length (filter p t).

Definition is_print (e : event) : bool :=
  match e with EvPrint _ => true | _ => false end.

(** The number of reporting callables the solver holds. *)
Definition reporters (self : GaussNewton) : nat :=
  match _misfit self with Some _ => 1 | None => 0 end +
  match _reg self with Some _ => 1 | None => 0 end.

(** The loop of [__call__] after [k] passes. *)
Definition passes (solve : matrix -> vector -> result vector)
    (self : GaussNewton) (k : nat) : io vector :=
  for_each (loop_body solve self) (range (Z.of_nat k)) (array (_model_0 self)).

(** The model an event carries has length [M]. *)
Definition event_length (M : nat) (e : event) : Prop :=
  match e with
  | EvCall _ m => length m = M
  | EvSolve _ b => length b = M
  | EvPrint _ => True
  end.

(** The Hessian in the words of the specification, entry by entry:
    [J^T Cinv J + lamda Wm^T Wm]. *)
Definition hessian_formula (J Cinv Wm : matrix) (lamda : R) : matrix :=
  mk_matrix (ncols J) (ncols J)
    (fun i j =>
       sum_n (nrows J) (fun k =>
         sum_n (nrows J) (fun l => mget J k i * mget Cinv k l * mget J l j))
       + lamda * sum_n (nrows Wm) (fun k => mget Wm k i * mget Wm k j)).

(** The same with the identity for [Cinv]: [J^T J + lamda Wm^T Wm]. *)
Definition hessian_formula_unweighted (J Wm : matrix) (lamda : R) : matrix :=
  mk_matrix (ncols J) (ncols J)
    (fun i j =>
       sum_n (nrows J) (fun k => mget J k i * mget J k j)
       + lamda * sum_n (nrows Wm) (fun k => mget Wm k i * mget Wm k j)).

End contract.

(** ** Small problems to run the solver on *)

Module example.

Import pygimli_ert_gauss_newton.
Local Open Scope R_scope.

(** The objective [(m0 - 1)^2 + (m1 - 2)^2]: its gradient and Hessian. *)
Definition bowl_misfit (m : vector) : result R :=
  Ok ((vget m 0 - 1) * (vget m 0 - 1) + (vget m 1 - 2) * (vget m 1 - 2)).

Definition bowl_gradient (m : vector) : result vector :=
  Ok [2 * (vget m 0 - 1); 2 * (vget m 1 - 2)].

Definition bowl_hessian (m : vector) : result matrix :=
  Ok (mkMatrix 2 2 [[2; 0]; [0; 2]]).

Definition bowl : GaussNewton :=
  {| _niter := 3; _verbose := true; _model_0 := [0; 0];
     _residual := fun _ => Ok []; _jacobian := fun _ => Ok (mkMatrix 0 2 []);
     _gradient := bowl_gradient; _hessian := bowl_hessian;
     _misfit := Some bowl_misfit; _reg := None |}.

(** The objective [(m0 + 2 m1 - 1)^2], flat along [(2, -1)]: its Hessian
    is singular everywhere. *)
Definition valley_gradient (m : vector) : result vector :=
  Ok [2 * (vget m 0 + 2 * vget m 1 - 1); 4 * (vget m 0 + 2 * vget m 1 - 1)].

Definition valley_matrix : matrix := mkMatrix 2 2 [[2; 4]; [4; 8]].

Definition valley_hessian (m : vector) : result matrix := Ok valley_matrix.

Definition valley : GaussNewton :=
  {| _niter := 3; _verbose := false; _model_0 := [0; 0];
     _residual := fun _ => Ok []; _jacobian := fun _ => Ok (mkMatrix 0 2 []);
     _gradient := valley_gradient; _hessian := valley_hessian;
     _misfit := None; _reg := None |}.

(** Two data and three cells without regularisation: the Hessian
    [J^T J] of the Jacobian [((1, 1, 1), (2, 1, 3))] is singular, with
    [(-2, 1, 1)] in its kernel.  The gradient is [- 2 J^T r] for the
    residual [r = (1/2, 3/2)]. *)
Definition gram_matrix : matrix := mkMatrix 3 3 [[5; 3; 7]; [3; 2; 4]; [7; 4; 10]].

Definition gram_hessian (m : vector) : result matrix := Ok gram_matrix.

Definition gram_gradient (m : vector) : result vector := Ok [-7; -4; -10].

Definition underdetermined : GaussNewton :=
  {| _niter := 1; _verbose := false; _model_0 := [0; 0; 0];
     _residual := fun _ => Ok []; _jacobian := fun _ => Ok (mkMatrix 0 3 []);
     _gradient := gram_gradient; _hessian := gram_hessian;
     _misfit := None; _reg := None |}.

(** A forward operator with two data and two cells: the responses
    [m0 m1] and [m0], and their derivatives. *)
Definition fop_product : pygimli.forward_operator :=
  {| pygimli.response := fun m => [vget m 0 * vget m 1; vget m 0];
     pygimli.compute_jacobian :=
       fun m => mkMatrix 2 2 [[vget m 1; vget m 0]; [1; 0]];
     pygimli.stored_jacobian := mkMatrix 0 0 [] |}.

(** The Jacobian that [pygimli_dcip_lib.get_jacobian] computes from
    [fop_product] at the log-space model [(0, 0)], and the one that the ERT
    [get_jacobian] computes at the model [(1, 1)]. *)
Definition dcip_jacobian : matrix :=
  mk_matrix 2 2
    (fun i j =>
       mget (pygimli.compute_jacobian fop_product (np.exp [0; 0])) i j
       / Rtrigo_def.exp
           (vget (np.log (pygimli.response fop_product (np.exp [0; 0]))) i)
       * vget (np.exp [0; 0]) j).

Definition ert_jacobian : matrix :=
  mk_matrix 2 2
    (fun i j =>
       mget (pygimli.compute_jacobian fop_product [1; 1]) i j
       / Rtrigo_def.exp (vget (get_response [1; 1] fop_product) i)
       * vget (np.exp (np.log [1; 1])) j).

(** A first-difference regularisation matrix for two cells. *)
Definition smooth : matrix := mkMatrix 1 2 [[1; -1]].

(** A forward operator whose log response is linear in one cell: both data
    respond as [exp m0], so that the rescaled Jacobian is the column
    [(1, 1)]. *)
Definition fop_line : pygimli.forward_operator :=
  {| pygimli.response :=
       fun m => [Rtrigo_def.exp (vget m 0); Rtrigo_def.exp (vget m 0)];
     pygimli.compute_jacobian :=
       fun m => mkMatrix 2 1 [[Rtrigo_def.exp (vget m 0) / vget m 0];
                              [Rtrigo_def.exp (vget m 0) / vget m 0]];
     pygimli.stored_jacobian := mkMatrix 0 0 [] |}.

Definition line_G : matrix := mkMatrix 2 1 [[1]; [1]].
Definition line_GtG : matrix := mkMatrix 1 1 [[2]].
Definition line_GtG_inv : matrix := mkMatrix 1 1 [[/ 2]].
Definition line_data : vector := [1; 3].
Definition line_damping : matrix := mkMatrix 1 1 [[1]].

End example.

(** * Properties *)

Import pygimli_ert_gauss_newton contract.

(** Equality of arrays given by their entries: entry by entry. *)
Ltac arrays_eq :=
  repeat match goal with
         | |- Ok _ = Ok _ => apply f_equal
         | |- mkMatrix _ _ _ = mkMatrix _ _ _ => apply f_equal
         | |- cofi.Build_solver_result _ _ = cofi.Build_solver_result _ _ =>
             apply f_equal2
         | |- true = true => reflexivity
         | |- cons _ _ = cons _ _ => apply f_equal2
         | |- nil = nil => reflexivity
         end.

(** ** The effect monad *)

Section Monad.

Context {A B : Type}.

Lemma outcome_bind (c : io A) (k : A -> io B) :
  outcome (bind c k) =
  match outcome c with
  | Ok a => outcome (k a)
  | Raise e => Raise e
  end.
Proof.
  destruct c as [t [a | e]]; simpl; [ | reflexivity ].
  destruct (k a); reflexivity.
Qed.

Lemma trace_bind (c : io A) (k : A -> io B) :
  trace (bind c k) =
  trace c ++ match outcome c with
             | Ok a => trace (k a)
             | Raise _ => []
             end.
Proof.
  destruct c as [t [a | e]]; simpl.
  - destruct (k a); reflexivity.
  - now rewrite app_nil_r.
Qed.

Lemma io_ext (c d : io A) : trace c = trace d -> outcome c = outcome d -> c = d.
Proof. destruct c, d; simpl; congruence. Qed.

End Monad.

Lemma outcome_lift {A : Type} (r : result A) : outcome (lift r) = r.
Proof. reflexivity. Qed.

Lemma trace_lift {A : Type} (r : result A) : trace (lift r) = [].
Proof. reflexivity. Qed.

Lemma bind_assoc {A B C : Type} (c : io A) (k : A -> io B) (h : B -> io C) :
  bind (bind c k) h = bind c (fun a => bind (k a) h).
Proof.
  apply io_ext.
  - rewrite !trace_bind, !outcome_bind.
    destruct (outcome c); rewrite <- ?app_assoc, ?trace_bind; simpl; auto.
  - rewrite !outcome_bind. destruct (outcome c); rewrite ?outcome_bind; auto.
Qed.

Lemma bind_ret_r {A : Type} (c : io A) : bind c ret = c.
Proof.
  destruct c as [t [a | e]]; simpl; [ now rewrite app_nil_r | reflexivity ].
Qed.

(** ** The [for] loop *)

Lemma range_succ (k : nat) :
  range (Z.of_nat (S k)) = range (Z.of_nat k) ++ [Z.of_nat k].
Proof.
  unfold range. rewrite !Nat2Z.id, seq_S, map_app. reflexivity.
Qed.

Lemma range_to_nat (n : Z) : range n = range (Z.of_nat (Z.to_nat n)).
Proof. unfold range. now rewrite Nat2Z.id. Qed.

Lemma bind_ext {A B : Type} (c : io A) (k h : A -> io B) :
  (forall a, k a = h a) -> bind c k = bind c h.
Proof.
  intros E. destruct c as [t [a | e]]; simpl; [ now rewrite E | reflexivity ].
Qed.

Lemma for_each_app {S : Type} (body : Z -> S -> io S) (l1 l2 : list Z) (s : S) :
  for_each body (l1 ++ l2) s = bind (for_each body l1 s) (for_each body l2).
Proof.
  revert s. induction l1 as [ | i l1 IH ]; intros s; simpl.
  - destruct (for_each body l2 s) as [t r]; reflexivity.
  - rewrite bind_assoc. apply bind_ext. intros a. apply IH.
Qed.

Lemma for_each_snoc {S : Type} (body : Z -> S -> io S) (l : list Z) (i : Z) (s : S) :
  for_each body (l ++ [i]) s = bind (for_each body l s) (body i).
Proof.
  rewrite for_each_app. apply bind_ext. intros a. simpl. apply bind_ret_r.
Qed.

(** ** One pass of the loop *)

Section Loop.

Variable linalg_solve : matrix -> vector -> result vector.
Variable self : GaussNewton.

Lemma outcome_call {A : Type} (f : callee) (g : vector -> result A) (m : vector) :
  outcome (call f g m) = g m.
Proof. unfold call. rewrite outcome_bind. reflexivity. Qed.

Lemma trace_call {A : Type} (f : callee) (g : vector -> result A) (m : vector) :
  trace (call f g m) = [EvCall f m].
Proof. unfold call. rewrite trace_bind. reflexivity. Qed.

Lemma outcome_solve (A : matrix) (b : vector) :
  outcome (solve linalg_solve A b) = linalg_solve A b.
Proof. unfold solve. rewrite outcome_bind. reflexivity. Qed.

Lemma trace_solve (A : matrix) (b : vector) :
  trace (solve linalg_solve A b) = [EvSolve A b].
Proof. unfold solve. rewrite trace_bind. reflexivity. Qed.

(** The report performs no update event. *)
Lemma report_no_update (i : Z) (m : vector) :
  filter is_update (trace (report self i m)) = [].
Proof.
  unfold report. destruct (_verbose self); [ | reflexivity ].
  rewrite !trace_bind. simpl.
  destruct (_misfit self) as [f | ], (_reg self) as [g | ];
    rewrite ?outcome_bind, ?trace_bind, ?outcome_call, ?trace_call; simpl;
    repeat match goal with
           | |- context [ match ?r with Ok _ => _ | Raise _ => _ end ] =>
               destruct r; simpl
           end; reflexivity.
Qed.

(** A quiet solver, or one whose reporters return, reports without raising. *)
Lemma report_returns (i : Z) (m : vector) :
  _verbose self = false \/ reporters_total self ->
  outcome (report self i m) = Ok tt.
Proof.
  unfold report. intros [Hq | [Hm Hr]].
  - now rewrite Hq.
  - destruct (_verbose self); [ | reflexivity ].
    unfold total in Hm, Hr.
    destruct (_misfit self) as [f | ]; [ destruct (Hm f eq_refl m) as [x Hx] | ];
      (destruct (_reg self) as [g | ]; [ destruct (Hr g eq_refl m) as [y Hy] | ]);
      repeat (rewrite ?outcome_bind, ?outcome_call, ?Hx, ?Hy; simpl);
      reflexivity.
Qed.

(** The outcome of one pass: the update, then the report. *)
Lemma outcome_loop_body (i : Z) (m : vector) :
  outcome (loop_body linalg_solve self i m) =
  rbind (manual_step linalg_solve self m)
        (fun m' => rbind (outcome (report self i m')) (fun _ => Ok m')).
Proof.
  unfold loop_body, manual_step.
  rewrite outcome_bind, outcome_call.
  destruct (_hessian self m) as [H | e]; cbn [rbind]; [ | reflexivity ].
  rewrite outcome_bind, outcome_call.
  destruct (_gradient self m) as [g | e]; cbn [rbind]; [ | reflexivity ].
  rewrite outcome_bind, outcome_solve.
  destruct (linalg_solve H (negative g)) as [d | e]; cbn [rbind]; [ | reflexivity ].
  rewrite outcome_bind, outcome_lift.
  destruct (add m d) as [m' | e]; cbn [rbind]; [ | reflexivity ].
  rewrite outcome_bind. unfold array.
  destruct (outcome (report self i m')); reflexivity.
Qed.

(** The update events of one pass. *)
Lemma updates_loop_body (i : Z) (m : vector) :
  filter is_update (trace (loop_body linalg_solve self i m)) =
  EvCall Hessian m ::
  match _hessian self m with
  | Ok H =>
      EvCall Gradient m ::
      match _gradient self m with
      | Ok g => [EvSolve H (negative g)]
      | Raise _ => []
      end
  | Raise _ => []
  end.
Proof.
  unfold loop_body.
  rewrite trace_bind, trace_call, outcome_call.
  cbn [app filter is_update]. f_equal.
  destruct (_hessian self m) as [H | e]; [ | reflexivity ].
  rewrite trace_bind, trace_call, outcome_call.
  cbn [app filter is_update]. f_equal.
  destruct (_gradient self m) as [g | e]; [ | reflexivity ].
  rewrite trace_bind, trace_solve, outcome_solve.
  cbn [app filter is_update]. f_equal.
  destruct (linalg_solve H (negative g)) as [d | e]; [ | reflexivity ].
  rewrite trace_bind, trace_lift, outcome_lift. cbn [app].
  destruct (add m d) as [m' | e]; [ | reflexivity ].
  rewrite trace_bind, filter_app, report_no_update. cbn [app].
  destruct (outcome (report self i (array m'))); reflexivity.
Qed.

End Loop.

(** ** The whole invocation *)

Section Run.

Variable linalg_solve : matrix -> vector -> result vector.
Variable self : GaussNewton.

Lemma passes_succ (k : nat) :
  passes linalg_solve self (S k) =
  bind (passes linalg_solve self k) (loop_body linalg_solve self (Z.of_nat k)).
Proof. unfold passes. rewrite range_succ. apply for_each_snoc. Qed.

Lemma call_passes :
  __call__ linalg_solve self =
  bind (passes linalg_solve self (Z.to_nat (_niter self)))
       (fun m => ret {| cofi.model := m; cofi.success := true |}).
Proof. unfold __call__, passes. now rewrite <- range_to_nat. Qed.

Lemma outcome_call_passes :
  outcome (__call__ linalg_solve self) =
  rmap (fun m => {| cofi.model := m; cofi.success := true |})
       (outcome (passes linalg_solve self (Z.to_nat (_niter self)))).
Proof.
  rewrite call_passes, outcome_bind.
  destruct (outcome (passes linalg_solve self _)); reflexivity.
Qed.

Lemma trace_call_passes :
  trace (__call__ linalg_solve self) =
  trace (passes linalg_solve self (Z.to_nat (_niter self))).
Proof.
  rewrite call_passes, trace_bind.
  destruct (outcome (passes linalg_solve self _)); simpl; now rewrite app_nil_r.
Qed.

Lemma outcome_passes_succ (k : nat) :
  outcome (passes linalg_solve self (S k)) =
  rbind (outcome (passes linalg_solve self k))
        (fun m => outcome (loop_body linalg_solve self (Z.of_nat k) m)).
Proof.
  rewrite passes_succ, outcome_bind.
  destruct (outcome (passes linalg_solve self k)); reflexivity.
Qed.

Lemma trace_passes_succ (k : nat) :
  trace (passes linalg_solve self (S k)) =
  trace (passes linalg_solve self k) ++
  match outcome (passes linalg_solve self k) with
  | Ok m => trace (loop_body linalg_solve self (Z.of_nat k) m)
  | Raise _ => []
  end.
Proof. rewrite passes_succ. apply trace_bind. Qed.

(** Once a pass has raised, no later pass runs. *)
Lemma passes_raise (k n : nat) (e : exn) :
  outcome (passes linalg_solve self k) = Raise e ->
  passes linalg_solve self (n + k) = passes linalg_solve self k.
Proof.
  intros E. induction n as [ | n IH ]; [ reflexivity | ].
  cbn [Nat.add]. rewrite passes_succ, IH.
  destruct (passes linalg_solve self k) as [t [a | e']]; simpl in *;
    [ discriminate | reflexivity ].
Qed.

(** A pass that returns has applied the update. *)
Lemma loop_body_ok_manual (i : Z) (m m' : vector) :
  outcome (loop_body linalg_solve self i m) = Ok m' ->
  manual_step linalg_solve self m = Ok m'.
Proof.
  rewrite outcome_loop_body.
  destruct (manual_step linalg_solve self m) as [m2 | e]; cbn [rbind];
    [ | discriminate ].
  destruct (outcome (report self i m2)); cbn [rbind]; congruence.
Qed.

(** The update events of a pass that returns. *)
Lemma updates_loop_body_ok (i : Z) (m m' : vector) :
  outcome (loop_body linalg_solve self i m) = Ok m' ->
  exists H g, _hessian self m = Ok H /\ _gradient self m = Ok g /\
    filter is_update (trace (loop_body linalg_solve self i m)) =
    [EvCall Hessian m; EvCall Gradient m; EvSolve H (negative g)].
Proof.
  intros E. apply loop_body_ok_manual in E. unfold manual_step in E.
  rewrite updates_loop_body.
  destruct (_hessian self m) as [H | e]; cbn [rbind] in E; [ | discriminate ].
  destruct (_gradient self m) as [g | e]; cbn [rbind] in E; [ | discriminate ].
  now exists H, g.
Qed.

Lemma count_filter_update (p : event -> bool) (t : list event) :
  (forall e, p e = true -> is_update e = true) ->
  count p (filter is_update t) = count p t.
Proof.
  intros Hp. unfold count. induction t as [ | e t IH ]; [ reflexivity | ].
  cbn [filter]. destruct (is_update e) eqn:Eu; cbn [filter].
  - destruct (p e); cbn [length]; now rewrite IH.
  - destruct (p e) eqn:Ep; [ | exact IH ].
    apply Hp in Ep. congruence.
Qed.

Lemma count_app (p : event -> bool) (t u : list event) :
  count p (t ++ u) = (count p t + count p u)%nat.
Proof. unfold count. now rewrite filter_app, length_app. Qed.

(** A run of [k] passes that returns performed [k] Hessian calls, [k]
    gradient calls and [k] linear solves. *)
Lemma count_passes (k : nat) (m : vector) :
  outcome (passes linalg_solve self k) = Ok m ->
  count is_solve (trace (passes linalg_solve self k)) = k /\
  count (is_call Hessian) (trace (passes linalg_solve self k)) = k /\
  count (is_call Gradient) (trace (passes linalg_solve self k)) = k.
Proof.
  revert m. induction k as [ | k IH ]; intros m E.
  - repeat split; reflexivity.
  - rewrite outcome_passes_succ in E. rewrite trace_passes_succ.
    destruct (outcome (passes linalg_solve self k)) as [m2 | e]; cbn [rbind] in E;
      [ | discriminate ].
    destruct (IH m2 eq_refl) as (I1 & I2 & I3).
    destruct (updates_loop_body_ok _ _ _ E) as (H & g & _ & _ & Et).
    rewrite !count_app, I1, I2, I3.
    rewrite <- (count_filter_update is_solve (trace (loop_body _ _ _ _))),
      <- (count_filter_update (is_call Hessian) (trace (loop_body _ _ _ _))),
      <- (count_filter_update (is_call Gradient) (trace (loop_body _ _ _ _))), Et.
    + cbn. repeat split; lia.
    + intros [[ | | | ] ? | | ]; simpl; congruence.
    + intros [[ | | | ] ? | | ]; simpl; congruence.
    + intros [[ | | | ] ? | | ]; simpl; congruence.
Qed.

Hypothesis reports : _verbose self = false \/ reporters_total self.

Lemma outcome_loop_body_manual (i : Z) (m : vector) :
  outcome (loop_body linalg_solve self i m) = manual_step linalg_solve self m.
Proof.
  rewrite outcome_loop_body.
  destruct (manual_step linalg_solve self m) as [m' | e]; cbn [rbind]; [ | reflexivity ].
  now rewrite report_returns.
Qed.

Lemma manual_step_update (m m' : vector) :
  solve_sound linalg_solve -> hessian_wf self ->
  manual_step linalg_solve self m = Ok m' <-> update_step linalg_solve self m m'.
Proof.
  intros Hs Hw. unfold manual_step. split.
  - intros E.
    destruct (_hessian self m) as [H | e] eqn:EH; cbn [rbind] in E; [ | discriminate ].
    destruct (_gradient self m) as [g | e] eqn:EG; cbn [rbind] in E; [ | discriminate ].
    destruct (linalg_solve H (negative g)) as [d | e] eqn:ES; cbn [rbind] in E;
      [ | discriminate ].
    apply update_step_intro with (H := H) (g := g) (delta := d); auto.
    apply Hs; auto. apply (Hw m); auto.
  - intros [H g d EH EG ES _ EA]. rewrite EH; cbn [rbind].
    rewrite EG; cbn [rbind]. now rewrite ES.
Qed.

Lemma outcome_passes_steps (k : nat) (m : vector) :
  solve_sound linalg_solve -> hessian_wf self ->
  outcome (passes linalg_solve self k) = Ok m <->
  steps linalg_solve self k (_model_0 self) m.
Proof.
  intros Hs Hw. revert m. induction k as [ | k IH ]; intros m.
  - unfold passes, array. simpl. split.
    + intros E. injection E as <-. constructor.
    + intros S. inversion S; subst. reflexivity.
  - rewrite outcome_passes_succ. split.
    + intros E.
      destruct (outcome (passes linalg_solve self k)) as [m2 | e]; cbn [rbind] in E;
        [ | discriminate ].
      rewrite outcome_loop_body_manual in E.
      apply steps_S with (m2 := m2).
      * now apply IH.
      * now apply manual_step_update.
    + intros S. inversion S as [ | n m1 m2 m3 S1 S2 ]; subst.
      apply IH in S1. rewrite S1. cbn [rbind].
      rewrite outcome_loop_body_manual. now apply manual_step_update.
Qed.

End Run.

(** ** Two solvers that differ in their reporting only *)

Section Agree.

Variable linalg_solve : matrix -> vector -> result vector.
Variables self self' : GaussNewton.

Hypothesis same_model_0 : _model_0 self' = _model_0 self.
Hypothesis same_gradient : _gradient self' = _gradient self.
Hypothesis same_hessian : _hessian self' = _hessian self.
Hypothesis reports : _verbose self = false \/ reporters_total self.
Hypothesis reports' : _verbose self' = false \/ reporters_total self'.

Lemma manual_step_agree (m : vector) :
  manual_step linalg_solve self' m = manual_step linalg_solve self m.
Proof. unfold manual_step. now rewrite same_gradient, same_hessian. Qed.

Lemma outcome_passes_agree (k : nat) :
  outcome (passes linalg_solve self' k) = outcome (passes linalg_solve self k).
Proof.
  induction k as [ | k IH ].
  - unfold passes. simpl. now rewrite same_model_0.
  - rewrite !outcome_passes_succ, IH.
    destruct (outcome (passes linalg_solve self k)) as [m | e]; cbn [rbind];
      [ | reflexivity ].
    rewrite !outcome_loop_body_manual by assumption. apply manual_step_agree.
Qed.

Lemma updates_passes_agree (k : nat) :
  filter is_update (trace (passes linalg_solve self' k)) =
  filter is_update (trace (passes linalg_solve self k)).
Proof.
  induction k as [ | k IH ]; [ reflexivity | ].
  rewrite !trace_passes_succ, !filter_app, IH, outcome_passes_agree.
  destruct (outcome (passes linalg_solve self k)) as [m | e]; [ | reflexivity ].
  now rewrite !updates_loop_body, same_gradient, same_hessian.
Qed.

End Agree.

(** ** The length of the model *)

Section Lengths.

Variable linalg_solve : matrix -> vector -> result vector.
Variable self : GaussNewton.
Variable M : nat.

Hypothesis shape : solve_shape linalg_solve.
Hypothesis gradient_length :
  forall m g, length m = M -> _gradient self m = Ok g -> length g = M.

Lemma length_mk_vector (n : nat) (f : nat -> R) : length (mk_vector n f) = n.
Proof. unfold mk_vector. now rewrite length_map, length_seq. Qed.

Lemma bdim_same (n : nat) : bdim n n = Some n.
Proof. unfold bdim. now rewrite Nat.eqb_refl. Qed.

Lemma length_add_same (u v w : vector) :
  length v = length u -> add u v = Ok w -> length w = length u.
Proof.
  unfold add, broadcast1. intros E. rewrite E, bdim_same.
  intros [= <-]. apply length_mk_vector.
Qed.

Lemma length_manual_step (m m' : vector) :
  length m = M -> manual_step linalg_solve self m = Ok m' -> length m' = M.
Proof.
  intros Lm. unfold manual_step.
  destruct (_hessian self m) as [H | e]; cbn [rbind]; [ | discriminate ].
  destruct (_gradient self m) as [g | e] eqn:EG; cbn [rbind]; [ | discriminate ].
  destruct (linalg_solve H (negative g)) as [d | e] eqn:ES; cbn [rbind];
    [ | discriminate ].
  intros EA. apply shape in ES. unfold negative in ES. rewrite length_map in ES.
  rewrite (gradient_length _ _ Lm EG) in ES.
  rewrite <- Lm. apply (length_add_same m d); congruence.
Qed.

Hypothesis model_0_length : length (_model_0 self) = M.

Lemma length_passes (k : nat) (m : vector) :
  outcome (passes linalg_solve self k) = Ok m -> length m = M.
Proof.
  revert m. induction k as [ | k IH ]; intros m.
  - unfold passes, array. simpl. now intros [= <-].
  - rewrite outcome_passes_succ.
    destruct (outcome (passes linalg_solve self k)) as [m2 | e]; cbn [rbind];
      [ | discriminate ].
    intros E. apply loop_body_ok_manual in E.
    apply (length_manual_step m2); auto.
Qed.

(** Every model handed to a callable, and every right-hand side handed to
    the linear solver, has length [M]. *)
Lemma lengths_loop_body (i : Z) (m : vector) :
  length m = M -> Forall (event_length M) (trace (loop_body linalg_solve self i m)).
Proof.
  intros Lm. unfold loop_body.
  rewrite trace_bind, trace_call, outcome_call.
  apply Forall_app; split; [ repeat constructor; exact Lm | ].
  destruct (_hessian self m) as [H | e]; [ | constructor ].
  rewrite trace_bind, trace_call, outcome_call.
  apply Forall_app; split; [ repeat constructor; exact Lm | ].
  destruct (_gradient self m) as [g | e] eqn:EG; [ | constructor ].
  rewrite trace_bind, trace_solve, outcome_solve.
  assert (Lg : length (negative g) = M).
  { unfold negative. rewrite length_map. apply (gradient_length _ _ Lm EG). }
  apply Forall_app; split; [ repeat constructor; exact Lg | ].
  destruct (linalg_solve H (negative g)) as [d | e] eqn:ES; [ | constructor ].
  rewrite trace_bind, trace_lift, outcome_lift. cbn [app].
  destruct (add m d) as [m' | e] eqn:EA; [ | constructor ].
  assert (Lm' : length m' = M).
  { rewrite <- Lm. apply (length_add_same m d); auto.
    apply shape in ES. congruence. }
  rewrite trace_bind. unfold array.
  apply Forall_app; split.
  - unfold report. destruct (_verbose self); [ | constructor ].
    rewrite !trace_bind. cbn [outcome print emit snd trace fst app].
    repeat constructor.
    destruct (_misfit self) as [f | ], (_reg self) as [r | ];
      rewrite ?outcome_bind, ?trace_bind, ?outcome_call, ?trace_call;
      cbn [app outcome ret snd trace fst];
      repeat match goal with
             | |- context [ match ?r with Ok _ => _ | Raise _ => _ end ] =>
                 destruct r; cbn [app outcome ret snd trace fst print emit]
             end;
      rewrite ?trace_bind, ?trace_call; cbn [app outcome ret snd trace fst print emit];
      repeat constructor; auto.
  - destruct (outcome (report self i m')); constructor.
Qed.

Lemma lengths_passes (k : nat) :
  Forall (event_length M) (trace (passes linalg_solve self k)).
Proof.
  induction k as [ | k IH ]; [ constructor | ].
  rewrite trace_passes_succ. apply Forall_app; split; [ exact IH | ].
  destruct (outcome (passes linalg_solve self k)) as [m | e] eqn:E; [ | constructor ].
  apply lengths_loop_body. now apply (length_passes k).
Qed.

End Lengths.

(** ** The reference solver meets the contract of [np.linalg.solve] *)

Section ExactSolver.

Import exact.
Local Open Scope R_scope.

Lemma pick_max_In (r : row) (rest : list row) (p : row) (others : list row) :
  pick_max r rest = (p, others) ->
  length others = length rest /\
  (forall x, In x (r :: rest) <-> x = p \/ In x others).
Proof.
  revert r p others. induction rest as [ | r' rest IH ]; intros r p others; simpl.
  - intros [= <- <-]. split; [ reflexivity | ]. intros x. simpl. intuition congruence.
  - destruct (Rlt_dec (Rabs (lead r)) (Rabs (lead r'))).
    + destruct (pick_max r' rest) as [q os] eqn:E. intros [= <- <-].
      destruct (IH _ _ _ E) as [L I]. split; [ simpl; congruence | ].
      intros x. specialize (I x). simpl in *. intuition congruence.
    + destruct (pick_max r rest) as [q os] eqn:E. intros [= <- <-].
      destruct (IH _ _ _ E) as [L I]. split; [ simpl; congruence | ].
      intros x. specialize (I x). simpl in *. intuition congruence.
Qed.

Lemma dot_eliminate (f : R) (u t xs : list R) :
  length u = length t ->
  dot (map (fun xy => fst xy - f * snd xy) (combine u t)) xs = dot u xs - f * dot t xs.
Proof.
  revert t xs. induction u as [ | a u IH ]; intros [ | b t ] xs; simpl; try discriminate.
  - intros _. ring.
  - intros [= L]. destruct xs as [ | x xs ]; [ ring | ].
    rewrite IH by assumption. ring.
Qed.

Lemma length_eliminate (p r : row) (k : nat) :
  length (fst p) = S k -> length (fst r) = S k -> length (fst (eliminate p r)) = k.
Proof.
  unfold eliminate. simpl. intros Lp Lr.
  rewrite length_map, length_combine.
  destruct (fst p), (fst r); simpl in *; try discriminate. lia.
Qed.

Lemma length_gauss (n : nat) (sys : list row) (x : list R) :
  gauss n sys = Some x -> length x = n.
Proof.
  revert sys x. induction n as [ | k IH ]; intros sys x; simpl.
  - now intros [= <-].
  - destruct sys as [ | r rest ]; [ discriminate | ].
    destruct (pick_max r rest) as [p others].
    destruct (Req_EM_T (lead p) 0); [ discriminate | ].
    destruct (gauss k (map (eliminate p) others)) as [xs | ] eqn:E; [ | discriminate ].
    intros [= <-]. simpl. f_equal. eapply IH, E.
Qed.

(** What [gauss] returns satisfies every equation of the system. *)
Lemma gauss_sound (n : nat) (sys : list row) (x : list R) :
  length sys = n ->
  (forall r, In r sys -> length (fst r) = n) ->
  gauss n sys = Some x ->
  forall r, In r sys -> dot (fst r) x = snd r.
Proof.
  revert sys x. induction n as [ | k IH ]; intros sys x Ls Lr; simpl.
  - destruct sys; [ | discriminate ]. intros _ r [].
  - destruct sys as [ | r0 rest ]; [ discriminate | ].
    destruct (pick_max r0 rest) as [p others] eqn:EP.
    destruct (pick_max_In _ _ _ _ EP) as [Lo I].
    destruct (Req_EM_T (lead p) 0) as [ | Hp ]; [ discriminate | ].
    destruct (gauss k (map (eliminate p) others)) as [xs | ] eqn:E; [ | discriminate ].
    intros [= <-] r Hr.
    assert (Lpc : length (fst p) = S k) by (apply Lr, I; now left).
    assert (IHx : forall q, In q others -> dot (fst (eliminate p q)) xs = snd (eliminate p q)).
    { intros q Hq. apply (IH (map (eliminate p) others) xs).
      - rewrite length_map. simpl in Ls. lia.
      - intros q' Hq'. apply in_map_iff in Hq' as (q0 & <- & Hq0).
        apply length_eliminate; [ exact Lpc | ]. apply Lr, I. now right.
      - exact E.
      - now apply in_map. }
    destruct p as [pc pb]. unfold lead in *. simpl in *.
    destruct pc as [ | a t ]; [ discriminate | ]. simpl in *.
    apply I in Hr as [-> | Hr].
    + simpl. field. exact Hp.
    + specialize (IHx r Hr). unfold eliminate, lead in IHx. simpl in IHx.
      assert (Lrc : length (fst r) = S k) by (apply Lr, I; now right).
      destruct r as [rc rb]. simpl in *.
      destruct rc as [ | c tc ]; [ discriminate | ]. simpl in *.
      rewrite dot_eliminate in IHx by congruence.
      apply Rminus_diag_uniq.
      replace (c * ((pb - dot t xs) / a) + dot tc xs - rb)
        with (dot tc xs - c / a * dot t xs - (rb - c / a * pb)) by (field; exact Hp).
      rewrite IHx. ring.
Qed.

Lemma dot_zeros (t vs : list R) : Forall (eq 0) vs -> dot t vs = 0.
Proof.
  revert vs. induction t as [ | a t IH ]; intros vs F; [ reflexivity | ].
  destruct F as [ | v vs <- F ]; simpl; [ reflexivity | ].
  rewrite IH by assumption. ring.
Qed.

(** A system that [gauss] solves has a trivial kernel. *)
Lemma gauss_kernel (n : nat) (sys : list row) (x : list R) :
  length sys = n ->
  (forall r, In r sys -> length (fst r) = n) ->
  gauss n sys = Some x ->
  forall v, length v = n -> (forall r, In r sys -> dot (fst r) v = 0) ->
            Forall (eq 0) v.
Proof.
  revert sys x. induction n as [ | k IH ]; intros sys x Ls Lr; simpl.
  - intros _ [ | ? ? ]; [ constructor | discriminate ].
  - destruct sys as [ | r0 rest ]; [ discriminate | ].
    destruct (pick_max r0 rest) as [p others] eqn:EP.
    destruct (pick_max_In _ _ _ _ EP) as [Lo I].
    destruct (Req_EM_T (lead p) 0) as [ | Hp ]; [ discriminate | ].
    destruct (gauss k (map (eliminate p) others)) as [xs | ] eqn:E; [ | discriminate ].
    intros _ [ | v1 vs ] Lv K; [ discriminate | ].
    assert (Lpc : length (fst p) = S k) by (apply Lr, I; now left).
    assert (Kp : dot (fst p) (v1 :: vs) = 0) by (apply K, I; now left).
    destruct p as [pc pb]. unfold lead in *. simpl in *.
    destruct pc as [ | a t ]; [ discriminate | ]. simpl in *.
    assert (Fvs : Forall (eq 0) vs).
    { apply (IH (map (eliminate (a :: t, pb)) others) xs).
      - rewrite length_map. lia.
      - intros q' Hq'. apply in_map_iff in Hq' as (q0 & <- & Hq0).
        apply length_eliminate; [ simpl; congruence | ]. apply Lr, I. now right.
      - exact E.
      - congruence.
      - intros q' Hq'. apply in_map_iff in Hq' as (q & <- & Hq).
        assert (Lq : length (fst q) = S k) by (apply Lr, I; now right).
        assert (Kq : dot (fst q) (v1 :: vs) = 0) by (apply K, I; now right).
        destruct q as [qc qb]. unfold eliminate, lead. simpl in *.
        destruct qc as [ | c tc ]; [ discriminate | ]. simpl in *.
        rewrite dot_eliminate by congruence.
        replace (dot tc vs) with (- (c * v1)) by lra.
        replace (dot t vs) with (- (a * v1)) by lra.
        field. exact Hp. }
    constructor; [ | exact Fvs ].
    rewrite (dot_zeros t vs Fvs) in Kp.
    assert (a * v1 = 0) by lra.
    destruct (Rmult_integral _ _ H); [ contradiction | congruence ].
Qed.

Lemma pick_max_largest (r : row) (rest : list row) (p : row) (others : list row) :
  pick_max r rest = (p, others) ->
  forall x, In x (r :: rest) -> Rabs (lead x) <= Rabs (lead p).
Proof.
  revert r p others. induction rest as [ | r' rest IH ]; intros r p others; simpl.
  - intros [= <- <-] x [<- | []]. apply Rle_refl.
  - destruct (Rlt_dec (Rabs (lead r)) (Rabs (lead r'))) as [Hlt | Hge].
    + destruct (pick_max r' rest) as [q os] eqn:E. intros [= <- <-] x Hx.
      pose proof (IH _ _ _ E) as I.
      destruct Hx as [<- | Hx]; [ | now apply I ].
      apply Rle_trans with (Rabs (lead r')); [ lra | ]. apply I. now left.
    + destruct (pick_max r rest) as [q os] eqn:E. intros [= <- <-] x Hx.
      pose proof (IH _ _ _ E) as I.
      destruct Hx as [<- | [<- | Hx]].
      * apply I. now left.
      * apply Rle_trans with (Rabs (lead r)); [ lra | ]. apply I. now left.
      * apply I. now right.
Qed.

Lemma Forall_zero_repeat (k : nat) : Forall (eq 0) (repeat 0 k).
Proof. induction k; simpl; constructor; auto. Qed.

(** A system that [gauss] rejects has a non-zero vector in its kernel. *)
Lemma gauss_none (n : nat) (sys : list row) :
  length sys = n ->
  (forall r, In r sys -> length (fst r) = n) ->
  gauss n sys = None ->
  exists v, length v = n /\ ~ Forall (eq 0) v /\
            forall r, In r sys -> dot (fst r) v = 0.
Proof.
  revert sys. induction n as [ | k IH ]; intros sys Ls Lr; simpl; [ discriminate | ].
  destruct sys as [ | r0 rest ]; [ discriminate | ].
  destruct (pick_max r0 rest) as [p others] eqn:EP.
  destruct (pick_max_In _ _ _ _ EP) as [Lo I].
  pose proof (pick_max_largest _ _ _ _ EP) as Mx.
  destruct (Req_EM_T (lead p) 0) as [Hz | Hp].
  - intros _. exists (1 :: repeat 0 k). split; [ simpl; now rewrite repeat_length | ].
    split.
    + intros F. inversion F; lra.
    + intros r Hr.
      assert (Hl : lead r = 0).
      { specialize (Mx r Hr). rewrite Hz, Rabs_R0 in Mx.
        destruct (Req_dec (lead r) 0) as [ | Hn ]; [ assumption | ].
        apply Rabs_pos_lt in Hn. lra. }
      specialize (Lr r Hr). destruct r as [rc rb]. unfold lead in Hl. simpl in *.
      destruct rc as [ | c tc ]; [ discriminate | ]. simpl in *.
      rewrite (dot_zeros tc _ (Forall_zero_repeat k)). lra.
  - destruct (gauss k (map (eliminate p) others)) as [xs | ] eqn:E; [ discriminate | ].
    intros _.
    assert (Lpc : length (fst p) = S k) by (apply Lr, I; now left).
    destruct (IH (map (eliminate p) others)) as (vs & Lv & Nz & K).
    + rewrite length_map. simpl in Ls. lia.
    + intros q' Hq'. apply in_map_iff in Hq' as (q0 & <- & Hq0).
      apply length_eliminate; [ exact Lpc | ]. apply Lr, I. now right.
    + exact E.
    + destruct p as [pc pb]. unfold lead in *. simpl in *.
      destruct pc as [ | a t ]; [ discriminate | ]. simpl in *.
      exists (- dot t vs / a :: vs). split; [ simpl; congruence | ]. split.
      * intros F. apply Nz. now inversion F.
      * intros r Hr. apply I in Hr as [-> | Hr].
        -- simpl. field. exact Hp.
        -- assert (Lrc : length (fst r) = S k) by (apply Lr, I; now right).
           specialize (K (eliminate (a :: t, pb) r) (in_map _ _ _ Hr)).
           destruct r as [rc rb]. unfold eliminate, lead in K. simpl in *.
           destruct rc as [ | c tc ]; [ discriminate | ]. simpl in *.
           rewrite dot_eliminate in K by congruence.
           replace (dot tc vs) with (c / a * dot t vs) by lra.
           field. exact Hp.
Qed.

End ExactSolver.

(** ** Arrays: entries, shapes, sums *)

Section Arrays.

Local Open Scope R_scope.

Lemma vget_mk_vector (n : nat) (f : nat -> R) (i : nat) :
  (i < n)%nat -> vget (mk_vector n f) i = f i.
Proof.
  intros Hi. unfold vget, mk_vector.
  rewrite (nth_indep _ 0 (f O)) by (rewrite length_map, length_seq; exact Hi).
  rewrite (map_nth f (seq 0 n) O i), seq_nth by exact Hi. reflexivity.
Qed.

Lemma mk_vector_ext (n : nat) (f g : nat -> R) :
  (forall i, (i < n)%nat -> f i = g i) -> mk_vector n f = mk_vector n g.
Proof.
  intros E. unfold mk_vector. apply map_ext_in.
  intros i Hi. apply in_seq in Hi. apply E. lia.
Qed.

Lemma vector_ext (u v : vector) :
  length u = length v ->
  (forall i, (i < length u)%nat -> vget u i = vget v i) -> u = v.
Proof. intros L E. apply (nth_ext _ _ 0 0); assumption. Qed.

Lemma mget_mk_matrix (n m : nat) (f : nat -> nat -> R) (i j : nat) :
  (i < n)%nat -> (j < m)%nat -> mget (mk_matrix n m f) i j = f i j.
Proof.
  intros Hi Hj. unfold mget, mk_matrix. cbn [rows].
  rewrite (nth_indep _ [] (map (f O) (seq 0 m)))
    by (rewrite length_map, length_seq; exact Hi).
  rewrite (map_nth (fun i => map (f i) (seq 0 m)) (seq 0 n) O i), seq_nth by exact Hi.
  apply (vget_mk_vector m (f (0 + i)%nat) j Hj).
Qed.

Lemma wf_mk_matrix (n m : nat) (f : nat -> nat -> R) : wf (mk_matrix n m f).
Proof.
  split; cbn [rows nrows ncols mk_matrix].
  - now rewrite length_map, length_seq.
  - apply Forall_forall. intros r Hr. apply in_map_iff in Hr as (i & <- & _).
    now rewrite length_map, length_seq.
Qed.

Lemma mk_matrix_ext (n m : nat) (f g : nat -> nat -> R) :
  (forall i j, (i < n)%nat -> (j < m)%nat -> f i j = g i j) ->
  mk_matrix n m f = mk_matrix n m g.
Proof.
  intros E. unfold mk_matrix. f_equal. apply map_ext_in.
  intros i Hi. apply in_seq in Hi. apply map_ext_in.
  intros j Hj. apply in_seq in Hj. apply E; lia.
Qed.

Lemma matrix_eta (A : matrix) : wf A -> A = mk_matrix (nrows A) (ncols A) (mget A).
Proof.
  intros [Ln Lc]. destruct A as [n m rs]. cbn [rows nrows ncols] in *.
  unfold mk_matrix. f_equal.
  apply (nth_ext _ _ [] []).
  - now rewrite length_map, length_seq.
  - intros i Hi.
    rewrite (nth_indep (map _ _) [] (map (mget (mkMatrix n m rs) O) (seq 0 m)))
      by (rewrite length_map, length_seq; lia).
    rewrite (map_nth (fun i => map (mget (mkMatrix n m rs) i) (seq 0 m)) (seq 0 n) O i).
    rewrite seq_nth by lia. cbn [Nat.add].
    apply (nth_ext _ _ 0 0).
    + rewrite length_map, length_seq.
      apply (proj1 (Forall_forall _ _) Lc). now apply nth_In.
    + intros j Hj.
      assert (Hjm : (j < m)%nat).
      { rewrite <- (proj1 (Forall_forall _ _) Lc (nth i rs [])); [ exact Hj | ].
        now apply nth_In. }
      symmetry. apply (vget_mk_vector m (mget (mkMatrix n m rs) i) j Hjm).
Qed.

Lemma matrix_ext (A B : matrix) :
  wf A -> wf B -> nrows A = nrows B -> ncols A = ncols B ->
  (forall i j, (i < nrows A)%nat -> (j < ncols A)%nat -> mget A i j = mget B i j) ->
  A = B.
Proof.
  intros WA WB En Em E.
  rewrite (matrix_eta A WA), (matrix_eta B WB), <- En, <- Em.
  now apply mk_matrix_ext.
Qed.

Lemma sum_n_ext (n : nat) (f g : nat -> R) :
  (forall k, (k < n)%nat -> f k = g k) -> sum_n n f = sum_n n g.
Proof.
  induction n as [ | n IH ]; intros E; simpl; [ reflexivity | ].
  rewrite IH, E by auto with arith. reflexivity.
Qed.

Lemma sum_n_zero (n : nat) (f : nat -> R) :
  (forall k, (k < n)%nat -> f k = 0) -> sum_n n f = 0.
Proof.
  induction n as [ | n IH ]; intros E; simpl; [ reflexivity | ].
  rewrite IH, E by auto with arith. ring.
Qed.

Lemma sum_n_plus (n : nat) (f g : nat -> R) :
  sum_n n (fun k => f k + g k) = sum_n n f + sum_n n g.
Proof. induction n as [ | n IH ]; simpl; [ ring | rewrite IH; ring ]. Qed.

Lemma sum_n_scal (n : nat) (c : R) (f : nat -> R) :
  sum_n n (fun k => c * f k) = c * sum_n n f.
Proof. induction n as [ | n IH ]; simpl; [ ring | rewrite IH; ring ]. Qed.

Lemma sum_n_shift (n : nat) (f : nat -> R) :
  sum_n (S n) f = f O + sum_n n (fun k => f (S k)).
Proof.
  induction n as [ | n IH ]; [ simpl; ring | ].
  change (sum_n (S (S n)) f) with (sum_n (S n) f + f (S n)).
  rewrite IH. simpl. ring.
Qed.

Lemma sum_n_swap (n m : nat) (f : nat -> nat -> R) :
  sum_n n (fun i => sum_n m (fun j => f i j)) =
  sum_n m (fun j => sum_n n (fun i => f i j)).
Proof.
  induction n as [ | n IH ]; simpl.
  - symmetry. now apply sum_n_zero.
  - rewrite IH, <- sum_n_plus. reflexivity.
Qed.

(** Only the diagonal term of a sum against [np.eye] remains. *)
Lemma sum_n_delta (n i : nat) (f : nat -> R) :
  (i < n)%nat ->
  sum_n n (fun k => (if Nat.eqb i k then 1 else 0) * f k) = f i.
Proof.
  induction n as [ | n IH ]; intros Hi; [ lia | ]. simpl.
  destruct (Nat.eqb_spec i n) as [-> | Hne].
  - rewrite sum_n_zero; [ ring | ].
    intros k Hk. destruct (Nat.eqb_spec n k); [ lia | ring ].
  - rewrite IH by lia. ring.
Qed.

Lemma dot_sum_n (u v : list R) :
  length u = length v ->
  exact.dot u v = sum_n (length u) (fun k => nth k u 0 * nth k v 0).
Proof.
  revert v. induction u as [ | a u IH ]; intros [ | b v ] L; try discriminate.
  - reflexivity.
  - injection L as L. cbn [length exact.dot].
    rewrite sum_n_shift. cbn [nth]. now rewrite IH.
Qed.

Lemma zeros_Forall (v : vector) : Forall (eq 0) v -> v = zeros (length v).
Proof.
  intros F. apply vector_ext.
  - unfold zeros. now rewrite length_mk_vector.
  - intros i Hi. unfold zeros. rewrite vget_mk_vector by exact Hi.
    symmetry. apply (proj1 (Forall_forall _ _) F). now apply nth_In.
Qed.

Lemma wf_row_length (A : matrix) (i : nat) :
  wf A -> (i < nrows A)%nat -> length (nth i (rows A) []) = ncols A.
Proof.
  intros [Ln Lc] Hi. apply (proj1 (Forall_forall _ _) Lc).
  apply nth_In. now rewrite Ln.
Qed.

End Arrays.

Section ExactContract.

Local Open Scope R_scope.

Lemma exact_solve_inv (A : matrix) (b x : vector) :
  exact.solve A b = Ok x ->
  nrows A = ncols A /\ length b = nrows A /\
  exact.gauss (nrows A) (combine (rows A) b) = Some x.
Proof.
  unfold exact.solve.
  destruct (Nat.eqb_spec (nrows A) (ncols A)); cbn [negb]; [ | discriminate ].
  destruct (Nat.eqb_spec (length b) (nrows A)); cbn [negb]; [ | discriminate ].
  destruct (exact.gauss _ _) as [y | ]; [ | discriminate ].
  intros [= <-]. auto.
Qed.

Lemma system_rows (A : matrix) (b : vector) :
  wf A -> nrows A = ncols A -> length b = nrows A ->
  length (combine (rows A) b) = nrows A /\
  (forall r, In r (combine (rows A) b) -> length (fst r) = nrows A) /\
  (forall i, (i < nrows A)%nat ->
             In (nth i (rows A) [], nth i b 0) (combine (rows A) b)).
Proof.
  intros [Ln Lc] Sq Lb. repeat split.
  - rewrite length_combine. lia.
  - intros [c y] Hr. apply in_combine_l in Hr. cbn [fst].
    rewrite Sq. apply (proj1 (Forall_forall _ _) Lc _ Hr).
  - intros i Hi. rewrite <- combine_nth by congruence.
    apply nth_In. rewrite length_combine. lia.
Qed.

Lemma exact_solve_shape : solve_shape exact.solve.
Proof.
  intros A b x E. apply exact_solve_inv in E as (_ & Lb & E).
  apply length_gauss in E. congruence.
Qed.

Lemma exact_solve_sound : solve_sound exact.solve.
Proof.
  intros A b x W E. apply exact_solve_inv in E as (Sq & Lb & E).
  destruct (system_rows A b W Sq Lb) as (Ls & Lr & I).
  pose proof (length_gauss _ _ _ E) as Lx.
  unfold matvec. rewrite <- Sq, Lx, Nat.eqb_refl. f_equal.
  apply vector_ext.
  - rewrite length_mk_vector. congruence.
  - intros i Hi. rewrite length_mk_vector in Hi.
    rewrite vget_mk_vector by exact Hi.
    pose proof (gauss_sound _ _ _ Ls Lr E _ (I i Hi)) as D. cbn [fst snd] in D.
    rewrite dot_sum_n in D by (rewrite (wf_row_length A i W Hi); congruence).
    rewrite (wf_row_length A i W Hi), <- Sq in D. exact D.
Qed.

Lemma exact_solve_raises_singular : solve_raises_singular exact.solve.
Proof.
  intros A b W Sq Lb (v & Lv & Nz & K).
  unfold exact.solve.
  rewrite Sq, Nat.eqb_refl. cbn [negb].
  rewrite Lb, Sq, Nat.eqb_refl. cbn [negb].
  rewrite <- Sq.
  destruct (exact.gauss (nrows A) (combine (rows A) b)) as [x | ] eqn:E;
    [ exfalso | reflexivity ].
  destruct (system_rows A b W Sq Lb) as (Ls & Lr & I).
  apply Nz. rewrite <- Lv. apply zeros_Forall.
  apply (gauss_kernel _ _ _ Ls Lr E); [ congruence | ].
  intros r Hr.
  destruct (In_nth _ _ ([], 0) Hr) as (i & Hi & <-).
  rewrite Ls in Hi.
  rewrite combine_nth by (destruct W; congruence). cbn [fst].
  unfold matvec in K. rewrite Lv, Nat.eqb_refl in K. injection K as K.
  assert (Ki : vget (mk_vector (nrows A)
                 (fun i => sum_n (ncols A) (fun k => mget A i k * vget v k))) i
               = vget (zeros (nrows A)) i) by now rewrite K.
  unfold zeros in Ki. rewrite !vget_mk_vector in Ki by exact Hi.
  rewrite dot_sum_n by (rewrite (wf_row_length A i W Hi); congruence).
  rewrite (wf_row_length A i W Hi). exact Ki.
Qed.

Lemma exact_solve_complete : solve_complete exact.solve.
Proof.
  intros A b W Sq Lb Ns.
  unfold exact.solve.
  rewrite Sq, Nat.eqb_refl. cbn [negb].
  rewrite Lb, Sq, Nat.eqb_refl. cbn [negb].
  rewrite <- Sq.
  destruct (exact.gauss (nrows A) (combine (rows A) b)) as [x | ] eqn:E;
    [ now exists x | exfalso ].
  destruct (system_rows A b W Sq Lb) as (Ls & Lr & I).
  destruct (gauss_none _ _ Ls Lr E) as (v & Lv & Nz & K).
  apply Ns. exists v. split; [ congruence | ]. split.
  - intros Ez. apply Nz. rewrite Ez. unfold zeros, mk_vector.
    apply Forall_forall. intros y Hy. apply in_map_iff in Hy as (i & <- & _).
    reflexivity.
  - unfold matvec. rewrite <- Sq, Lv, Nat.eqb_refl. f_equal. unfold zeros.
    apply mk_vector_ext. intros i Hi.
    specialize (K _ (I i Hi)). cbn [fst] in K.
    rewrite dot_sum_n in K by (rewrite (wf_row_length A i W Hi); congruence).
    rewrite (wf_row_length A i W Hi), <- Sq in K. exact K.
Qed.

End ExactContract.

(** * The Gauss-Newton solver *)

Section SetNiter.

Variable linalg_solve : matrix -> vector -> result vector.
Variable self : GaussNewton.

Lemma passes_set_niter (n : Z) (k : nat) :
  passes linalg_solve (set_niter self n) k = passes linalg_solve self k.
Proof. reflexivity. Qed.

Lemma outcome_call_set_niter (n : Z) :
  outcome (__call__ linalg_solve (set_niter self n)) =
  rmap (fun m => {| cofi.model := m; cofi.success := true |})
       (outcome (passes linalg_solve self (Z.to_nat n))).
Proof. rewrite outcome_call_passes. reflexivity. Qed.

Lemma call_ok_inv (res : cofi.solver_result) :
  outcome (__call__ linalg_solve self) = Ok res ->
  outcome (passes linalg_solve self (Z.to_nat (_niter self))) = Ok (cofi.model res) /\
  cofi.success res = true.
Proof.
  rewrite outcome_call_passes.
  destruct (outcome (passes _ _ _)) as [m | e]; cbn; [ | discriminate ].
  intros [= <-]. auto.
Qed.

(** A run that returns under some reporting options returns the same
    model without any report. *)
Lemma outcome_passes_quiet (v : bool) (misfit reg : option (vector -> result R))
    (k : nat) (m : vector) :
  outcome (passes linalg_solve (set_reporting self v misfit reg) k) = Ok m ->
  outcome (passes linalg_solve (set_reporting self false None None) k) = Ok m.
Proof.
  revert m. induction k as [ | k IH ]; intros m; [ exact (fun E => E) | ].
  rewrite !outcome_passes_succ.
  destruct (outcome (passes linalg_solve (set_reporting self v misfit reg) k))
    as [m2 | e]; cbn [rbind]; [ | discriminate ].
  rewrite (IH m2 eq_refl). cbn [rbind]. intros E.
  apply loop_body_ok_manual in E.
  rewrite outcome_loop_body_manual by (left; reflexivity). exact E.
Qed.

End SetNiter.

(** C1.  With a positive iteration count, the invocation returns exactly
    when [niter] update steps in a row succeed from the initial model, each
    step evaluating the Hessian [H] and the gradient [g] at the current
    model, solving [H delta = - g] and adding [delta]; the returned model is
    the one after the last step, the success flag is [true], and the run
    performed [niter] Hessian calls, gradient calls and linear solves. *)
Theorem call_performs_niter_update_steps
    (linalg_solve : matrix -> vector -> result vector) (self : GaussNewton) :
  (0 < _niter self)%Z ->
  solve_sound linalg_solve ->
  hessian_wf self ->
  _verbose self = false \/ reporters_total self ->
  (forall res,
      outcome (__call__ linalg_solve self) = Ok res <->
      steps linalg_solve self (Z.to_nat (_niter self)) (_model_0 self) (cofi.model res) /\
      cofi.success res = true) /\
  (forall res,
      outcome (__call__ linalg_solve self) = Ok res ->
      Z.of_nat (count is_solve (trace (__call__ linalg_solve self))) = _niter self /\
      Z.of_nat (count (is_call Hessian) (trace (__call__ linalg_solve self))) = _niter self /\
      Z.of_nat (count (is_call Gradient) (trace (__call__ linalg_solve self))) = _niter self).
Proof.
  intros Hn Hs Hw Hr. split.
  - intros res. rewrite <- (outcome_passes_steps linalg_solve self Hr _ _ Hs Hw). split.
    + apply call_ok_inv.
    + intros [E S]. rewrite outcome_call_passes, E. destruct res as [m s].
      cbn in *. now subst s.
  - intros res E. apply call_ok_inv in E as [E _].
    rewrite trace_call_passes.
    destruct (count_passes linalg_solve self _ _ E) as (C1 & C2 & C3).
    rewrite C1, C2, C3. lia.
Qed.

(** The quadratic bowl, three iterations, the reference solver. *)
Lemma call_performs_niter_update_steps_witness :
  (forall res,
      outcome (__call__ exact.solve example.bowl) = Ok res <->
      steps exact.solve example.bowl 3 [0; 0]%R (cofi.model res) /\
      cofi.success res = true) /\
  (forall res,
      outcome (__call__ exact.solve example.bowl) = Ok res ->
      Z.of_nat (count is_solve (trace (__call__ exact.solve example.bowl))) = 3%Z /\
      Z.of_nat (count (is_call Hessian) (trace (__call__ exact.solve example.bowl))) = 3%Z /\
      Z.of_nat (count (is_call Gradient) (trace (__call__ exact.solve example.bowl))) = 3%Z).
Proof.
  apply (call_performs_niter_update_steps exact.solve example.bowl).
  - reflexivity.
  - exact exact_solve_sound.
  - intros m H [= <-]. split; [ reflexivity | repeat constructor ].
  - right. split; intros g [= <-] m; eexists; reflexivity.
Defined.

(** C2, amended.  The solver has no check of the Hessian of its own: at a
    singular Hessian it does what [np.linalg.solve] does there.  Let the
    first [k] passes succeed and leave the model [m], with [k] less than
    the iteration count, and let the Hessian and the gradient at [m] be [H]
    and [g].  If the linear solve of [H delta = - g] raises an error, the
    invocation raises that error instead of returning a result: the run
    stops at the failed solve of pass [k], and nothing is evaluated
    afterwards.  If the linear solve returns an update, at a singular [H]
    as at any other, the run of [k + 1] iterations returns the updated
    model with the success flag set. *)
Theorem call_raises_when_solve_raises
    (linalg_solve : matrix -> vector -> result vector) (self : GaussNewton)
    (k : Z) (m : vector) (H : matrix) (g : vector) :
  (0 <= k < _niter self)%Z ->
  outcome (__call__ linalg_solve (set_niter self k)) =
    Ok {| cofi.model := m; cofi.success := true |} ->
  _hessian self m = Ok H ->
  _gradient self m = Ok g ->
  (forall e,
      linalg_solve H (negative g) = Raise e ->
      outcome (__call__ linalg_solve self) = Raise e /\
      trace (__call__ linalg_solve self) =
        trace (__call__ linalg_solve (set_niter self k)) ++
        [EvCall Hessian m; EvCall Gradient m; EvSolve H (negative g)]) /\
  (forall delta m',
      linalg_solve H (negative g) = Ok delta ->
      add m delta = Ok m' ->
      _verbose self = false \/ reporters_total self ->
      outcome (__call__ linalg_solve (set_niter self (k + 1))) =
        Ok {| cofi.model := m'; cofi.success := true |}).
Proof.
  intros Hk Ek EH EG.
  rewrite outcome_call_set_niter in Ek.
  assert (Ek' : outcome (passes linalg_solve self (Z.to_nat k)) = Ok m).
  { destruct (outcome (passes _ _ _)) as [m' | e]; cbn in Ek; congruence. }
  clear Ek. split.
  - intros e ES.
    assert (P : passes linalg_solve self (S (Z.to_nat k)) =
                (trace (passes linalg_solve self (Z.to_nat k)) ++
                 [EvCall Hessian m; EvCall Gradient m; EvSolve H (negative g)],
                 Raise e)).
    { apply io_ext.
      - rewrite trace_passes_succ, Ek'. cbn [trace fst]. f_equal.
        unfold loop_body.
        rewrite trace_bind, trace_call, outcome_call, EH.
        rewrite trace_bind, trace_call, outcome_call, EG.
        rewrite trace_bind, trace_solve, outcome_solve, ES. reflexivity.
      - rewrite outcome_passes_succ, Ek'. cbn [rbind outcome snd].
        rewrite outcome_loop_body. unfold manual_step.
        rewrite EH. cbn [rbind]. rewrite EG. cbn [rbind]. now rewrite ES. }
    assert (Q : passes linalg_solve self (Z.to_nat (_niter self)) =
                passes linalg_solve self (S (Z.to_nat k))).
    { replace (Z.to_nat (_niter self))
        with ((Z.to_nat (_niter self) - S (Z.to_nat k)) + S (Z.to_nat k))%nat by lia.
      apply passes_raise with (e := e). now rewrite P. }
    split.
    + rewrite outcome_call_passes, Q, P. reflexivity.
    + rewrite !trace_call_passes, Q, P. reflexivity.
  - intros delta m' ES Ea Hr.
    rewrite outcome_call_set_niter.
    replace (Z.to_nat (k + 1)) with (S (Z.to_nat k)) by lia.
    rewrite outcome_passes_succ, Ek'. cbn [rbind].
    rewrite outcome_loop_body_manual by exact Hr.
    unfold manual_step. rewrite EH. cbn [rbind]. rewrite EG. cbn [rbind].
    rewrite ES. cbn [rbind]. rewrite Ea. reflexivity.
Qed.

(** *** The singular Hessian that binary64 does not detect *)

Section Binary64.

Local Open Scope R_scope.

Lemma as_Z_IZR (z : Z) : (Z.abs z <= 2 ^ 53)%Z -> lapack.as_Z (IZR z) = Some z.
Proof.
  intros B. unfold lapack.as_Z. rewrite ZfloorZ.
  destruct (Req_EM_T (IZR z) (IZR z)) as [_ | N]; [ | now destruct N ].
  apply Z.leb_le in B. now rewrite B.
Qed.

Lemma whole_IZR (zs : list Z) :
  Forall (fun z => (Z.abs z <= 2 ^ 53)%Z) zs -> lapack.whole (map IZR zs) = Some zs.
Proof.
  induction 1 as [ | z zs B _ IH ]; [ reflexivity | ].
  cbn [map lapack.whole]. now rewrite as_Z_IZR, IH.
Qed.

Lemma whole_rows_IZR (zss : list (list Z)) :
  Forall (Forall (fun z => (Z.abs z <= 2 ^ 53)%Z)) zss ->
  lapack.whole_rows (map (map IZR) zss) = Some zss.
Proof.
  induction 1 as [ | zs zss B _ IH ]; [ reflexivity | ].
  cbn [map lapack.whole_rows]. now rewrite whole_IZR, IH.
Qed.

Lemma to_R_zero : lapack.to_R PrimFloat.zero = 0.
Proof. reflexivity. Qed.

Lemma to_R_one : lapack.to_R PrimFloat.one = 1.
Proof.
  unfold lapack.to_R.
  replace (FloatOps.Prim2SF PrimFloat.one)
    with (SpecFloat.S754_finite false 4503599627370496 (-52))
    by (vm_compute; reflexivity).
  change (lapack.bpow (-52)) with (/ IZR (2 ^ 52)).
  replace (2 ^ 52)%Z with 4503599627370496%Z by reflexivity.
  field.
Qed.

Lemma to_R_two : lapack.to_R PrimFloat.two = 2.
Proof.
  unfold lapack.to_R.
  replace (FloatOps.Prim2SF PrimFloat.two)
    with (SpecFloat.S754_finite false 4503599627370496 (-51))
    by (vm_compute; reflexivity).
  change (lapack.bpow (-51)) with (/ IZR (2 ^ 51)).
  replace (2 ^ 51)%Z with 2251799813685248%Z by reflexivity.
  field.
Qed.

(** On the Hessian of the bowl the elimination in binary64 is exact. *)
Lemma lapack_solve_bowl :
  lapack.solve (mkMatrix 2 2 [[2; 0]; [0; 2]]) (negative [2 * (0 - 1); 2 * (0 - 2)]) =
  Ok [1; 2].
Proof.
  replace (negative [2 * (0 - 1); 2 * (0 - 2)]) with (map IZR [2; 4]%Z)
    by (unfold negative; cbn [map]; arrays_eq; lra).
  unfold lapack.solve. cbn [nrows ncols rows Nat.eqb negb length map].
  change [[2; 0]; [0; 2]] with (map (map IZR) [[2; 0]; [0; 2]]%Z).
  change [IZR 2; IZR 4] with (map IZR [2; 4]%Z).
  rewrite whole_rows_IZR, whole_IZR
    by (repeat constructor; apply Z.leb_le; reflexivity).
  replace (lapack.gesv (map (map lapack.of_Z) [[2; 0]; [0; 2]]%Z)
             (map lapack.of_Z [2; 4]%Z))
    with (Some [PrimFloat.one; PrimFloat.two]) by (vm_compute; reflexivity).
  cbn [map]. now rewrite to_R_one, to_R_two.
Qed.

(** The elimination in binary64 meets no zero pivot on the Hessian of the
    example: its pivots are 7, about 2/7 and [27 * 2^-55], where the last
    exact one is 0. *)
Lemma gram_getrf :
  option_map (map lapack.lead)
    (lapack.getrf 3
       (combine (map (map lapack.of_Z) [[5; 3; 7]; [3; 2; 4]; [7; 4; 10]]%Z)
          (map lapack.of_Z [7; 4; 10]%Z))) =
  Some [lapack.of_Z 7;
        FloatOps.Z.ldexp (lapack.of_Z 5146971002709140) (-54);
        FloatOps.Z.ldexp (lapack.of_Z 27) (-55)].
Proof. vm_compute. reflexivity. Qed.

Lemma gram_gesv :
  lapack.gesv (map (map lapack.of_Z) [[5; 3; 7]; [3; 2; 4]; [7; 4; 10]]%Z)
    (map lapack.of_Z [7; 4; 10]%Z) =
  Some [PrimFloat.zero; PrimFloat.zero; PrimFloat.one].
Proof. vm_compute. reflexivity. Qed.

(** The update that the reference elimination returns.  The system has
    infinitely many solutions, and an elimination that rounds in another
    order, or with fused multiply-add, returns another of them. *)
Lemma lapack_solve_gram :
  lapack.solve example.gram_matrix (negative [-7; -4; -10]) = Ok [0; 0; 1].
Proof.
  replace (negative [-7; -4; -10]) with (map IZR [7; 4; 10]%Z)
    by (unfold negative; cbn [map]; arrays_eq; lra).
  unfold lapack.solve, example.gram_matrix. cbn [nrows ncols rows Nat.eqb negb length map].
  change [[5; 3; 7]; [3; 2; 4]; [7; 4; 10]]
    with (map (map IZR) [[5; 3; 7]; [3; 2; 4]; [7; 4; 10]]%Z).
  change [IZR 7; IZR 4; IZR 10] with (map IZR [7; 4; 10]%Z).
  rewrite whole_rows_IZR, whole_IZR
    by (repeat constructor; apply Z.leb_le; reflexivity).
  rewrite gram_gesv. cbn [map]. now rewrite to_R_zero, to_R_one.
Qed.

Lemma gram_singular : singular example.gram_matrix.
Proof.
  exists [-2; 1; 1]. split; [ reflexivity | ]. split.
  - intros E. injection E as E _. lra.
  - unfold matvec, zeros, mk_vector, vget, mget. simpl.
    f_equal. f_equal; [ | f_equal; [ | f_equal ] ]; ring.
Qed.

End Binary64.

(** The flat valley, where the exact elimination raises at the initial
    model, and the first pass on the bowl with the elimination in
    binary64, where the solve returns. *)
Lemma call_raises_when_solve_raises_witness :
  (outcome (__call__ exact.solve example.valley) = Raise (LinAlgError "Singular matrix") /\
   trace (__call__ exact.solve example.valley) =
     trace (__call__ exact.solve (set_niter example.valley 0)) ++
     [EvCall Hessian [0; 0]%R; EvCall Gradient [0; 0]%R;
      EvSolve example.valley_matrix
        (negative [2 * (0 + 2 * 0 - 1); 4 * (0 + 2 * 0 - 1)]%R)]) /\
  outcome (__call__ lapack.solve (set_niter example.bowl (0 + 1))) =
    Ok {| cofi.model := [1; 2]%R; cofi.success := true |}.
Proof.
  split.
  - apply (proj1 (call_raises_when_solve_raises exact.solve example.valley 0 [0; 0]%R
                    example.valley_matrix [2 * (0 + 2 * 0 - 1); 4 * (0 + 2 * 0 - 1)]%R
                    ltac:(simpl; lia) eq_refl eq_refl eq_refl)).
    apply exact_solve_raises_singular.
    + split; [ reflexivity | repeat constructor ].
    + reflexivity.
    + reflexivity.
    + exists [2; -1]%R. split; [ reflexivity | ]. split.
      * intros E. injection E as E _. lra.
      * unfold matvec, zeros, mk_vector, vget, mget. simpl.
        f_equal. f_equal; [ | f_equal ]; ring.
  - apply (proj2 (call_raises_when_solve_raises lapack.solve example.bowl 0 [0; 0]%R
                    (mkMatrix 2 2 [[2; 0]; [0; 2]]%R) [2 * (0 - 1); 2 * (0 - 2)]%R
                    ltac:(simpl; lia) eq_refl eq_refl eq_refl) [1; 2]%R).
    + exact lapack_solve_bowl.
    + cbn. arrays_eq; ring.
    + right. split; intros g [= <-] m; eexists; reflexivity.
Defined.

(** C2, as stated, fails.  The Hessian [((5, 3, 7), (3, 2, 4), (7, 4, 10))]
    is square and singular, and the exact elimination raises on it.  In
    binary64 the last pivot of the elimination is [27 * 2^-55] and not 0,
    so LAPACK reports no singular matrix, [np.linalg.solve] returns an
    update, and the invocation returns a model with the success flag set,
    without any error. *)
Lemma singular_hessian_is_not_detected :
  wf example.gram_matrix /\
  nrows example.gram_matrix = ncols example.gram_matrix /\
  singular example.gram_matrix /\
  _hessian example.underdetermined (_model_0 example.underdetermined) =
    Ok example.gram_matrix /\
  exact.solve example.gram_matrix (negative [-7; -4; -10]%R) =
    Raise (LinAlgError "Singular matrix") /\
  exists res,
    outcome (__call__ lapack.solve example.underdetermined) = Ok res /\
    cofi.success res = true.
Proof.
  assert (W : wf example.gram_matrix)
    by (split; [ reflexivity | repeat constructor ]).
  split; [ exact W | ]. split; [ reflexivity | ].
  split; [ exact gram_singular | ]. split; [ reflexivity | ]. split.
  - apply exact_solve_raises_singular;
      [ exact W | reflexivity | reflexivity | exact gram_singular ].
  - exists {| cofi.model := [0; 0; 1]%R; cofi.success := true |}.
    split; [ | reflexivity ].
    rewrite outcome_call_passes. cbn [_niter example.underdetermined].
    change (Z.to_nat 1) with 1%nat.
    rewrite outcome_passes_succ. unfold passes.
    cbn [range Z.of_nat Z.to_nat seq map for_each ret outcome snd rbind].
    rewrite outcome_loop_body_manual by (left; reflexivity).
    unfold manual_step.
    cbn [_hessian _gradient _model_0 example.underdetermined example.gram_hessian
           example.gram_gradient array rbind].
    rewrite lapack_solve_gram. cbn. arrays_eq; ring.
Qed.

(** C7.  When the initial model has length [M], the gradient callable
    returns vectors of length [M] and the Hessian callable returns [M] by [M]
    matrices at models of length [M], the model has length [M] after every
    number of passes, and every model handed to a callable or to the linear
    solver during the run has length [M]. *)
Theorem model_length_never_changes
    (linalg_solve : matrix -> vector -> result vector) (self : GaussNewton) (M : nat) :
  solve_shape linalg_solve ->
  length (_model_0 self) = M ->
  (forall m g, length m = M -> _gradient self m = Ok g -> length g = M) ->
  (forall m H, length m = M -> _hessian self m = Ok H ->
               wf H /\ nrows H = M /\ ncols H = M) ->
  (forall k res,
      outcome (__call__ linalg_solve (set_niter self k)) = Ok res ->
      length (cofi.model res) = M) /\
  Forall (event_length M) (trace (__call__ linalg_solve self)).
Proof.
  intros Hs L0 Lg _. split.
  - intros k res E. apply call_ok_inv in E as [E _].
    apply (length_passes linalg_solve self M Hs Lg L0 _ _ E).
  - rewrite trace_call_passes. now apply lengths_passes.
Qed.

(** The quadratic bowl has two cells. *)
Lemma model_length_never_changes_witness :
  (forall k res,
      outcome (__call__ exact.solve (set_niter example.bowl k)) = Ok res ->
      length (cofi.model res) = 2%nat) /\
  Forall (event_length 2) (trace (__call__ exact.solve example.bowl)).
Proof.
  apply (model_length_never_changes exact.solve example.bowl 2).
  - exact exact_solve_shape.
  - reflexivity.
  - intros m g _ [= <-]. reflexivity.
  - intros m H _ [= <-]. split; [ | split; reflexivity ].
    split; [ reflexivity | repeat constructor ].
Defined.

(** C8.  Running [k + 1] iterations yields the model that running [k]
    iterations and then applying one update by hand yields (and raises
    whenever either of these raises), for a solver that is quiet or whose
    reporting callables return. *)
Theorem one_more_iteration_is_one_manual_step
    (linalg_solve : matrix -> vector -> result vector) (self : GaussNewton) (k : Z) :
  (0 <= k)%Z ->
  _verbose self = false \/ reporters_total self ->
  rmap cofi.model (outcome (__call__ linalg_solve (set_niter self (k + 1)))) =
  rbind (rmap cofi.model (outcome (__call__ linalg_solve (set_niter self k))))
        (manual_step linalg_solve self).
Proof.
  intros Hk Hr. rewrite !outcome_call_set_niter.
  replace (Z.to_nat (k + 1)) with (S (Z.to_nat k)) by lia.
  rewrite outcome_passes_succ.
  destruct (outcome (passes linalg_solve self (Z.to_nat k))) as [m | e];
    cbn [rbind rmap cofi.model]; [ | reflexivity ].
  rewrite outcome_loop_body_manual by exact Hr.
  destruct (manual_step linalg_solve self m); reflexivity.
Qed.

(** Three iterations on the bowl are two iterations and one update. *)
Lemma one_more_iteration_is_one_manual_step_witness :
  rmap cofi.model (outcome (__call__ exact.solve (set_niter example.bowl (2 + 1)))) =
  rbind (rmap cofi.model (outcome (__call__ exact.solve (set_niter example.bowl 2))))
        (manual_step exact.solve example.bowl).
Proof.
  apply (one_more_iteration_is_one_manual_step exact.solve example.bowl 2).
  - lia.
  - right. split; intros g [= <-] m; eexists; reflexivity.
Defined.

(** C9.  With an iteration count of 0 the invocation returns the initial
    model and performs no event at all: no gradient or Hessian evaluation,
    no solve, no print.  Hence continuing a finished run for 0 more
    iterations returns the same result. *)
Theorem zero_iterations_return_initial_model
    (linalg_solve : matrix -> vector -> result vector) (self : GaussNewton) :
  __call__ linalg_solve (set_niter self 0) =
    ([], Ok {| cofi.model := _model_0 self; cofi.success := true |}) /\
  (forall res,
      outcome (__call__ linalg_solve self) = Ok res ->
      __call__ linalg_solve (set_niter (set_model_0 self (cofi.model res)) 0) =
        ([], Ok res)).
Proof.
  split; [ reflexivity | ].
  intros res E. apply call_ok_inv in E as [_ E].
  destruct res as [m s]. cbn in E. subst s. reflexivity.
Qed.

(** The bowl with no iteration. *)
Lemma zero_iterations_return_initial_model_witness :
  __call__ exact.solve (set_niter example.bowl 0) =
    ([], Ok {| cofi.model := [0; 0]%R; cofi.success := true |}) /\
  (forall res,
      outcome (__call__ exact.solve example.bowl) = Ok res ->
      __call__ exact.solve (set_niter (set_model_0 example.bowl (cofi.model res)) 0) =
        ([], Ok res)).
Proof.
  exact (zero_iterations_return_initial_model exact.solve example.bowl).
Defined.

(** C10.  Whatever the verbose flag and the optional reporting callables,
    two invocations that return on the same problem return the same model
    and success flag; when the reporting callables return a number at every
    model, the two invocations have the same outcome, raised errors
    included, and perform the same Hessian calls, gradient calls and linear
    solves: the reports only add calls of the reporters and prints. *)
Theorem reporting_does_not_change_result
    (linalg_solve : matrix -> vector -> result vector) (self : GaussNewton)
    (v : bool) (misfit reg : option (vector -> result R)) :
  (forall res res',
      outcome (__call__ linalg_solve self) = Ok res ->
      outcome (__call__ linalg_solve (set_reporting self v misfit reg)) = Ok res' ->
      res = res') /\
  (_verbose self = false \/ reporters_total self ->
   v = false \/ (total misfit /\ total reg) ->
   outcome (__call__ linalg_solve (set_reporting self v misfit reg)) =
     outcome (__call__ linalg_solve self) /\
   filter is_update (trace (__call__ linalg_solve (set_reporting self v misfit reg))) =
     filter is_update (trace (__call__ linalg_solve self))).
Proof.
  split.
  - intros res res' E E'.
    apply call_ok_inv in E as [E S], E' as [E' S'].
    pose proof (outcome_passes_quiet linalg_solve self (_verbose self) (_misfit self)
                  (_reg self) _ _ E) as Q.
    pose proof (outcome_passes_quiet linalg_solve self v misfit reg _ _ E') as Q'.
    cbn in Q'. rewrite Q in Q'. injection Q' as Q'.
    destruct res, res'. cbn in *. congruence.
  - intros Hr Hv.
    rewrite !outcome_call_passes, !trace_call_passes.
    cbn [_niter set_reporting].
    rewrite (outcome_passes_agree linalg_solve self (set_reporting self v misfit reg)),
      (updates_passes_agree linalg_solve self (set_reporting self v misfit reg));
      auto.
Qed.

(** The bowl, verbose with a misfit reporter, against the bowl kept quiet. *)
Lemma reporting_does_not_change_result_witness :
  outcome (__call__ exact.solve (set_reporting example.bowl false None None)) =
    outcome (__call__ exact.solve example.bowl) /\
  filter is_update (trace (__call__ exact.solve (set_reporting example.bowl false None None))) =
    filter is_update (trace (__call__ exact.solve example.bowl)).
Proof.
  apply (reporting_does_not_change_result exact.solve example.bowl false None None).
  - right. split; intros g [= <-] m; eexists; reflexivity.
  - left. reflexivity.
Defined.

(** * Jacobian, gradient and Hessian *)

(** ** Elementwise operations and broadcasting *)

Section Elementwise.

Local Open Scope R_scope.

Lemma vget_map (f : R -> R) (v : vector) (i : nat) :
  (i < length v)%nat -> vget (map f v) i = f (vget v i).
Proof.
  intros Hi. unfold vget.
  rewrite (nth_indep _ 0 (f 0)) by (now rewrite length_map).
  apply map_nth.
Qed.

Lemma vget_scale (c : R) (v : vector) (i : nat) : vget (scale c v) i = c * vget v i.
Proof.
  unfold vget, scale. replace 0 with (c * 0) at 1 by ring. apply map_nth.
Qed.

Lemma vget_negative (v : vector) (i : nat) : vget (negative v) i = - vget v i.
Proof.
  unfold vget, negative. replace 0 with (- 0) at 1 by ring. apply map_nth.
Qed.

Lemma mget_mscale (c : R) (A : matrix) (i j : nat) :
  mget (mscale c A) i j = c * mget A i j.
Proof.
  unfold mget, mscale. cbn [rows].
  change (@nil R) with (map (Rmult c) []) at 1. rewrite map_nth.
  replace 0 with (c * 0) at 1 by ring. apply map_nth.
Qed.

Lemma mexp_mk_matrix (n m : nat) (f : nat -> nat -> R) :
  mexp (mk_matrix n m f) = mk_matrix n m (fun i j => Rtrigo_def.exp (f i j)).
Proof.
  unfold mexp, mk_matrix. cbn [nrows ncols rows]. f_equal.
  rewrite map_map. apply map_ext. intros i. now rewrite map_map.
Qed.

Lemma bdim_one_r (n : nat) : bdim n 1 = Some n.
Proof.
  unfold bdim. destruct (Nat.eqb_spec n 1) as [-> | ]; reflexivity.
Qed.

Lemma bmget_in_range (A : matrix) (i j : nat) :
  (i < nrows A)%nat -> (j < ncols A)%nat -> bmget A i j = mget A i j.
Proof.
  intros Hi Hj. unfold bmget.
  destruct (Nat.eqb_spec (nrows A) 1), (Nat.eqb_spec (ncols A) 1);
    f_equal; lia.
Qed.

Lemma bmget_column (A : matrix) (i j : nat) :
  ncols A = 1%nat -> (i < nrows A)%nat -> bmget A i j = mget A i 0.
Proof.
  intros Hc Hi. unfold bmget. rewrite Hc. cbn [Nat.eqb].
  destruct (Nat.eqb_spec (nrows A) 1); f_equal; lia.
Qed.

Lemma bmget_row (A : matrix) (i j : nat) :
  nrows A = 1%nat -> (j < ncols A)%nat -> bmget A i j = mget A 0 j.
Proof.
  intros Hr Hj. unfold bmget. rewrite Hr. cbn [Nat.eqb].
  destruct (Nat.eqb_spec (ncols A) 1); f_equal; lia.
Qed.

Lemma bvget_in_range (v : vector) (i : nat) :
  (i < length v)%nat -> bvget v i = vget v i.
Proof.
  intros Hi. unfold bvget. destruct (Nat.eqb_spec (length v) 1); f_equal; lia.
Qed.

(** A matrix divided by [exp] of a column and multiplied by a row: the
    expression of both [get_jacobian]s. *)
Lemma rescale_entries (J : matrix) (r s : vector) :
  nrows J = length r -> ncols J = length s ->
  rbind (mdivide J (mexp (newaxis_col r)))
        (fun q => mmultiply q (newaxis_row s)) =
  Ok (mk_matrix (nrows J) (ncols J)
        (fun i j => mget J i j / Rtrigo_def.exp (vget r i) * vget s j)).
Proof.
  intros Hr Hs. unfold mdivide, mmultiply, broadcast2, newaxis_col, newaxis_row.
  rewrite mexp_mk_matrix. cbn [nrows ncols mk_matrix].
  rewrite <- Hr, bdim_same, bdim_one_r. cbn [rbind nrows ncols mk_matrix].
  rewrite bdim_one_r, <- Hs, bdim_same. f_equal.
  apply mk_matrix_ext. intros i j Hi Hj.
  rewrite (bmget_in_range (mk_matrix (nrows J) (ncols J) _)) by assumption.
  rewrite mget_mk_matrix by assumption.
  rewrite bmget_in_range by assumption.
  rewrite bmget_column by (cbn; auto).
  rewrite mget_mk_matrix by lia.
  rewrite bmget_row by (cbn; auto).
  rewrite mget_mk_matrix by lia.
  reflexivity.
Qed.

End Elementwise.

(** ** The Jacobian *)

Lemma dcip_get_jacobian_value (forward_operator : pygimli.forward_operator)
    (model : vector) :
  outcome (pygimli_dcip_lib.get_jacobian model forward_operator) =
  rbind (mdivide (pygimli.compute_jacobian forward_operator (np.exp model))
           (mexp (newaxis_col
                    (np.log (pygimli.response forward_operator (np.exp model))))))
        (fun q => mmultiply q (newaxis_row (np.exp model))).
Proof.
  unfold pygimli_dcip_lib.get_jacobian, pygimli_dcip_lib.get_response.
  rewrite !outcome_bind. cbn [outcome print emit snd ret].
  rewrite outcome_bind, outcome_lift.
  unfold pygimli.squeezeComplex, array, pygimli.jacobian, pygimli.createJacobian.
  cbn [pygimli.stored_jacobian pygimli.compute_jacobian].
  destruct (mdivide _ _) as [q | e]; cbn [rbind]; [ | reflexivity ].
  rewrite outcome_bind, outcome_lift.
  destruct (mmultiply _ _); reflexivity.
Qed.

Lemma ert_get_jacobian_value (forward_operator : pygimli.forward_operator)
    (model : vector) :
  get_jacobian model forward_operator =
  rbind (mdivide (pygimli.compute_jacobian forward_operator model)
           (mexp (newaxis_col (get_response model forward_operator))))
        (fun q => mmultiply q (newaxis_row (np.exp (np.log model)))).
Proof.
  unfold get_jacobian, pygimli.jacobian, pygimli.createJacobian.
  cbn [pygimli.stored_jacobian].
  destruct (mdivide _ _) as [q | e]; cbn [rbind]; [ | reflexivity ].
  destruct (mmultiply _ _); reflexivity.
Qed.

(** C6.  With the model in log space ([pygimli_dcip_lib]), [get_jacobian]
    returns the Jacobian [J] of the forward operator with entry [(i, j)]
    rescaled to [J i j * exp (model j) / exp (response i)], where [response]
    is the logarithm of the forward response.  The ERT scripts, whose model
    is not in log space, use [log model] in the place of the model. *)
Theorem get_jacobian_rescales_entries
    (forward_operator : pygimli.forward_operator) (model : vector) :
  (forall J response,
      J = pygimli.compute_jacobian forward_operator (np.exp model) ->
      response = np.log (pygimli.response forward_operator (np.exp model)) ->
      nrows J = length response -> ncols J = length model ->
      exists jac,
        outcome (pygimli_dcip_lib.get_jacobian model forward_operator) = Ok jac /\
        wf jac /\ nrows jac = nrows J /\ ncols jac = ncols J /\
        forall i j, (i < nrows J)%nat -> (j < ncols J)%nat ->
          mget jac i j =
          (mget J i j * Rtrigo_def.exp (vget model j)
           / Rtrigo_def.exp (vget response i))%R) /\
  (forall J response log_model,
      J = pygimli.compute_jacobian forward_operator model ->
      response = get_response model forward_operator ->
      log_model = np.log model ->
      nrows J = length response -> ncols J = length model ->
      exists jac,
        get_jacobian model forward_operator = Ok jac /\
        wf jac /\ nrows jac = nrows J /\ ncols jac = ncols J /\
        forall i j, (i < nrows J)%nat -> (j < ncols J)%nat ->
          mget jac i j =
          (mget J i j * Rtrigo_def.exp (vget log_model j)
           / Rtrigo_def.exp (vget response i))%R).
Proof.
  split.
  - intros J response -> -> Hr Hc.
    eexists. split; [ | split; [ | split; [ | split ] ] ].
    + rewrite dcip_get_jacobian_value. apply rescale_entries.
      * exact Hr.
      * unfold np.exp. now rewrite length_map.
    + apply wf_mk_matrix.
    + reflexivity.
    + reflexivity.
    + intros i j Hi Hj. rewrite mget_mk_matrix by assumption.
      unfold np.exp at 3. rewrite vget_map by (rewrite <- Hc; exact Hj).
      unfold Rdiv. ring.
  - intros J response log_model -> -> -> Hr Hc.
    eexists. split; [ | split; [ | split; [ | split ] ] ].
    + rewrite ert_get_jacobian_value. apply rescale_entries.
      * exact Hr.
      * unfold np.exp, np.log. now rewrite !length_map.
    + apply wf_mk_matrix.
    + reflexivity.
    + reflexivity.
    + intros i j Hi Hj. rewrite mget_mk_matrix by assumption.
      unfold np.exp. rewrite vget_map
        by (unfold np.log; rewrite length_map, <- Hc; exact Hj).
      unfold Rdiv. ring.
Qed.

(** The product forward operator at the model [(1, 1)]. *)
Lemma get_jacobian_rescales_entries_witness :
  (exists jac,
      outcome (pygimli_dcip_lib.get_jacobian [1; 1]%R example.fop_product) = Ok jac /\
      wf jac /\ nrows jac = 2%nat /\ ncols jac = 2%nat /\
      forall i j, (i < 2)%nat -> (j < 2)%nat ->
        mget jac i j =
        (mget (pygimli.compute_jacobian example.fop_product (np.exp [1; 1])) i j
         * Rtrigo_def.exp (vget [1; 1] j)
         / Rtrigo_def.exp
             (vget (np.log (pygimli.response example.fop_product (np.exp [1; 1]))) i))%R) /\
  (exists jac,
      get_jacobian [1; 1]%R example.fop_product = Ok jac /\
      wf jac /\ nrows jac = 2%nat /\ ncols jac = 2%nat /\
      forall i j, (i < 2)%nat -> (j < 2)%nat ->
        mget jac i j =
        (mget (pygimli.compute_jacobian example.fop_product [1; 1]) i j
         * Rtrigo_def.exp (vget (np.log [1; 1]) j)
         / Rtrigo_def.exp (vget (get_response [1; 1]%R example.fop_product) i))%R).
Proof.
  destruct (get_jacobian_rescales_entries example.fop_product [1; 1]%R) as [D E].
  split.
  - apply (D _ _ eq_refl eq_refl); reflexivity.
  - apply (E _ _ _ eq_refl eq_refl eq_refl); reflexivity.
Defined.

(** ** The Hessian *)

Section Hessian.

Local Open Scope R_scope.

Lemma matmul_ok (A B : matrix) :
  ncols A = nrows B ->
  matmul A B =
  Ok (mk_matrix (nrows A) (ncols B)
        (fun i j => sum_n (ncols A) (fun k => mget A i k * mget B k j))).
Proof. intros E. unfold matmul. now rewrite E, Nat.eqb_refl. Qed.

Lemma madd_ok (A B : matrix) :
  nrows A = nrows B -> ncols A = ncols B ->
  madd A B = Ok (mk_matrix (nrows A) (ncols A) (fun i j => mget A i j + mget B i j)).
Proof.
  intros En Em. unfold madd. rewrite En, Em, !Nat.eqb_refl. cbn [orb andb].
  f_equal. apply mk_matrix_ext. intros i j Hi Hj.
  now rewrite bmget_in_range by congruence.
Qed.

Lemma mget_transpose (A : matrix) (i j : nat) :
  (i < ncols A)%nat -> (j < nrows A)%nat -> mget (transpose A) i j = mget A j i.
Proof. intros Hi Hj. unfold transpose. now rewrite mget_mk_matrix. Qed.

Lemma mget_eye (n i j : nat) :
  (i < n)%nat -> (j < n)%nat -> mget (eye n) i j = if Nat.eqb i j then 1 else 0.
Proof. intros Hi Hj. unfold eye. now rewrite mget_mk_matrix. Qed.

Lemma sum_n_scal_r (n : nat) (c : R) (f : nat -> R) :
  sum_n n (fun k => f k * c) = sum_n n f * c.
Proof. induction n as [ | n IH ]; simpl; [ ring | rewrite IH; ring ]. Qed.

(** The regularisation term [lamda * Wm.T @ Wm]. *)
Lemma regularisation_hessian (Wm : matrix) (lamda : R) :
  matmul (mscale lamda (transpose Wm)) Wm =
  Ok (mk_matrix (ncols Wm) (ncols Wm)
        (fun i j => lamda * sum_n (nrows Wm) (fun k => mget Wm k i * mget Wm k j))).
Proof.
  rewrite matmul_ok by reflexivity. cbn [nrows ncols mscale transpose mk_matrix].
  f_equal. apply mk_matrix_ext. intros i j Hi Hj.
  rewrite <- sum_n_scal. apply sum_n_ext. intros k Hk.
  rewrite mget_mscale, mget_transpose by assumption. ring.
Qed.

(** The data term [jac.T @ data_cov_inv @ jac]. *)
Lemma weighted_data_hessian (J C : matrix) :
  nrows C = nrows J -> ncols C = nrows J ->
  rbind (matmul (transpose J) C) (fun JtC => matmul JtC J) =
  Ok (mk_matrix (ncols J) (ncols J)
        (fun i j =>
           sum_n (nrows J) (fun k =>
             sum_n (nrows J) (fun l => mget J k i * mget C k l * mget J l j)))).
Proof.
  intros Hr Hc.
  rewrite matmul_ok by (symmetry; exact Hr). cbn [rbind].
  rewrite matmul_ok by exact Hc. cbn [nrows ncols transpose mk_matrix].
  f_equal. apply mk_matrix_ext. intros i j Hi Hj. rewrite Hc.
  rewrite sum_n_swap. apply sum_n_ext. intros l Hl.
  rewrite mget_mk_matrix by (try rewrite Hc; assumption).
  rewrite <- sum_n_scal_r. apply sum_n_ext. intros k Hk.
  now rewrite mget_transpose by assumption.
Qed.

(** The data term [jac.T @ jac]. *)
Lemma data_hessian (J : matrix) :
  matmul (transpose J) J =
  Ok (mk_matrix (ncols J) (ncols J)
        (fun i j => sum_n (nrows J) (fun k => mget J k i * mget J k j))).
Proof.
  rewrite matmul_ok by reflexivity. cbn [nrows ncols transpose mk_matrix].
  f_equal. apply mk_matrix_ext. intros i j Hi Hj.
  apply sum_n_ext. intros k Hk. now rewrite mget_transpose by assumption.
Qed.

(** Weighting by the identity is no weighting. *)
Lemma hessian_formula_eye (J Wm : matrix) (lamda : R) :
  hessian_formula J (eye (nrows J)) Wm lamda = hessian_formula_unweighted J Wm lamda.
Proof.
  unfold hessian_formula, hessian_formula_unweighted.
  apply mk_matrix_ext. intros i j Hi Hj. f_equal.
  apply sum_n_ext. intros k Hk.
  rewrite <- (sum_n_delta (nrows J) k (fun l => mget J k i * mget J l j)) by exact Hk.
  apply sum_n_ext. intros l Hl. rewrite mget_eye by assumption. ring.
Qed.

Lemma sum_terms (n m : nat) (f g : nat -> nat -> R) :
  madd (mk_matrix n m f) (mk_matrix n m g) =
  Ok (mk_matrix n m (fun i j => f i j + g i j)).
Proof.
  rewrite madd_ok by reflexivity. cbn [nrows ncols mk_matrix].
  f_equal. apply mk_matrix_ext. intros i j Hi Hj.
  now rewrite !mget_mk_matrix by assumption.
Qed.

Lemma ert_get_hessian_value (forward_operator : pygimli.forward_operator)
    (model log_data : vector) (Wm : matrix) (lamda : R) (J : matrix) :
  ncols Wm = ncols J ->
  get_jacobian model forward_operator = Ok J ->
  get_hessian model log_data forward_operator Wm lamda =
  Ok (hessian_formula_unweighted J Wm lamda).
Proof.
  intros HW EJ. unfold get_hessian. rewrite EJ. cbn [rbind].
  rewrite data_hessian. cbn [rbind].
  rewrite regularisation_hessian. cbn [rbind].
  rewrite HW, sum_terms. reflexivity.
Qed.

Lemma dcip_get_hessian_value (forward_operator : pygimli.forward_operator)
    (model log_data : vector) (Wm : matrix) (lamda : R) (data_cov_inv : option matrix) :
  outcome (pygimli_dcip_lib.get_hessian model log_data forward_operator Wm lamda
             data_cov_inv) =
  rbind (outcome (pygimli_dcip_lib.get_jacobian model forward_operator))
    (fun jac =>
       rbind (rbind (matmul (transpose jac)
                       match data_cov_inv with
                       | None => eye (length log_data)
                       | Some c => c
                       end)
                    (fun JtC => matmul JtC jac))
         (fun JtCJ =>
            rbind (matmul (mscale lamda (transpose Wm)) Wm)
                  (fun WtW => madd JtCJ WtW))).
Proof.
  unfold pygimli_dcip_lib.get_hessian. rewrite outcome_bind.
  destruct (outcome (pygimli_dcip_lib.get_jacobian model forward_operator))
    as [jac | e]; cbn [rbind]; [ | reflexivity ].
  rewrite outcome_bind, outcome_lift.
  destruct (matmul (transpose jac) _) as [JtC | e]; cbn [rbind]; [ | reflexivity ].
  rewrite outcome_bind, outcome_lift.
  destruct (matmul JtC jac) as [JtCJ | e]; cbn [rbind]; [ | reflexivity ].
  rewrite outcome_bind, outcome_lift.
  destruct (matmul (mscale lamda (transpose Wm)) Wm) as [WtW | e]; cbn [rbind];
    [ | reflexivity ].
  rewrite outcome_bind, outcome_lift.
  destruct (madd JtCJ WtW); reflexivity.
Qed.

End Hessian.

(** C5.  The Hessian that [get_hessian] returns is
    [J^T Cinv J + lamda Wm^T Wm], entry by entry, where [J] is the rescaled
    Jacobian that [get_jacobian] returns at the model, [Wm] is the
    regularisation matrix and [Cinv] is the covariance argument; without a
    covariance argument, and in the ERT scripts, which take none, it is the
    same matrix with the identity for [Cinv], [J^T J + lamda Wm^T Wm]. *)
Theorem get_hessian_is_JtCJ_plus_lamda_WtW
    (forward_operator : pygimli.forward_operator)
    (model log_data : vector) (Wm : matrix) (lamda : R) (J : matrix) :
  ncols Wm = ncols J ->
  (outcome (pygimli_dcip_lib.get_jacobian model forward_operator) = Ok J ->
   (forall Cinv,
       nrows Cinv = nrows J -> ncols Cinv = nrows J ->
       outcome (pygimli_dcip_lib.get_hessian model log_data forward_operator Wm lamda
                  (Some Cinv)) =
       Ok (hessian_formula J Cinv Wm lamda)) /\
   (length log_data = nrows J ->
    outcome (pygimli_dcip_lib.get_hessian model log_data forward_operator Wm lamda
               None) =
    Ok (hessian_formula J (eye (nrows J)) Wm lamda) /\
    hessian_formula J (eye (nrows J)) Wm lamda =
    hessian_formula_unweighted J Wm lamda)) /\
  (get_jacobian model forward_operator = Ok J ->
   get_hessian model log_data forward_operator Wm lamda =
   Ok (hessian_formula_unweighted J Wm lamda)).
Proof.
  intros HW. split.
  - intros EJ.
    assert (G : forall Cinv,
               nrows Cinv = nrows J -> ncols Cinv = nrows J ->
               rbind (rbind (matmul (transpose J) Cinv) (fun JtC => matmul JtC J))
                 (fun JtCJ =>
                    rbind (matmul (mscale lamda (transpose Wm)) Wm)
                          (fun WtW => madd JtCJ WtW)) =
               Ok (hessian_formula J Cinv Wm lamda)).
    { intros Cinv Hr Hc.
      rewrite weighted_data_hessian by assumption. cbn [rbind].
      rewrite regularisation_hessian. cbn [rbind].
      rewrite HW. apply sum_terms. }
    split.
    + intros Cinv Hr Hc. rewrite dcip_get_hessian_value, EJ. cbn [rbind].
      now apply G.
    + intros Hl. split; [ | apply hessian_formula_eye ].
      rewrite dcip_get_hessian_value, EJ. cbn [rbind]. rewrite Hl.
      apply G; reflexivity.
  - intros EJ. now apply ert_get_hessian_value.
Qed.

(** The product forward operator with the first-difference regularisation,
    [lamda = 20], and the covariance weighting [4 I], or none. *)
Lemma get_hessian_is_JtCJ_plus_lamda_WtW_witness :
  (outcome (pygimli_dcip_lib.get_hessian [0; 0]%R [1; 2]%R example.fop_product
              example.smooth 20 (Some (mscale 4 (eye 2)))) =
     Ok (hessian_formula example.dcip_jacobian (mscale 4 (eye 2)) example.smooth 20) /\
   outcome (pygimli_dcip_lib.get_hessian [0; 0]%R [1; 2]%R example.fop_product
              example.smooth 20 None) =
     Ok (hessian_formula example.dcip_jacobian (eye 2) example.smooth 20)) /\
  get_hessian [1; 1]%R [1; 2]%R example.fop_product example.smooth 20 =
    Ok (hessian_formula_unweighted example.ert_jacobian example.smooth 20).
Proof.
  split.
  - destruct (get_hessian_is_JtCJ_plus_lamda_WtW example.fop_product [0; 0]%R [1; 2]%R
                example.smooth 20 example.dcip_jacobian eq_refl) as [D _].
    destruct D as [DC DN].
    + rewrite dcip_get_jacobian_value. apply rescale_entries; reflexivity.
    + split.
      * apply DC; reflexivity.
      * apply DN. reflexivity.
  - destruct (get_hessian_is_JtCJ_plus_lamda_WtW example.fop_product [1; 1]%R [1; 2]%R
                example.smooth 20 example.ert_jacobian eq_refl) as [_ E].
    apply E. rewrite ert_get_jacobian_value. apply rescale_entries; reflexivity.
Defined.

(** ** The gradient: scaling by a constant *)

Section Scaling.

Local Open Scope R_scope.

Lemma scale_mk_vector (c : R) (n : nat) (f : nat -> R) :
  scale c (mk_vector n f) = mk_vector n (fun i => c * f i).
Proof. unfold scale, mk_vector. now rewrite map_map. Qed.

Lemma mscale_mk_matrix (c : R) (n m : nat) (f : nat -> nat -> R) :
  mscale c (mk_matrix n m f) = mk_matrix n m (fun i j => c * f i j).
Proof.
  unfold mscale, mk_matrix. cbn [nrows ncols rows]. f_equal.
  rewrite map_map. apply map_ext. intros i. now rewrite map_map.
Qed.

Lemma length_scale (c : R) (v : vector) : length (scale c v) = length v.
Proof. apply length_map. Qed.

Lemma length_negative (v : vector) : length (negative v) = length v.
Proof. apply length_map. Qed.

Lemma bvget_scale (c : R) (v : vector) (i : nat) :
  bvget (scale c v) i = c * bvget v i.
Proof. unfold bvget. rewrite length_scale. apply vget_scale. Qed.

Lemma vecmat_scaled (c : R) (u v : vector) (A : matrix) :
  length u = length v ->
  (forall k, vget u k = c * vget v k) ->
  vecmat u A = rmap (scale c) (vecmat v A).
Proof.
  intros L E. unfold vecmat. rewrite L.
  destruct (Nat.eqb (length v) (nrows A)); [ | reflexivity ].
  cbn [rmap rbind]. rewrite scale_mk_vector. f_equal.
  apply mk_vector_ext. intros j Hj.
  rewrite <- sum_n_scal. apply sum_n_ext. intros k Hk. rewrite E. ring.
Qed.

Lemma matmul_scaled (c : R) (A A' B : matrix) :
  nrows A = nrows A' -> ncols A = ncols A' ->
  (forall i k, mget A i k = c * mget A' i k) ->
  matmul A B = rmap (mscale c) (matmul A' B).
Proof.
  intros En Em E. unfold matmul. rewrite En, Em.
  destruct (Nat.eqb (ncols A') (nrows B)); [ | reflexivity ].
  cbn [rmap rbind]. rewrite mscale_mk_matrix. f_equal.
  apply mk_matrix_ext. intros i j Hi Hj.
  rewrite <- sum_n_scal. apply sum_n_ext. intros k Hk. rewrite E. ring.
Qed.

Lemma matvec_mscale (c : R) (A : matrix) (v : vector) :
  matvec (mscale c A) v = rmap (scale c) (matvec A v).
Proof.
  unfold matvec. cbn [nrows ncols mscale].
  destruct (Nat.eqb (ncols A) (length v)); [ | reflexivity ].
  cbn [rmap rbind]. rewrite scale_mk_vector. f_equal.
  apply mk_vector_ext. intros i Hi.
  rewrite <- sum_n_scal. apply sum_n_ext. intros k Hk.
  rewrite mget_mscale. ring.
Qed.

Lemma add_scale (c : R) (u v : vector) :
  add (scale c u) (scale c v) = rmap (scale c) (add u v).
Proof.
  unfold add, broadcast1. rewrite !length_scale.
  destruct (bdim (length u) (length v)) as [n | ]; [ | reflexivity ].
  cbn [rmap rbind]. rewrite scale_mk_vector. f_equal.
  apply mk_vector_ext. intros i Hi. rewrite !bvget_scale. ring.
Qed.

End Scaling.

(** C4.  The two ERT scripts compute the Jacobian and the residual in the
    same way, and from them the gradient of the Gauss-Newton script,
    [- 2 residual J + 2 lamda Wm^T Wm model], is 2 times the gradient of the
    scipy-minimize script, [- residual J + lamda Wm^T Wm model]; where one
    raises, so does the other. *)
Theorem gauss_newton_gradient_is_twice_scipy_gradient
    (forward_operator : pygimli.forward_operator)
    (model log_data : vector) (Wm : matrix) (lamda : R) :
  pygimli_ert_scipy_minimize.get_jac_residual model log_data forward_operator =
    get_jac_residual model log_data forward_operator /\
  get_gradient model log_data forward_operator Wm lamda =
    rmap (scale 2)
      (pygimli_ert_scipy_minimize.get_gradient model log_data forward_operator Wm lamda).
Proof.
  split; [ reflexivity | ].
  unfold get_gradient, pygimli_ert_scipy_minimize.get_gradient.
  change (pygimli_ert_scipy_minimize.get_jac_residual model log_data forward_operator)
    with (get_jac_residual model log_data forward_operator).
  destruct (get_jac_residual model log_data forward_operator) as [[jac residual] | e];
    cbn [rbind rmap]; [ | reflexivity ].
  rewrite (vecmat_scaled 2 (scale (- 2) residual) (negative residual))
    by (rewrite ?length_scale, ?length_negative; auto;
        intros k; rewrite vget_scale, vget_negative; ring).
  destruct (vecmat (negative residual) jac) as [a | e]; cbn [rbind rmap];
    [ | reflexivity ].
  rewrite (matmul_scaled 2 (mscale (2 * lamda) (transpose Wm))
             (mscale lamda (transpose Wm)))
    by (auto; intros i k; rewrite !mget_mscale; ring).
  destruct (matmul (mscale lamda (transpose Wm)) Wm) as [W | e]; cbn [rbind rmap];
    [ | reflexivity ].
  rewrite matvec_mscale.
  destruct (matvec W model) as [b | e]; cbn [rbind rmap]; [ | reflexivity ].
  apply add_scale.
Qed.

(** ** Matrix times vector *)

Section MatVec.

Local Open Scope R_scope.

Lemma matvec_ok (A : matrix) (v : vector) :
  ncols A = length v ->
  matvec A v =
  Ok (mk_vector (nrows A) (fun i => sum_n (ncols A) (fun k => mget A i k * vget v k))).
Proof. intros E. unfold matvec. now rewrite E, Nat.eqb_refl. Qed.

Lemma matvec_inv (A : matrix) (v w : vector) :
  matvec A v = Ok w ->
  ncols A = length v /\
  w = mk_vector (nrows A) (fun i => sum_n (ncols A) (fun k => mget A i k * vget v k)).
Proof.
  unfold matvec. destruct (Nat.eqb_spec (ncols A) (length v)); [ | discriminate ].
  intros [= <-]. auto.
Qed.

Lemma matmul_inv (A B C : matrix) :
  matmul A B = Ok C ->
  ncols A = nrows B /\
  C = mk_matrix (nrows A) (ncols B)
        (fun i j => sum_n (ncols A) (fun k => mget A i k * mget B k j)).
Proof.
  unfold matmul. destruct (Nat.eqb_spec (ncols A) (nrows B)); [ | discriminate ].
  intros [= <-]. auto.
Qed.

(** [(A @ B) @ v] is [A @ (B @ v)]. *)
Lemma matvec_assoc (A B C : matrix) (v w : vector) :
  matmul A B = Ok C -> matvec B v = Ok w -> matvec A w = matvec C v.
Proof.
  intros EC Ew.
  apply matmul_inv in EC as [S1 ->]. apply matvec_inv in Ew as [S2 ->].
  rewrite !matvec_ok by (cbn [ncols mk_matrix]; rewrite ?length_mk_vector; auto).
  cbn [nrows ncols mk_matrix]. f_equal. apply mk_vector_ext. intros i Hi.
  rewrite <- S1.
  transitivity (sum_n (ncols A) (fun k =>
                  sum_n (ncols B) (fun l => mget A i k * mget B k l * vget v l))).
  - apply sum_n_ext. intros k Hk.
    rewrite vget_mk_vector by exact Hk.
    rewrite <- sum_n_scal. apply sum_n_ext. intros l Hl. ring.
  - rewrite sum_n_swap. apply sum_n_ext. intros l Hl.
    rewrite mget_mk_matrix by assumption.
    rewrite <- sum_n_scal_r. reflexivity.
Qed.

Lemma matvec_eye (n : nat) (v : vector) : length v = n -> matvec (eye n) v = Ok v.
Proof.
  intros L. rewrite matvec_ok by (cbn; auto). cbn [nrows ncols eye mk_matrix].
  f_equal. apply vector_ext; rewrite length_mk_vector; [ congruence | ].
  intros i Hi. rewrite vget_mk_vector by exact Hi.
  rewrite <- (sum_n_delta n i (vget v)) by exact Hi.
  apply sum_n_ext. intros k Hk. now rewrite mget_eye by assumption.
Qed.

Lemma matvec_zeros (A : matrix) : matvec A (zeros (ncols A)) = Ok (zeros (nrows A)).
Proof.
  rewrite matvec_ok by (unfold zeros; now rewrite length_mk_vector).
  f_equal. unfold zeros at 2. apply mk_vector_ext. intros i Hi.
  apply sum_n_zero. intros k Hk. unfold zeros. rewrite vget_mk_vector by exact Hk. ring.
Qed.

(** A matrix with a left inverse has a trivial kernel. *)
Lemma left_inverse_kernel (B A : matrix) (v : vector) :
  matmul B A = Ok (eye (ncols A)) ->
  matvec A v = Ok (zeros (nrows A)) ->
  v = zeros (ncols A).
Proof.
  intros EI K.
  pose proof (matvec_assoc B A _ v _ EI K) as E.
  pose proof (matvec_inv _ _ _ K) as [L _].
  rewrite matvec_eye in E by auto.
  apply matmul_inv in EI as [S1 EI].
  rewrite <- S1, matvec_zeros in E. injection E as E. rewrite <- E.
  apply (f_equal nrows) in EI. cbn [nrows eye mk_matrix] in EI. now rewrite EI.
Qed.

Lemma left_inverse_not_singular (B A : matrix) :
  matmul B A = Ok (eye (ncols A)) -> ~ singular A.
Proof.
  intros EI (v & _ & Nz & K). apply Nz. now apply (left_inverse_kernel B A).
Qed.

End MatVec.

(** ** A linear forward model without regularisation *)

Section Vectors.

Local Open Scope R_scope.

Lemma subtract_ok (u v : vector) :
  length u = length v ->
  subtract u v = Ok (mk_vector (length u) (fun i => vget u i - vget v i)).
Proof.
  intros L. unfold subtract, broadcast1. rewrite <- L, bdim_same. f_equal.
  apply mk_vector_ext. intros i Hi.
  rewrite !bvget_in_range by congruence. reflexivity.
Qed.

Lemma add_ok (u v : vector) :
  length u = length v ->
  add u v = Ok (mk_vector (length u) (fun i => vget u i + vget v i)).
Proof.
  intros L. unfold add, broadcast1. rewrite <- L, bdim_same. f_equal.
  apply mk_vector_ext. intros i Hi.
  rewrite !bvget_in_range by congruence. reflexivity.
Qed.

Lemma vecmat_ok (v : vector) (A : matrix) :
  length v = nrows A ->
  vecmat v A =
  Ok (mk_vector (ncols A) (fun j => sum_n (nrows A) (fun k => vget v k * mget A k j))).
Proof. intros E. unfold vecmat. now rewrite E, Nat.eqb_refl. Qed.

Lemma sum_n_minus (n : nat) (f g : nat -> R) :
  sum_n n (fun k => f k - g k) = sum_n n f - sum_n n g.
Proof. induction n as [ | n IH ]; simpl; [ ring | rewrite IH; ring ]. Qed.

(** Adding [delta] leaves the model as it is exactly when [delta] is zero. *)
Lemma add_fixed_point (m delta : vector) :
  length delta = length m ->
  add m delta = Ok m <-> delta = zeros (length m).
Proof.
  intros L. rewrite add_ok by congruence. split.
  - intros [= E]. apply vector_ext.
    + unfold zeros. now rewrite length_mk_vector.
    + intros i Hi. rewrite L in Hi.
      assert (Ei : vget (mk_vector (length m) (fun i => vget m i + vget delta i)) i
                   = vget m i) by now rewrite E.
      rewrite vget_mk_vector in Ei by exact Hi.
      unfold zeros. rewrite vget_mk_vector by exact Hi. lra.
  - intros ->. f_equal. apply vector_ext.
    + now rewrite length_mk_vector.
    + intros i Hi. rewrite length_mk_vector in Hi.
      rewrite vget_mk_vector by exact Hi.
      unfold zeros. rewrite vget_mk_vector by exact Hi. ring.
Qed.

Lemma ert_get_jac_residual_value (forward_operator : pygimli.forward_operator)
    (model log_data : vector) :
  get_jac_residual model log_data forward_operator =
  rbind (subtract log_data (get_response model forward_operator))
        (fun residual =>
           rbind (get_jacobian model forward_operator)
                 (fun jac => Ok (jac, residual))).
Proof.
  unfold get_jac_residual, get_jacobian.
  destruct (subtract _ _) as [r | e]; cbn [rbind]; [ | reflexivity ].
  destruct (mdivide _ _) as [q | e]; cbn [rbind]; [ | reflexivity ].
  destruct (mmultiply _ _); reflexivity.
Qed.

End Vectors.

Section LeastSquares.

Local Open Scope R_scope.

Variable forward_operator : pygimli.forward_operator.
Variables G Wm GtG : matrix.
Variables d m Gtd : vector.

Hypothesis jacobian_is_G : get_jacobian m forward_operator = Ok G.
Hypothesis response_is_Gm : matvec G m = Ok (get_response m forward_operator).
Hypothesis data_length : length d = nrows G.
Hypothesis Wm_columns : ncols Wm = ncols G.
Hypothesis GtG_value : matmul (transpose G) G = Ok GtG.
Hypothesis Gtd_value : matvec (transpose G) d = Ok Gtd.

Lemma ls_model_length : length m = ncols G.
Proof. apply matvec_inv in response_is_Gm as [L _]. exact (eq_sym L). Qed.

Lemma ls_response :
  get_response m forward_operator =
  mk_vector (nrows G) (fun k => sum_n (ncols G) (fun l => mget G k l * vget m l)).
Proof. now apply matvec_inv in response_is_Gm as [_ E]. Qed.

Lemma ls_GtG :
  GtG = mk_matrix (ncols G) (ncols G)
          (fun i j => sum_n (nrows G) (fun k => mget G k i * mget G k j)).
Proof. rewrite data_hessian in GtG_value. congruence. Qed.

Lemma ls_Gtd :
  Gtd = mk_vector (ncols G) (fun j => sum_n (nrows G) (fun k => mget G k j * vget d k)).
Proof.
  apply matvec_inv in Gtd_value as [_ E]. rewrite E.
  cbn [nrows ncols transpose mk_matrix].
  apply mk_vector_ext. intros j Hj. apply sum_n_ext. intros k Hk.
  now rewrite mget_transpose by assumption.
Qed.

Lemma ls_GtG_shape : nrows GtG = ncols G /\ ncols GtG = ncols G.
Proof. rewrite ls_GtG. split; reflexivity. Qed.

Lemma ls_Hm_returns : exists Hm, matvec GtG m = Ok Hm.
Proof.
  eexists. apply matvec_ok. rewrite ls_model_length. apply ls_GtG_shape.
Qed.

Lemma ls_hessian : get_hessian m d forward_operator Wm 0 = Ok GtG.
Proof.
  rewrite (ert_get_hessian_value forward_operator m d Wm 0 G Wm_columns jacobian_is_G).
  f_equal. rewrite ls_GtG. unfold hessian_formula_unweighted.
  apply mk_matrix_ext. intros i j Hi Hj. ring.
Qed.

(** The gradient is [2 (GtG m - G^T d)]. *)
Lemma ls_gradient (Hm : vector) :
  matvec GtG m = Ok Hm ->
  get_gradient m d forward_operator Wm 0 =
  Ok (mk_vector (ncols G) (fun j => 2 * (vget Hm j - vget Gtd j))).
Proof.
  intros EHm. apply matvec_inv in EHm as [_ ->].
  destruct ls_GtG_shape as [Sr Sc]. rewrite Sr, Sc.
  unfold get_gradient. rewrite ert_get_jac_residual_value.
  rewrite subtract_ok by (rewrite ls_response, length_mk_vector; exact data_length).
  cbn [rbind]. rewrite jacobian_is_G. cbn [rbind].
  rewrite vecmat_ok
    by (now rewrite length_scale, length_mk_vector).
  cbn [rbind]. rewrite regularisation_hessian. cbn [rbind].
  rewrite matvec_ok by (cbn [ncols mk_matrix]; rewrite ls_model_length; exact Wm_columns).
  cbn [rbind nrows ncols mk_matrix].
  rewrite add_ok by (rewrite !length_mk_vector; auto).
  f_equal. rewrite length_mk_vector, Wm_columns.
  apply mk_vector_ext. intros j Hj.
  rewrite !vget_mk_vector by assumption.
  rewrite ls_Gtd, !vget_mk_vector by assumption.
  transitivity
    (sum_n (nrows G) (fun k =>
       2 * (sum_n (ncols G) (fun l => mget G k j * mget G k l * vget m l)
            - mget G k j * vget d k)) + 0).
  - f_equal.
    + apply sum_n_ext. intros k Hk. rewrite vget_scale.
      rewrite vget_mk_vector by (rewrite data_length; exact Hk).
      rewrite ls_response, vget_mk_vector by exact Hk.
      transitivity
        (2 * (mget G k j * sum_n (ncols G) (fun l => mget G k l * vget m l)
              - mget G k j * vget d k)); [ ring | ].
      rewrite <- sum_n_scal. do 2 f_equal.
      apply sum_n_ext. intros l Hl. ring.
    + apply sum_n_zero. intros k Hk. rewrite mget_mk_matrix by assumption. ring.
  - rewrite Rplus_0_r, sum_n_scal, sum_n_minus, sum_n_swap. do 2 f_equal.
    apply sum_n_ext. intros l Hl. rewrite ls_GtG, mget_mk_matrix by assumption.
    rewrite <- sum_n_scal_r. reflexivity.
Qed.

Variable GtG_inv : matrix.
Hypothesis left_inverse : matmul GtG_inv GtG = Ok (eye (ncols G)).
Hypothesis right_inverse : matmul GtG GtG_inv = Ok (eye (ncols G)).

(** The normal equations [GtG m = G^T d] say that [m] is [GtG_inv G^T d]. *)
Lemma ls_normal_equations (Hm : vector) :
  matvec GtG m = Ok Hm ->
  Hm = Gtd <-> matvec GtG_inv Gtd = Ok m.
Proof.
  intros EHm. split.
  - intros <-.
    rewrite (matvec_assoc GtG_inv GtG _ m Hm left_inverse EHm).
    apply matvec_eye, ls_model_length.
  - intros E.
    pose proof (matvec_assoc GtG GtG_inv _ Gtd m right_inverse E) as E'.
    rewrite matvec_eye in E' by (rewrite ls_Gtd; apply length_mk_vector).
    congruence.
Qed.

Lemma ls_gradient_zero (Hm : vector) :
  matvec GtG m = Ok Hm ->
  negative (mk_vector (ncols G) (fun j => 2 * (vget Hm j - vget Gtd j)))
    = zeros (ncols G) <->
  Hm = Gtd.
Proof.
  intros EHm.
  assert (LH : length Hm = ncols G).
  { apply matvec_inv in EHm as [_ ->]. rewrite length_mk_vector. apply ls_GtG_shape. }
  assert (LG : length Gtd = ncols G) by (rewrite ls_Gtd; apply length_mk_vector).
  split.
  - intros E. apply vector_ext; [ congruence | ].
    intros i Hi. rewrite LH in Hi.
    assert (Ei : vget (negative (mk_vector (ncols G)
                                   (fun j => 2 * (vget Hm j - vget Gtd j)))) i
                 = vget (zeros (ncols G)) i) by now rewrite E.
    unfold zeros in Ei.
    rewrite vget_negative, !vget_mk_vector in Ei by exact Hi. lra.
  - intros <-. apply vector_ext.
    + unfold zeros. now rewrite length_negative, !length_mk_vector.
    + intros i Hi. rewrite length_negative, length_mk_vector in Hi.
      unfold zeros. rewrite vget_negative, !vget_mk_vector by exact Hi. ring.
Qed.

End LeastSquares.

(** C3.  Take [lamda = 0] and a forward model that is linear at the model
    [m]: the rescaled Jacobian is [G] and the response is [G m].  Let
    [G^T G] have the two-sided inverse [GtG_inv] and let the linear solver
    meet the contract of [np.linalg.solve].  Then the update step at [m]
    computes a [delta], and [delta] is the zero vector exactly when [m] is
    the least-squares solution [GtG_inv G^T d]; equivalently, one iteration
    of the solver started at [m] returns [m] exactly in that case. *)
Theorem fixed_point_is_least_squares_solution
    (linalg_solve : matrix -> vector -> result vector)
    (forward_operator : pygimli.forward_operator)
    (G Wm GtG GtG_inv : matrix) (d m Gtd : vector) :
  solve_sound linalg_solve ->
  solve_complete linalg_solve ->
  get_jacobian m forward_operator = Ok G ->
  matvec G m = Ok (get_response m forward_operator) ->
  length d = nrows G ->
  ncols Wm = ncols G ->
  matmul (transpose G) G = Ok GtG ->
  matmul GtG_inv GtG = Ok (eye (ncols G)) ->
  matmul GtG GtG_inv = Ok (eye (ncols G)) ->
  matvec (transpose G) d = Ok Gtd ->
  exists H g delta,
    get_hessian m d forward_operator Wm 0 = Ok H /\
    get_gradient m d forward_operator Wm 0 = Ok g /\
    linalg_solve H (negative g) = Ok delta /\
    (delta = zeros (length m) <-> matvec GtG_inv Gtd = Ok m) /\
    (outcome (__call__ linalg_solve
                (__init__ (ert_problem d forward_operator Wm 0 m)
                   {| cofi.niter := 1; cofi.verbose := false |})) =
       Ok {| cofi.model := m; cofi.success := true |} <->
     matvec GtG_inv Gtd = Ok m).
Proof.
  intros Hs Hc EJ ER Ld LW EG EL ERi Ed.
  destruct (ls_Hm_returns forward_operator G GtG m ER EG) as [Hm EHm].
  pose proof (ls_hessian forward_operator G Wm GtG d m EJ LW EG) as EH.
  pose proof (ls_gradient forward_operator G Wm GtG d m Gtd EJ ER Ld LW EG Ed Hm EHm)
    as Eg.
  pose proof (ls_GtG_shape G GtG EG) as [Sr Sc].
  pose proof (ls_model_length forward_operator G m ER) as Lm.
  set (g := mk_vector (ncols G) (fun j => (2 * (vget Hm j - vget Gtd j))%R)) in *.
  assert (W : wf GtG) by (rewrite (ls_GtG G GtG EG); apply wf_mk_matrix).
  assert (EL' : matmul GtG_inv GtG = Ok (eye (ncols GtG))) by now rewrite Sc.
  assert (Lg : length (negative g) = nrows GtG).
  { unfold g. now rewrite length_negative, length_mk_vector. }
  destruct (Hc GtG (negative g) W (eq_trans Sr (eq_sym Sc)) Lg
              (left_inverse_not_singular GtG_inv GtG EL')) as [delta Es].
  pose proof (Hs GtG (negative g) delta W Es) as Ex.
  assert (Ld' : length delta = length m).
  { apply matvec_inv in Ex as [L _]. congruence. }
  assert (D : delta = zeros (length m) <-> matvec GtG_inv Gtd = Ok m).
  { rewrite <- (ls_normal_equations forward_operator G GtG d m Gtd ER Ed
                  GtG_inv EL ERi Hm EHm).
    rewrite <- (ls_gradient_zero G GtG d m Gtd EG Ed Hm EHm). fold g.
    rewrite Lm. split.
    - intros ->. rewrite <- Sc, matvec_zeros, Sr in Ex. congruence.
    - intros Ez. rewrite Ez, <- Sr in Ex. rewrite <- Sc.
      now apply (left_inverse_kernel GtG_inv GtG). }
  exists GtG, g, delta. repeat split; try assumption; try apply D.
  - intros E. apply D. apply add_fixed_point; [ exact Ld' | ].
    rewrite outcome_call_passes in E. cbn [_niter __init__ cofi.niter] in E.
    change (Z.to_nat 1) with 1%nat in E.
    rewrite outcome_passes_succ in E. cbn [rbind passes for_each range] in E.
    unfold passes in E. cbn [range Z.of_nat Z.to_nat seq map for_each ret outcome snd rbind]
      in E.
    rewrite outcome_loop_body_manual in E by (left; reflexivity).
    unfold manual_step in E.
    cbn [_hessian _gradient _model_0 __init__ ert_problem cofi.hessian cofi.gradient
           cofi.initial_model array] in E.
    rewrite EH, Eg in E. cbn [rbind] in E. rewrite Es in E. cbn [rbind] in E.
    destruct (add m delta) as [m' | e]; cbn in E; congruence.
  - intros E. apply D, (add_fixed_point m delta Ld') in E.
    rewrite outcome_call_passes. cbn [_niter __init__ cofi.niter].
    change (Z.to_nat 1) with 1%nat.
    rewrite outcome_passes_succ.
    unfold passes. cbn [range Z.of_nat Z.to_nat seq map for_each ret outcome snd rbind].
    rewrite outcome_loop_body_manual by (left; reflexivity).
    unfold manual_step.
    cbn [_hessian _gradient _model_0 __init__ ert_problem cofi.hessian cofi.gradient
           cofi.initial_model array].
    rewrite EH, Eg. cbn [rbind]. rewrite Es. cbn [rbind]. rewrite E. reflexivity.
Qed.

(** Two data [(1, 3)] of one cell with [G = (1, 1)]: the least-squares
    solution is their mean 2, and the update at 2 is zero. *)
Lemma fixed_point_is_least_squares_solution_witness :
  exists H g delta,
    get_hessian [2]%R example.line_data example.fop_line example.line_damping 0 = Ok H /\
    get_gradient [2]%R example.line_data example.fop_line example.line_damping 0 = Ok g /\
    exact.solve H (negative g) = Ok delta /\
    (delta = zeros 1 <-> matvec example.line_GtG_inv [4]%R = Ok [2]%R) /\
    (outcome (__call__ exact.solve
                (__init__ (ert_problem example.line_data example.fop_line
                             example.line_damping 0 [2]%R)
                   {| cofi.niter := 1; cofi.verbose := false |})) =
       Ok {| cofi.model := [2]%R; cofi.success := true |} <->
     matvec example.line_GtG_inv [4]%R = Ok [2]%R).
Proof.
  apply (fixed_point_is_least_squares_solution exact.solve example.fop_line
           example.line_G example.line_damping example.line_GtG example.line_GtG_inv
           example.line_data [2]%R [4]%R).
  - exact exact_solve_sound.
  - exact exact_solve_complete.
  - rewrite ert_get_jacobian_value, rescale_entries by reflexivity.
    unfold example.line_G, mk_matrix. cbn. rewrite ln_exp, exp_ln by lra.
    arrays_eq; field; apply Rgt_not_eq, exp_pos.
  - unfold matvec, get_response, np.log, array. cbn. rewrite ln_exp.
    arrays_eq; ring.
  - reflexivity.
  - reflexivity.
  - unfold matmul, example.line_GtG, mk_matrix. cbn. arrays_eq; ring.
  - unfold matmul, eye, mk_matrix. cbn. arrays_eq; field.
  - unfold matmul, eye, mk_matrix. cbn. arrays_eq; field.
  - unfold matvec. cbn. arrays_eq; ring.
Defined.

(** ** Running the solver on the small problems *)

(** A solver that meets the contract returns the solution one exhibits,
    when the matrix has a left inverse. *)
Lemma solve_unique (linalg_solve : matrix -> vector -> result vector)
    (A B : matrix) (x b : vector) :
  solve_sound linalg_solve -> solve_complete linalg_solve ->
  wf A -> nrows A = ncols A ->
  matmul B A = Ok (eye (ncols A)) ->
  matvec A x = Ok b ->
  linalg_solve A b = Ok x.
Proof.
  intros Hs Hc W Sq EI Ex.
  assert (Lb : length b = nrows A).
  { apply matvec_inv in Ex as [_ ->]. apply length_mk_vector. }
  destruct (Hc A b W Sq Lb (left_inverse_not_singular B A EI)) as [x' Es].
  pose proof (Hs A b x' W Es) as Ex'.
  pose proof (matvec_assoc B A _ x b EI Ex) as E1.
  pose proof (matvec_assoc B A _ x' b EI Ex') as E2.
  rewrite matvec_eye in E1 by (apply matvec_inv in Ex as [L _]; congruence).
  rewrite matvec_eye in E2 by (apply matvec_inv in Ex' as [L _]; congruence).
  congruence.
Qed.

(** One Gauss-Newton step on the quadratic bowl reaches its minimum
    [(1, 2)], printing the iteration and the misfit. *)
Example bowl_first_iteration :
  outcome (__call__ exact.solve (set_niter example.bowl 1)) =
  Ok {| cofi.model := [1; 2]%R; cofi.success := true |}.
Proof.
  rewrite outcome_call_set_niter. change (Z.to_nat 1) with 1%nat.
  rewrite outcome_passes_succ. unfold passes.
  cbn [range Z.of_nat Z.to_nat seq map for_each ret outcome snd rbind].
  rewrite outcome_loop_body_manual
    by (right; split; intros g [= <-] m; eexists; reflexivity).
  unfold manual_step.
  cbn [_hessian _gradient _model_0 example.bowl example.bowl_hessian
         example.bowl_gradient array rbind].
  rewrite (solve_unique exact.solve (mkMatrix 2 2 [[2; 0]; [0; 2]]%R)
             (mkMatrix 2 2 [[/ 2; 0]; [0; / 2]]%R) [1; 2]%R).
  - cbn. arrays_eq; ring.
  - exact exact_solve_sound.
  - exact exact_solve_complete.
  - split; [ reflexivity | repeat constructor ].
  - reflexivity.
  - unfold matmul, eye, mk_matrix. cbn. arrays_eq; field.
  - unfold matvec, negative. cbn. arrays_eq; ring.
Qed.

(** On the flat valley the first linear solve raises. *)
Example valley_first_iteration :
  exact.solve example.valley_matrix [2; 4]%R = Raise (LinAlgError "Singular matrix").
Proof.
  apply exact_solve_raises_singular; try reflexivity.
  - split; [ reflexivity | repeat constructor ].
  - exists [2; -1]%R. split; [ reflexivity | ]. split.
    + intros E. injection E as E _. lra.
    + unfold matvec, zeros. cbn. arrays_eq; ring.
Qed.

(** Both gradients are defined on the product forward operator, where the
    Gauss-Newton one is twice the other. *)
Example product_gradients :
  exists g,
    pygimli_ert_scipy_minimize.get_gradient [1; 1]%R [1; 2]%R example.fop_product
      example.smooth 20 = Ok g /\
    get_gradient [1; 1]%R [1; 2]%R example.fop_product example.smooth 20 =
      Ok (scale 2 g) /\
    length g = 2%nat.
Proof.
  eexists. split; [ | split ].
  - unfold pygimli_ert_scipy_minimize.get_gradient,
      pygimli_ert_scipy_minimize.get_jac_residual.
    cbn -[Rtrigo_def.exp ln Rmult Rplus Rminus Rdiv Ropp IZR]. reflexivity.
  - unfold get_gradient, get_jac_residual.
    cbn -[Rtrigo_def.exp ln Rmult Rplus Rminus Rdiv Ropp IZR].
    arrays_eq; ring.
  - reflexivity.
Qed.

(** * Further properties of the scripts *)

(** ** Polynomial regression *)

Section Polynomial.

Local Open Scope R_scope.

Lemma mk_vector_map (f : R -> R) (v : vector) :
  mk_vector (length v) (fun i => f (vget v i)) = map f v.
Proof.
  apply vector_ext.
  - now rewrite length_mk_vector, length_map.
  - intros i Hi. rewrite length_mk_vector in Hi.
    now rewrite vget_mk_vector, vget_map by exact Hi.
Qed.

Lemma basis_func_shape (x : vector) :
  nrows (linear_regression.basis_func x) = length x /\
  ncols (linear_regression.basis_func x) = 4%nat /\
  wf (linear_regression.basis_func x).
Proof. split; [ reflexivity | split; [ reflexivity | apply wf_mk_matrix ] ]. Qed.

(** The entries of the basis matrix are the powers of the samples. *)
Lemma basis_func_entry (x : vector) (n i : nat) :
  (n < length x)%nat -> (i < 4)%nat ->
  mget (linear_regression.basis_func x) n i = vget x n ^ i.
Proof.
  intros Hn Hi. unfold linear_regression.basis_func.
  rewrite mget_transpose by (cbn [nrows ncols]; assumption).
  unfold mget. cbn [rows range Z.to_nat Pos.to_nat Pos.iter_op Nat.add seq map Z.of_nat
                    Pos.of_succ_nat Pos.succ].
  destruct i as [ | [ | [ | [ | i ] ] ] ]; try lia;
    cbn [nth]; apply (vget_map (fun a => a ^ _) x n Hn).
Qed.

End Polynomial.

Section Linearity.

Local Open Scope R_scope.

(** [A @ (u + a v)] is [A @ u + a (A @ v)]. *)
Lemma matvec_linear (A : matrix) (u v y z : vector) (a : R) :
  matvec A u = Ok y -> matvec A v = Ok z ->
  matvec A (mk_vector (ncols A) (fun i => vget u i + a * vget v i)) =
  Ok (mk_vector (nrows A) (fun n => vget y n + a * vget z n)).
Proof.
  intros Ey Ez. apply matvec_inv in Ey as [_ ->]. apply matvec_inv in Ez as [_ ->].
  rewrite matvec_ok by now rewrite length_mk_vector.
  f_equal. apply mk_vector_ext. intros n Hn.
  rewrite !vget_mk_vector by exact Hn.
  rewrite <- sum_n_scal, <- sum_n_plus. apply sum_n_ext. intros k Hk.
  rewrite vget_mk_vector by exact Hk. ring.
Qed.

End Linearity.

(** The value of [forward_func] at four coefficients. *)
Lemma forward_func_value (x m : vector) :
  length m = 4%nat ->
  linear_regression.forward_func x m =
  Ok (map (fun xn => vget m 0 + vget m 1 * xn + vget m 2 * xn ^ 2 + vget m 3 * xn ^ 3)
        x)%R.
Proof.
  intros L. unfold linear_regression.forward_func.
  rewrite matvec_ok by (rewrite L; reflexivity).
  f_equal. rewrite <- mk_vector_map.
  destruct (basis_func_shape x) as (-> & -> & _).
  apply mk_vector_ext. intros n Hn.
  cbn [sum_n]. rewrite !basis_func_entry by (auto; lia). ring.
Qed.

(** X1.  [forward_func] evaluates the cubic with coefficients [m] at every
    sample when [m] has four entries, and raises otherwise; at [_m_true] it
    is the cubic [-6 - 5 x + 2 x^2 + x^3] of the docstring. *)
Theorem forward_func_is_cubic (x m : vector) :
  (length m = 4%nat ->
   linear_regression.forward_func x m =
   Ok (map (fun xn => vget m 0 + vget m 1 * xn + vget m 2 * xn ^ 2 + vget m 3 * xn ^ 3)
         x)%R) /\
  (length m <> 4%nat -> linear_regression.forward_func x m = Raise matmul_error) /\
  linear_regression.forward_func x linear_regression._m_true =
  Ok (map (fun xn => - 6 - 5 * xn + 2 * xn ^ 2 + xn ^ 3) x)%R.
Proof.
  split; [ apply forward_func_value | split ].
  - intros L. unfold linear_regression.forward_func, matvec.
    destruct (Nat.eqb_spec (ncols (linear_regression.basis_func x)) (length m)) as [E | ];
      [ | reflexivity ].
    exfalso. apply L. symmetry. exact E.
  - rewrite forward_func_value by reflexivity. f_equal. apply map_ext. intros a.
    unfold linear_regression._m_true, vget. cbn [nth]. ring.
Qed.

(** Three samples and the coefficients of [1 + x^3]. *)
Lemma forward_func_is_cubic_witness :
  linear_regression.forward_func [0; 1; 2]%R [1; 0; 0; 1]%R =
  Ok (map (fun xn => vget [1; 0; 0; 1] 0 + vget [1; 0; 0; 1] 1 * xn
                     + vget [1; 0; 0; 1] 2 * xn ^ 2 + vget [1; 0; 0; 1] 3 * xn ^ 3)
        [0; 1; 2])%R /\
  linear_regression.forward_func [0; 1; 2]%R [1; 0; 1]%R = Raise matmul_error.
Proof.
  destruct (forward_func_is_cubic [0; 1; 2]%R [1; 0; 0; 1]%R) as (P & _ & _).
  destruct (forward_func_is_cubic [0; 1; 2]%R [1; 0; 1]%R) as (_ & Q & _).
  split; [ apply P; reflexivity | apply Q; discriminate ].
Defined.

(** X2.  [forward_func] is linear in the model: at [m + a h] it returns
    its value at [m] plus [a] times its value at [h]. *)
Theorem forward_func_is_linear (x m h y yh : vector) (a : R) :
  linear_regression.forward_func x m = Ok y ->
  linear_regression.forward_func x h = Ok yh ->
  linear_regression.forward_func x
    (mk_vector 4 (fun i => vget m i + a * vget h i)%R) =
  Ok (mk_vector (length x) (fun n => vget y n + a * vget yh n)%R).
Proof.
  intros Ey Eh.
  apply (matvec_linear (linear_regression.basis_func x) m h y yh a Ey Eh).
Qed.

(** [1 + x^3] plus twice [x], at three samples. *)
Lemma forward_func_is_linear_witness :
  linear_regression.forward_func [0; 1; 2]%R
    (mk_vector 4 (fun i => vget [1; 0; 0; 1] i + 2 * vget [0; 1; 0; 0] i)%R) =
  Ok (mk_vector 3 (fun n => vget [1; 2; 9] n + 2 * vget [0; 1; 2] n)%R).
Proof.
  apply (forward_func_is_linear [0; 1; 2]%R [1; 0; 0; 1]%R [0; 1; 0; 0]%R
           [1; 2; 9]%R [0; 1; 2]%R 2).
  - rewrite forward_func_value by reflexivity. cbn. arrays_eq; ring.
  - rewrite forward_func_value by reflexivity. cbn. arrays_eq; ring.
Defined.

(** ** Misfit, regularisation and objective of the ERT scripts *)

Section Objective.

Local Open Scope R_scope.

Lemma vecvec_ok (u v : vector) :
  length u = length v ->
  vecvec u v = Ok (sum_n (length u) (fun k => vget u k * vget v k)).
Proof. intros L. unfold vecvec. now rewrite L, Nat.eqb_refl. Qed.

Lemma vecvec_inv (u v : vector) (x : R) :
  vecvec u v = Ok x ->
  length u = length v /\ x = sum_n (length u) (fun k => vget u k * vget v k).
Proof.
  unfold vecvec. destruct (Nat.eqb_spec (length u) (length v)); [ | discriminate ].
  intros [= <-]. auto.
Qed.

Lemma sum_n_nonneg (n : nat) (f : nat -> R) :
  (forall k, (k < n)%nat -> 0 <= f k) -> 0 <= sum_n n f.
Proof.
  induction n as [ | n IH ]; intros P; simpl; [ lra | ].
  assert (0 <= sum_n n f) by (apply IH; auto with arith).
  assert (0 <= f n) by (apply P; lia). lra.
Qed.

Lemma sum_n_nonneg_zero (n : nat) (f : nat -> R) :
  (forall k, (k < n)%nat -> 0 <= f k) ->
  sum_n n f = 0 -> forall k, (k < n)%nat -> f k = 0.
Proof.
  induction n as [ | n IH ]; intros P E k Hk; [ lia | ]. simpl in E.
  assert (0 <= sum_n n f) by (apply sum_n_nonneg; auto with arith).
  assert (0 <= f n) by (apply P; lia).
  destruct (Nat.eq_dec k n) as [-> | Hne]; [ lra | ].
  apply IH; auto with arith; [ lra | lia ].
Qed.

Lemma square_nonneg (a : R) : 0 <= a * a.
Proof. nra. Qed.

(** The data misfit is the sum of the squared residuals. *)
Lemma get_data_misfit_value (forward_operator : pygimli.forward_operator)
    (model log_data : vector) :
  length log_data = length (get_response model forward_operator) ->
  get_data_misfit model log_data forward_operator =
  Ok (sum_n (length log_data)
        (fun k => (vget log_data k - vget (get_response model forward_operator) k)
                  * (vget log_data k - vget (get_response model forward_operator) k))).
Proof.
  intros L. unfold get_data_misfit, get_residual.
  rewrite subtract_ok by exact L. cbn [rbind].
  rewrite vecvec_ok by reflexivity. rewrite length_mk_vector. f_equal.
  apply sum_n_ext. intros k Hk. now rewrite vget_mk_vector by exact Hk.
Qed.

(** A value that [get_data_misfit] or [get_regularisation] returns is not
    negative (for the latter, when [lamda] is not). *)
Lemma get_data_misfit_nonneg (forward_operator : pygimli.forward_operator)
    (model log_data : vector) (x : R) :
  get_data_misfit model log_data forward_operator = Ok x -> 0 <= x.
Proof.
  unfold get_data_misfit.
  destruct (get_residual model log_data forward_operator) as [r | e]; cbn [rbind];
    [ | discriminate ].
  intros E. apply vecvec_inv in E as [_ ->].
  apply sum_n_nonneg. intros k _. apply square_nonneg.
Qed.

Lemma get_regularisation_nonneg (model : vector) (Wm : matrix) (lamda x : R) :
  0 <= lamda -> get_regularisation model Wm lamda = Ok x -> 0 <= x.
Proof.
  intros Hl. unfold get_regularisation.
  destruct (matvec Wm model) as [a | e]; cbn [rbind]; [ | discriminate ].
  intros E. apply vecvec_inv in E as [_ ->].
  apply sum_n_nonneg. intros k _. rewrite vget_scale.
  pose proof (square_nonneg (vget a k)). nra.
Qed.

End Objective.

(** X3.  Let every response of the forward operator be positive, so that
    its logarithm is a number.  With as many data as responses,
    [get_data_misfit] returns the sum of the squared residuals, which is not
    negative and is zero exactly when the log data equal the log response,
    and a single datum is broadcast against all responses without an error.
    Whatever the responses, any other mismatch of lengths raises. *)
Theorem data_misfit_is_zero_on_exact_fit
    (forward_operator : pygimli.forward_operator) (model log_data : vector) :
  (Forall (fun r => 0 < r)%R (pygimli.response forward_operator model) ->
   length log_data = length (get_response model forward_operator) ->
   exists x,
     get_data_misfit model log_data forward_operator = Ok x /\
     (0 <= x)%R /\
     (x = 0%R <-> log_data = get_response model forward_operator)) /\
  (Forall (fun r => 0 < r)%R (pygimli.response forward_operator model) ->
   length log_data = 1%nat ->
   length (get_response model forward_operator) <> 1%nat ->
   get_data_misfit model log_data forward_operator =
   Ok (sum_n (length (get_response model forward_operator))
         (fun k => (vget log_data 0 - vget (get_response model forward_operator) k)
                   * (vget log_data 0 - vget (get_response model forward_operator) k))%R)) /\
  (length log_data <> length (get_response model forward_operator) ->
   length log_data <> 1%nat ->
   length (get_response model forward_operator) <> 1%nat ->
   get_data_misfit model log_data forward_operator = Raise broadcast_error).
Proof.
  split; [ | split ].
  - intros _ L. eexists. split; [ apply get_data_misfit_value; exact L | ]. split.
    + apply sum_n_nonneg. intros k _. apply square_nonneg.
    + split.
      * intros E. apply vector_ext; [ exact L | ]. intros k Hk.
        pose proof (sum_n_nonneg_zero _ _ (fun k _ => square_nonneg _) E k Hk) as Z.
        cbv beta in Z. nra.
      * intros E. apply sum_n_zero. intros k Hk. rewrite <- E. ring.
  - intros _ L1 Ln. unfold get_data_misfit, get_residual, subtract, broadcast1.
    unfold bdim. rewrite L1.
    destruct (Nat.eqb_spec 1 (length (get_response model forward_operator))) as [E | _];
      [ exfalso; apply Ln; now rewrite <- E | ].
    cbn [Nat.eqb rbind].
    rewrite vecvec_ok by reflexivity. rewrite length_mk_vector. f_equal.
    apply sum_n_ext. intros k Hk. rewrite vget_mk_vector by exact Hk.
    unfold bvget. rewrite L1. cbn [Nat.eqb].
    destruct (Nat.eqb_spec (length (get_response model forward_operator)) 1);
      [ contradiction | reflexivity ].
  - intros Ln L1 Lr. unfold get_data_misfit, get_residual, subtract, broadcast1, bdim.
    destruct (Nat.eqb_spec (length log_data)
                (length (get_response model forward_operator))); [ contradiction | ].
    destruct (Nat.eqb_spec (length log_data) 1); [ contradiction | ].
    destruct (Nat.eqb_spec (length (get_response model forward_operator)) 1);
      [ contradiction | reflexivity ].
Qed.

(** The product forward operator at [(1, 1)], whose responses are 1 and 1:
    fitted exactly, given one datum, and given three data. *)
Lemma data_misfit_is_zero_on_exact_fit_witness :
  (exists x,
      get_data_misfit [1; 1]%R (get_response [1; 1]%R example.fop_product)
        example.fop_product = Ok x /\
      (0 <= x)%R /\
      (x = 0%R <->
       get_response [1; 1]%R example.fop_product =
       get_response [1; 1]%R example.fop_product)) /\
  get_data_misfit [1; 1]%R [3]%R example.fop_product =
    Ok (sum_n 2
          (fun k => (vget [3] 0 - vget (get_response [1; 1] example.fop_product) k)
                    * (vget [3] 0 - vget (get_response [1; 1] example.fop_product) k))%R) /\
  get_data_misfit [1; 1]%R [1; 2; 3]%R example.fop_product = Raise broadcast_error.
Proof.
  assert (P : Forall (fun r => 0 < r)%R (pygimli.response example.fop_product [1; 1]%R)).
  { unfold example.fop_product, vget. cbn [pygimli.response nth].
    repeat constructor; lra. }
  split; [ | split ].
  - apply (proj1 (data_misfit_is_zero_on_exact_fit example.fop_product [1; 1]%R
                    (get_response [1; 1]%R example.fop_product))).
    + exact P.
    + reflexivity.
  - apply (proj1 (proj2 (data_misfit_is_zero_on_exact_fit example.fop_product
                           [1; 1]%R [3]%R))).
    + exact P.
    + reflexivity.
    + discriminate.
  - apply (proj2 (proj2 (data_misfit_is_zero_on_exact_fit example.fop_product
                           [1; 1]%R [1; 2; 3]%R))); discriminate.
Defined.

(** X4.  Whenever [get_objective] returns, with [lamda] not negative, the
    value is the sum of a data misfit and a regularisation term that are
    both not negative. *)
Theorem objective_is_not_negative
    (forward_operator : pygimli.forward_operator) (model log_data : vector)
    (Wm : matrix) (lamda x : R) :
  (0 <= lamda)%R ->
  get_objective model log_data forward_operator Wm lamda = Ok x ->
  exists misfit reg,
    get_data_misfit model log_data forward_operator = Ok misfit /\
    get_regularisation model Wm lamda = Ok reg /\
    x = (misfit + reg)%R /\ (0 <= misfit)%R /\ (0 <= reg)%R /\ (0 <= x)%R.
Proof.
  intros Hl. unfold get_objective.
  destruct (get_data_misfit model log_data forward_operator) as [a | e] eqn:Ea;
    cbn [rbind]; [ | discriminate ].
  destruct (get_regularisation model Wm lamda) as [b | e] eqn:Eb;
    cbn [rbind]; [ | discriminate ].
  intros [= <-]. exists a, b.
  pose proof (get_data_misfit_nonneg _ _ _ _ Ea).
  pose proof (get_regularisation_nonneg _ _ _ _ Hl Eb).
  repeat split; auto. lra.
Qed.

(** The product forward operator with the first-difference regularisation. *)
Lemma objective_is_not_negative_witness :
  exists x,
    get_objective [1; 1]%R [1; 2]%R example.fop_product example.smooth 20 = Ok x /\
    (0 <= x)%R.
Proof.
  assert (E : exists x,
             get_objective [1; 1]%R [1; 2]%R example.fop_product example.smooth 20
             = Ok x).
  { eexists. unfold get_objective, get_data_misfit, get_residual, get_regularisation.
    cbn -[Rtrigo_def.exp ln Rmult Rplus Rminus Rdiv Ropp IZR]. reflexivity. }
  destruct E as [x E]. exists x. split; [ exact E | ].
  destruct (objective_is_not_negative example.fop_product [1; 1]%R [1; 2]%R
              example.smooth 20 x ltac:(lra) E) as (a & b & _ & _ & _ & _ & _ & H).
  exact H.
Defined.

(** [np.abs] of a sum of squares is that sum. *)
Lemma scipy_get_data_misfit_eq (forward_operator : pygimli.forward_operator)
    (model log_data : vector) :
  pygimli_ert_scipy_minimize.get_data_misfit model log_data forward_operator =
  get_data_misfit model log_data forward_operator.
Proof.
  unfold pygimli_ert_scipy_minimize.get_data_misfit, get_data_misfit.
  change (pygimli_ert_scipy_minimize.get_residual model log_data forward_operator)
    with (get_residual model log_data forward_operator).
  destruct (get_residual model log_data forward_operator) as [r | e]; cbn [rbind];
    [ | reflexivity ].
  destruct (vecvec r r) as [x | e] eqn:E; cbn [rbind]; [ | reflexivity ].
  apply vecvec_inv in E as [_ ->]. f_equal. apply Rabs_right, Rle_ge.
  apply sum_n_nonneg. intros k _. apply square_nonneg.
Qed.

Lemma scipy_get_objective_eq (forward_operator : pygimli.forward_operator)
    (model log_data : vector) (Wm : matrix) (lamda : R) :
  pygimli_ert_scipy_minimize.get_objective model log_data forward_operator Wm lamda =
  get_objective model log_data forward_operator Wm lamda.
Proof.
  unfold pygimli_ert_scipy_minimize.get_objective, get_objective.
  now rewrite scipy_get_data_misfit_eq.
Qed.

(** X5.  The scipy-minimize script computes the same residual, Jacobian,
    data misfit, regularisation, objective and Hessian as the Gauss-Newton
    script: its [np.abs] around the misfit changes nothing, so that the two
    scripts differ in the gradient only. *)
Theorem scipy_script_differs_in_gradient_only
    (forward_operator : pygimli.forward_operator) (model log_data : vector)
    (Wm : matrix) (lamda : R) :
  pygimli_ert_scipy_minimize.get_residual model log_data forward_operator =
    get_residual model log_data forward_operator /\
  pygimli_ert_scipy_minimize.get_jacobian model forward_operator =
    get_jacobian model forward_operator /\
  pygimli_ert_scipy_minimize.get_data_misfit model log_data forward_operator =
    get_data_misfit model log_data forward_operator /\
  pygimli_ert_scipy_minimize.get_regularisation model Wm lamda =
    get_regularisation model Wm lamda /\
  pygimli_ert_scipy_minimize.get_objective model log_data forward_operator Wm lamda =
    get_objective model log_data forward_operator Wm lamda /\
  pygimli_ert_scipy_minimize.get_hessian model log_data forward_operator Wm lamda =
    get_hessian model log_data forward_operator Wm lamda.
Proof.
  split; [ reflexivity | ]. split; [ reflexivity | ].
  split; [ apply scipy_get_data_misfit_eq | ]. split; [ reflexivity | ].
  split; [ apply scipy_get_objective_eq | reflexivity ].
Qed.

(** ** Gradient and Hessian against the objective *)

Section QuadraticForms.

Local Open Scope R_scope.

(** The bilinear form of [A^T B] is the inner product of [A u] and [B v]. *)
Lemma bilinear_gram (n p q : nat) (A B : nat -> nat -> R) (u v : nat -> R) :
  sum_n p (fun i => u i * sum_n q (fun j => sum_n n (fun k => A k i * B k j) * v j)) =
  sum_n n (fun k => sum_n p (fun i => A k i * u i) * sum_n q (fun j => B k j * v j)).
Proof.
  transitivity
    (sum_n p (fun i => sum_n n (fun k =>
       A k i * u i * sum_n q (fun j => B k j * v j)))).
  - apply sum_n_ext. intros i _.
    transitivity
      (u i * sum_n q (fun j => sum_n n (fun k => A k i * (B k j * v j)))).
    + f_equal. apply sum_n_ext. intros j _.
      rewrite <- sum_n_scal_r. apply sum_n_ext. intros k _. ring.
    + rewrite sum_n_swap, <- sum_n_scal. apply sum_n_ext. intros k _.
      rewrite sum_n_scal. ring.
  - rewrite sum_n_swap. apply sum_n_ext. intros k _.
    rewrite <- sum_n_scal_r. reflexivity.
Qed.

Lemma sum_n_opp (n : nat) (f : nat -> R) : sum_n n (fun k => - f k) = - sum_n n f.
Proof. induction n as [ | n IH ]; simpl; [ ring | rewrite IH; ring ]. Qed.

Lemma nrows_mk_matrix (n m : nat) (f : nat -> nat -> R) : nrows (mk_matrix n m f) = n.
Proof. reflexivity. Qed.

Lemma ncols_mk_matrix (n m : nat) (f : nat -> nat -> R) : ncols (mk_matrix n m f) = m.
Proof. reflexivity. Qed.

(** The regularisation is [lamda] times the squared norm of [Wm @ model]. *)
Lemma get_regularisation_value (model : vector) (Wm : matrix) (lamda : R) :
  ncols Wm = length model ->
  get_regularisation model Wm lamda =
  Ok (lamda * sum_n (nrows Wm) (fun i =>
        sum_n (ncols Wm) (fun l => mget Wm i l * vget model l)
        * sum_n (ncols Wm) (fun l => mget Wm i l * vget model l))).
Proof.
  intros L. unfold get_regularisation.
  rewrite matvec_ok by exact L. cbn [rbind].
  rewrite vecvec_ok by (now rewrite length_scale).
  rewrite length_scale, length_mk_vector. f_equal.
  rewrite <- sum_n_scal. apply sum_n_ext. intros i Hi.
  rewrite vget_scale, vget_mk_vector by exact Hi. ring.
Qed.

(** The quadratic form of the Hessian formula. *)
Lemma quadratic_form_value (J Wm : matrix) (lamda : R) (h : vector) :
  length h = ncols J -> ncols Wm = ncols J ->
  exists Hh,
    matvec (hessian_formula_unweighted J Wm lamda) h = Ok Hh /\
    vecvec h Hh =
    Ok (sum_n (nrows J) (fun k =>
          sum_n (ncols J) (fun i => mget J k i * vget h i)
          * sum_n (ncols J) (fun i => mget J k i * vget h i))
        + lamda * sum_n (nrows Wm) (fun k =>
            sum_n (ncols J) (fun i => mget Wm k i * vget h i)
            * sum_n (ncols J) (fun i => mget Wm k i * vget h i))).
Proof.
  intros Lh LW. eexists. split.
  - apply matvec_ok. cbn. congruence.
  - unfold hessian_formula_unweighted. rewrite nrows_mk_matrix, ncols_mk_matrix.
    rewrite vecvec_ok by now rewrite length_mk_vector.
    f_equal. rewrite Lh.
    rewrite <- (bilinear_gram (nrows J) (ncols J) (ncols J) (mget J) (mget J)
                  (vget h) (vget h)).
    rewrite <- (bilinear_gram (nrows Wm) (ncols J) (ncols J) (mget Wm) (mget Wm)
                  (vget h) (vget h)).
    rewrite <- sum_n_scal, <- sum_n_plus. apply sum_n_ext. intros i Hi.
    rewrite vget_mk_vector by exact Hi.
    transitivity
      (vget h i * (sum_n (ncols J) (fun j =>
                     sum_n (nrows J) (fun k => mget J k i * mget J k j) * vget h j)
                   + lamda * sum_n (ncols J) (fun j =>
                       sum_n (nrows Wm) (fun k => mget Wm k i * mget Wm k j)
                       * vget h j))); [ | ring ].
    f_equal. rewrite <- sum_n_scal, <- sum_n_plus. apply sum_n_ext. intros j Hj.
    rewrite mget_mk_matrix by assumption. ring.
Qed.

End QuadraticForms.

(** X6.  The Hessian that [get_hessian] returns is a square matrix of the
    size of the model, symmetric, and, when [lamda] is not negative, positive
    semi-definite: [h^T H h] is the squared norm of [J h] plus [lamda] times
    the squared norm of [Wm h]. *)
Theorem hessian_is_symmetric_positive_semidefinite
    (forward_operator : pygimli.forward_operator) (model log_data : vector)
    (Wm J : matrix) (lamda : R) :
  get_jacobian model forward_operator = Ok J ->
  ncols Wm = ncols J ->
  exists H,
    get_hessian model log_data forward_operator Wm lamda = Ok H /\
    wf H /\ nrows H = ncols J /\ ncols H = ncols J /\
    (forall i j, (i < ncols J)%nat -> (j < ncols J)%nat -> mget H i j = mget H j i) /\
    (forall h, length h = ncols J ->
       exists Hh q,
         matvec H h = Ok Hh /\ vecvec h Hh = Ok q /\
         q = (sum_n (nrows J) (fun k =>
                sum_n (ncols J) (fun i => mget J k i * vget h i)
                * sum_n (ncols J) (fun i => mget J k i * vget h i))
              + lamda * sum_n (nrows Wm) (fun k =>
                  sum_n (ncols J) (fun i => mget Wm k i * vget h i)
                  * sum_n (ncols J) (fun i => mget Wm k i * vget h i)))%R /\
         ((0 <= lamda)%R -> (0 <= q)%R)).
Proof.
  intros EJ LW. exists (hessian_formula_unweighted J Wm lamda).
  split; [ now apply ert_get_hessian_value | ].
  split; [ apply wf_mk_matrix | ]. split; [ reflexivity | ]. split; [ reflexivity | ].
  split.
  - intros i j Hi Hj. unfold hessian_formula_unweighted.
    rewrite !mget_mk_matrix by assumption. f_equal.
    + apply sum_n_ext. intros k _. ring.
    + f_equal. apply sum_n_ext. intros k _. ring.
  - intros h Lh. destruct (quadratic_form_value J Wm lamda h Lh LW) as (Hh & E1 & E2).
    eexists Hh, _. split; [ exact E1 | ]. split; [ exact E2 | ]. split; [ reflexivity | ].
    intros Hl.
    assert (0 <= sum_n (nrows J) (fun k =>
                   sum_n (ncols J) (fun i => mget J k i * vget h i)
                   * sum_n (ncols J) (fun i => mget J k i * vget h i)))%R
      by (apply sum_n_nonneg; intros k _; apply square_nonneg).
    assert (0 <= sum_n (nrows Wm) (fun k =>
                   sum_n (ncols J) (fun i => mget Wm k i * vget h i)
                   * sum_n (ncols J) (fun i => mget Wm k i * vget h i)))%R
      by (apply sum_n_nonneg; intros k _; apply square_nonneg).
    nra.
Qed.

(** The product forward operator at [(1, 1)] with the first-difference
    regularisation. *)
Lemma hessian_is_symmetric_positive_semidefinite_witness :
  exists H,
    get_hessian [1; 1]%R [1; 2]%R example.fop_product example.smooth 20 = Ok H /\
    wf H /\ nrows H = 2%nat /\ ncols H = 2%nat /\
    (forall i j, (i < 2)%nat -> (j < 2)%nat -> mget H i j = mget H j i).
Proof.
  destruct (hessian_is_symmetric_positive_semidefinite example.fop_product
              [1; 1]%R [1; 2]%R example.smooth example.ert_jacobian 20)
    as (H & E & W & Sr & Sc & Sy & _).
  - rewrite ert_get_jacobian_value. apply rescale_entries; reflexivity.
  - reflexivity.
  - exists H. repeat split; try assumption; apply W.
Defined.

Section Expansion.

Local Open Scope R_scope.

Variable forward_operator : pygimli.forward_operator.
Variables J Wm : matrix.
Variables d m : vector.
Variable lamda : R.

Hypothesis jacobian_is_J : get_jacobian m forward_operator = Ok J.
Hypothesis data_length : length d = nrows J.
Hypothesis response_length : length (get_response m forward_operator) = nrows J.
Hypothesis model_length : length m = ncols J.
Hypothesis Wm_columns : ncols Wm = ncols J.

(** The gradient of the Gauss-Newton script, entry by entry. *)
Lemma gn_gradient_value :
  get_gradient m d forward_operator Wm lamda =
  Ok (mk_vector (ncols J) (fun j =>
        - 2 * sum_n (nrows J) (fun k =>
                (vget d k - vget (get_response m forward_operator) k) * mget J k j)
        + 2 * lamda * sum_n (ncols J) (fun l =>
                sum_n (nrows Wm) (fun k => mget Wm k j * mget Wm k l) * vget m l))).
Proof.
  unfold get_gradient. rewrite ert_get_jac_residual_value.
  rewrite subtract_ok by congruence.
  cbn [rbind]. rewrite jacobian_is_J. cbn [rbind].
  rewrite vecmat_ok by (rewrite length_scale, length_mk_vector; exact data_length).
  cbn [rbind]. rewrite regularisation_hessian. cbn [rbind].
  rewrite matvec_ok by (rewrite ncols_mk_matrix; congruence).
  cbn [rbind]. rewrite nrows_mk_matrix, ncols_mk_matrix.
  rewrite add_ok by (rewrite !length_mk_vector; auto).
  f_equal. rewrite length_mk_vector, Wm_columns.
  apply mk_vector_ext. intros j Hj.
  rewrite !vget_mk_vector by assumption. f_equal.
  - rewrite <- sum_n_scal. apply sum_n_ext. intros k Hk.
    rewrite vget_scale, vget_mk_vector by (rewrite data_length; exact Hk). ring.
  - rewrite <- sum_n_scal. apply sum_n_ext. intros l Hl.
    rewrite mget_mk_matrix by assumption. ring.
Qed.

(** The objective of the Gauss-Newton script. *)
Lemma gn_objective_value :
  get_objective m d forward_operator Wm lamda =
  Ok (sum_n (nrows J) (fun k =>
        (vget d k - vget (get_response m forward_operator) k)
        * (vget d k - vget (get_response m forward_operator) k))
      + lamda * sum_n (nrows Wm) (fun i =>
          sum_n (ncols J) (fun l => mget Wm i l * vget m l)
          * sum_n (ncols J) (fun l => mget Wm i l * vget m l))).
Proof.
  unfold get_objective.
  rewrite get_data_misfit_value by congruence. cbn [rbind].
  rewrite get_regularisation_value by congruence. cbn [rbind].
  now rewrite data_length, Wm_columns.
Qed.

End Expansion.

Section ExpansionSums.

Local Open Scope R_scope.

Lemma sum_n_square_minus (n : nat) (r b : nat -> R) :
  sum_n n (fun k => (r k - b k) * (r k - b k)) =
  sum_n n (fun k => r k * r k) - 2 * sum_n n (fun k => r k * b k)
  + sum_n n (fun k => b k * b k).
Proof. induction n as [ | n IH ]; simpl; [ ring | rewrite IH; ring ]. Qed.

Lemma sum_n_square_plus (n : nat) (c e : nat -> R) :
  sum_n n (fun k => (c k + e k) * (c k + e k)) =
  sum_n n (fun k => c k * c k) + 2 * sum_n n (fun k => e k * c k)
  + sum_n n (fun k => e k * e k).
Proof. induction n as [ | n IH ]; simpl; [ ring | rewrite IH; ring ]. Qed.

(** The inner product of the gradient with a step [h]. *)
Lemma gradient_dot_step (N K M : nat) (r : nat -> R) (J W : nat -> nat -> R)
    (mm h : nat -> R) (lamda : R) :
  sum_n M (fun j =>
    (- 2 * sum_n N (fun k => r k * J k j)
     + 2 * lamda * sum_n M (fun l => sum_n K (fun k => W k j * W k l) * mm l))
    * h j) =
  - 2 * sum_n N (fun k => r k * sum_n M (fun i => J k i * h i))
  + 2 * lamda * sum_n K (fun k =>
      sum_n M (fun i => W k i * h i) * sum_n M (fun l => W k l * mm l)).
Proof.
  rewrite <- (bilinear_gram K M M W W h mm).
  transitivity
    (- 2 * sum_n M (fun j => sum_n N (fun k => r k * (J k j * h j)))
     + 2 * lamda * sum_n M (fun j =>
         h j * sum_n M (fun l => sum_n K (fun k => W k j * W k l) * mm l))).
  - rewrite <- !sum_n_scal, <- sum_n_plus. apply sum_n_ext. intros j _.
    rewrite (sum_n_ext N (fun k => r k * (J k j * h j)) (fun k => r k * J k j * h j))
      by (intros; ring).
    rewrite (sum_n_scal_r N (h j)). ring.
  - f_equal. f_equal. rewrite sum_n_swap. apply sum_n_ext. intros k _.
    now rewrite sum_n_scal.
Qed.

End ExpansionSums.

Section Step.

Local Open Scope R_scope.

Variable forward_operator : pygimli.forward_operator.
Variables J Wm : matrix.
Variables d m h mh Jh : vector.
Variable lamda : R.

Hypothesis data_length : length d = nrows J.
Hypothesis response_length : length (get_response m forward_operator) = nrows J.
Hypothesis model_length : length m = ncols J.
Hypothesis step_length : length h = ncols J.
Hypothesis Wm_columns : ncols Wm = ncols J.
Hypothesis step : add m h = Ok mh.
Hypothesis Jh_value : matvec J h = Ok Jh.
Hypothesis linear_response :
  add (get_response m forward_operator) Jh = Ok (get_response mh forward_operator).

(** The objective after the step, in terms of the residual at [m], of
    [J h], of [Wm m] and of [Wm h]. *)
Lemma objective_step_value :
  get_objective mh d forward_operator Wm lamda =
  Ok ((sum_n (nrows J) (fun k =>
         (vget d k - vget (get_response m forward_operator) k)
         * (vget d k - vget (get_response m forward_operator) k))
       + lamda * sum_n (nrows Wm) (fun i =>
           sum_n (ncols J) (fun l => mget Wm i l * vget m l)
           * sum_n (ncols J) (fun l => mget Wm i l * vget m l)))
      + (- 2 * sum_n (nrows J) (fun k =>
                 (vget d k - vget (get_response m forward_operator) k)
                 * sum_n (ncols J) (fun i => mget J k i * vget h i))
         + 2 * lamda * sum_n (nrows Wm) (fun k =>
             sum_n (ncols J) (fun i => mget Wm k i * vget h i)
             * sum_n (ncols J) (fun l => mget Wm k l * vget m l)))
      + (sum_n (nrows J) (fun k =>
           sum_n (ncols J) (fun i => mget J k i * vget h i)
           * sum_n (ncols J) (fun i => mget J k i * vget h i))
         + lamda * sum_n (nrows Wm) (fun k =>
             sum_n (ncols J) (fun i => mget Wm k i * vget h i)
             * sum_n (ncols J) (fun i => mget Wm k i * vget h i)))).
Proof.
  pose proof step as Emh. pose proof Jh_value as EJh. pose proof linear_response as Er.
  rewrite add_ok in Emh by congruence. injection Emh as Emh.
  apply matvec_inv in EJh as [_ EJh].
  rewrite add_ok in Er by (rewrite EJh, length_mk_vector; exact response_length).
  injection Er as Er.
  rewrite (gn_objective_value forward_operator J Wm d mh lamda data_length)
    by (rewrite <- ?Er, <- ?Emh, ?length_mk_vector; congruence).
  f_equal.
  rewrite (sum_n_ext (nrows J)
             (fun k => (vget d k - vget (get_response mh forward_operator) k)
                       * (vget d k - vget (get_response mh forward_operator) k))
             (fun k => ((vget d k - vget (get_response m forward_operator) k)
                        - sum_n (ncols J) (fun i => mget J k i * vget h i))
                       * ((vget d k - vget (get_response m forward_operator) k)
                          - sum_n (ncols J) (fun i => mget J k i * vget h i)))).
  2:{ intros k Hk. rewrite <- Er, response_length, vget_mk_vector by exact Hk.
      rewrite EJh, vget_mk_vector by exact Hk. ring. }
  rewrite (sum_n_ext (nrows Wm)
             (fun i => sum_n (ncols J) (fun l => mget Wm i l * vget mh l)
                       * sum_n (ncols J) (fun l => mget Wm i l * vget mh l))
             (fun i => (sum_n (ncols J) (fun l => mget Wm i l * vget m l)
                        + sum_n (ncols J) (fun l => mget Wm i l * vget h l))
                       * (sum_n (ncols J) (fun l => mget Wm i l * vget m l)
                          + sum_n (ncols J) (fun l => mget Wm i l * vget h l)))).
  2:{ intros i Hi.
      assert (S : sum_n (ncols J) (fun l => mget Wm i l * vget mh l)
                  = sum_n (ncols J) (fun l => mget Wm i l * vget m l)
                    + sum_n (ncols J) (fun l => mget Wm i l * vget h l)).
      { rewrite <- sum_n_plus. apply sum_n_ext. intros l Hl.
        rewrite <- Emh, model_length, vget_mk_vector by exact Hl. ring. }
      now rewrite S. }
  rewrite sum_n_square_minus, sum_n_square_plus. ring.
Qed.

(** The gradient of the scipy-minimize script, entry by entry. *)
Lemma scipy_gradient_value :
  get_jacobian m forward_operator = Ok J ->
  pygimli_ert_scipy_minimize.get_gradient m d forward_operator Wm lamda =
  Ok (mk_vector (ncols J) (fun j =>
        - sum_n (nrows J) (fun k =>
            (vget d k - vget (get_response m forward_operator) k) * mget J k j)
        + lamda * sum_n (ncols J) (fun l =>
            sum_n (nrows Wm) (fun k => mget Wm k j * mget Wm k l) * vget m l))).
Proof.
  intros EJ. unfold pygimli_ert_scipy_minimize.get_gradient.
  change (pygimli_ert_scipy_minimize.get_jac_residual m d forward_operator)
    with (get_jac_residual m d forward_operator).
  rewrite ert_get_jac_residual_value.
  rewrite subtract_ok by congruence.
  cbn [rbind]. rewrite EJ. cbn [rbind].
  rewrite vecmat_ok by (rewrite length_negative, length_mk_vector; exact data_length).
  cbn [rbind]. rewrite regularisation_hessian. cbn [rbind].
  rewrite matvec_ok by (rewrite ncols_mk_matrix; congruence).
  cbn [rbind]. rewrite nrows_mk_matrix, ncols_mk_matrix.
  rewrite add_ok by (rewrite !length_mk_vector; auto).
  f_equal. rewrite length_mk_vector, Wm_columns.
  apply mk_vector_ext. intros j Hj.
  rewrite !vget_mk_vector by assumption. f_equal.
  - rewrite <- sum_n_opp. apply sum_n_ext. intros k Hk.
    rewrite vget_negative, vget_mk_vector by (rewrite data_length; exact Hk). ring.
  - rewrite <- sum_n_scal. apply sum_n_ext. intros l Hl.
    rewrite mget_mk_matrix by assumption. ring.
Qed.

End Step.

(** X7.  The objective, the gradient and the Hessian of the Gauss-Newton
    script fit together: when the log response is linear along a step [h],
    [response (m + h) = response m + J h] for the Jacobian [J] that
    [get_jacobian] returns at [m], the objective at [m + h] is the objective
    at [m] plus [gradient . h] plus [h^T Hessian h]. *)
Theorem objective_expands_along_linear_response
    (forward_operator : pygimli.forward_operator)
    (J Wm : matrix) (d m h mh Jh : vector) (lamda : R) :
  get_jacobian m forward_operator = Ok J ->
  length d = nrows J ->
  length (get_response m forward_operator) = nrows J ->
  length m = ncols J ->
  length h = ncols J ->
  ncols Wm = ncols J ->
  add m h = Ok mh ->
  matvec J h = Ok Jh ->
  add (get_response m forward_operator) Jh = Ok (get_response mh forward_operator) ->
  exists obj g H gh Hh q,
    get_objective m d forward_operator Wm lamda = Ok obj /\
    get_gradient m d forward_operator Wm lamda = Ok g /\
    get_hessian m d forward_operator Wm lamda = Ok H /\
    vecvec g h = Ok gh /\
    matvec H h = Ok Hh /\
    vecvec h Hh = Ok q /\
    get_objective mh d forward_operator Wm lamda = Ok (obj + gh + q)%R.
Proof.
  intros EJ Ld Lr Lm Lh LW Emh EJh Eresp.
  destruct (quadratic_form_value J Wm lamda h Lh LW) as (Hh & EHh & Eq).
  eexists _, _, (hessian_formula_unweighted J Wm lamda), _, Hh, _.
  split; [ apply (gn_objective_value forward_operator J Wm d m lamda Ld Lr Lm LW) | ].
  split; [ apply (gn_gradient_value forward_operator J Wm d m lamda EJ Ld Lr Lm LW) | ].
  split; [ now apply ert_get_hessian_value | ].
  split; [ apply vecvec_ok; now rewrite length_mk_vector | ].
  split; [ exact EHh | ]. split; [ exact Eq | ].
  rewrite (objective_step_value forward_operator J Wm d m h mh Jh lamda
             Ld Lr Lm Lh LW Emh EJh Eresp).
  f_equal. rewrite length_mk_vector.
  rewrite (sum_n_ext (ncols J) _ _
             (fun j Hj => f_equal (fun x => Rmult x (vget h j))
                            (vget_mk_vector (ncols J) _ j Hj))).
  now rewrite gradient_dot_step.
Qed.

(** The forward operator with the log response [(m0, m0)], from 2 along the
    step 1. *)
Lemma objective_expands_along_linear_response_witness :
  exists obj g H gh Hh q,
    get_objective [2]%R example.line_data example.fop_line example.line_damping 20
      = Ok obj /\
    get_gradient [2]%R example.line_data example.fop_line example.line_damping 20
      = Ok g /\
    get_hessian [2]%R example.line_data example.fop_line example.line_damping 20
      = Ok H /\
    vecvec g [1]%R = Ok gh /\
    matvec H [1]%R = Ok Hh /\
    vecvec [1]%R Hh = Ok q /\
    get_objective [3]%R example.line_data example.fop_line example.line_damping 20
      = Ok (obj + gh + q)%R.
Proof.
  apply (objective_expands_along_linear_response example.fop_line example.line_G
           example.line_damping example.line_data [2]%R [1]%R [3]%R [1; 1]%R 20).
  - rewrite ert_get_jacobian_value, rescale_entries by reflexivity.
    unfold example.line_G, mk_matrix. cbn. rewrite ln_exp, exp_ln by lra.
    arrays_eq; field; apply Rgt_not_eq, exp_pos.
  - reflexivity.
  - reflexivity.
  - reflexivity.
  - reflexivity.
  - reflexivity.
  - unfold add, broadcast1. cbn. arrays_eq; ring.
  - unfold matvec. cbn. arrays_eq; ring.
  - unfold add, broadcast1, get_response, np.log, array. cbn. rewrite !ln_exp.
    arrays_eq; ring.
Defined.

(** X8.  In the scipy-minimize script the gradient is half of what the
    objective calls for: along a step [h] on which the log response is
    linear, the objective at [m + h] is the objective at [m] plus twice
    [gradient . h] plus [h^T Hessian h]. *)
Theorem scipy_gradient_is_half_the_slope_of_the_objective
    (forward_operator : pygimli.forward_operator)
    (J Wm : matrix) (d m h mh Jh : vector) (lamda : R) :
  get_jacobian m forward_operator = Ok J ->
  length d = nrows J ->
  length (get_response m forward_operator) = nrows J ->
  length m = ncols J ->
  length h = ncols J ->
  ncols Wm = ncols J ->
  add m h = Ok mh ->
  matvec J h = Ok Jh ->
  add (get_response m forward_operator) Jh = Ok (get_response mh forward_operator) ->
  exists obj g H gh Hh q,
    pygimli_ert_scipy_minimize.get_objective m d forward_operator Wm lamda = Ok obj /\
    pygimli_ert_scipy_minimize.get_gradient m d forward_operator Wm lamda = Ok g /\
    pygimli_ert_scipy_minimize.get_hessian m d forward_operator Wm lamda = Ok H /\
    vecvec g h = Ok gh /\
    matvec H h = Ok Hh /\
    vecvec h Hh = Ok q /\
    pygimli_ert_scipy_minimize.get_objective mh d forward_operator Wm lamda =
    Ok (obj + 2 * gh + q)%R.
Proof.
  intros EJ Ld Lr Lm Lh LW Emh EJh Eresp.
  destruct (quadratic_form_value J Wm lamda h Lh LW) as (Hh & EHh & Eq).
  eexists _, _, (hessian_formula_unweighted J Wm lamda), _, Hh, _.
  rewrite !scipy_get_objective_eq.
  split; [ apply (gn_objective_value forward_operator J Wm d m lamda Ld Lr Lm LW) | ].
  split; [ eapply scipy_gradient_value; eassumption | ].
  split; [ now apply (ert_get_hessian_value forward_operator m d Wm lamda J) | ].
  split; [ apply vecvec_ok; now rewrite length_mk_vector | ].
  split; [ exact EHh | ]. split; [ exact Eq | ].
  rewrite (objective_step_value forward_operator J Wm d m h mh Jh lamda
             Ld Lr Lm Lh LW Emh EJh Eresp).
  f_equal. rewrite length_mk_vector.
  rewrite <- gradient_dot_step.
  f_equal. f_equal. rewrite <- sum_n_scal. apply sum_n_ext. intros j Hj.
  rewrite vget_mk_vector by exact Hj. ring.
Qed.

(** The forward operator with the log response [(m0, m0)], from 2 along the
    step 1. *)
Lemma scipy_gradient_is_half_the_slope_of_the_objective_witness :
  exists obj g H gh Hh q,
    pygimli_ert_scipy_minimize.get_objective [2]%R example.line_data example.fop_line
      example.line_damping 20 = Ok obj /\
    pygimli_ert_scipy_minimize.get_gradient [2]%R example.line_data example.fop_line
      example.line_damping 20 = Ok g /\
    pygimli_ert_scipy_minimize.get_hessian [2]%R example.line_data example.fop_line
      example.line_damping 20 = Ok H /\
    vecvec g [1]%R = Ok gh /\
    matvec H [1]%R = Ok Hh /\
    vecvec [1]%R Hh = Ok q /\
    pygimli_ert_scipy_minimize.get_objective [3]%R example.line_data example.fop_line
      example.line_damping 20 = Ok (obj + 2 * gh + q)%R.
Proof.
  apply (scipy_gradient_is_half_the_slope_of_the_objective example.fop_line
           example.line_G example.line_damping example.line_data
           [2]%R [1]%R [3]%R [1; 1]%R 20).
  - rewrite ert_get_jacobian_value, rescale_entries by reflexivity.
    unfold example.line_G, mk_matrix. cbn. rewrite ln_exp, exp_ln by lra.
    arrays_eq; field; apply Rgt_not_eq, exp_pos.
  - reflexivity.
  - reflexivity.
  - reflexivity.
  - reflexivity.
  - reflexivity.
  - unfold add, broadcast1. cbn. arrays_eq; ring.
  - unfold matvec. cbn. arrays_eq; ring.
  - unfold add, broadcast1, get_response, np.log, array. cbn. rewrite !ln_exp.
    arrays_eq; ring.
Defined.

(** ** The update on a linear forward model *)

Section Reflection.

Local Open Scope R_scope.

Variable forward_operator : pygimli.forward_operator.
Variables G Wm : matrix.
Variables d m Gtd Hm : vector.
Variable lamda : R.

Hypothesis jacobian_is_G : get_jacobian m forward_operator = Ok G.
Hypothesis response_is_Gm : matvec G m = Ok (get_response m forward_operator).
Hypothesis data_length : length d = nrows G.
Hypothesis Wm_columns : ncols Wm = ncols G.
Hypothesis Gtd_value : matvec (transpose G) d = Ok Gtd.
Hypothesis Hm_value : matvec (hessian_formula_unweighted G Wm lamda) m = Ok Hm.

(** On a linear forward model the gradient is [2 (H m - G^T d)], for the
    Hessian [H] of the script. *)
Lemma gn_gradient_linear :
  get_gradient m d forward_operator Wm lamda =
  Ok (mk_vector (ncols G) (fun j => 2 * (vget Hm j - vget Gtd j))).
Proof.
  pose proof (ls_model_length forward_operator G m response_is_Gm) as Lm.
  pose proof (ls_response forward_operator G m response_is_Gm) as Er.
  assert (Lr : length (get_response m forward_operator) = nrows G)
    by (rewrite Er; apply length_mk_vector).
  rewrite (gn_gradient_value forward_operator G Wm d m lamda
             jacobian_is_G data_length Lr Lm Wm_columns).
  f_equal. apply mk_vector_ext. intros j Hj.
  rewrite (ls_Gtd G d Gtd Gtd_value), vget_mk_vector by exact Hj.
  pose proof Hm_value as EH. apply matvec_inv in EH as [_ EH].
  assert (NH : nrows (hessian_formula_unweighted G Wm lamda) = ncols G)
    by apply nrows_mk_matrix.
  assert (CH : ncols (hessian_formula_unweighted G Wm lamda) = ncols G)
    by apply ncols_mk_matrix.
  rewrite EH, NH, CH, vget_mk_vector by exact Hj.
  assert (S1 : sum_n (nrows G) (fun k =>
                 (vget d k - vget (get_response m forward_operator) k) * mget G k j)
               = sum_n (nrows G) (fun k => mget G k j * vget d k)
                 - sum_n (ncols G) (fun l =>
                     sum_n (nrows G) (fun k => mget G k j * mget G k l) * vget m l)).
  { rewrite (sum_n_ext (ncols G) _
               (fun l => sum_n (nrows G) (fun k => mget G k j * mget G k l * vget m l)))
      by (intros l _; now rewrite sum_n_scal_r).
    rewrite sum_n_swap, <- sum_n_minus. apply sum_n_ext. intros k Hk.
    rewrite Er, vget_mk_vector by exact Hk.
    rewrite (sum_n_ext (ncols G) (fun i => mget G k j * mget G k i * vget m i)
               (fun i => mget G k j * (mget G k i * vget m i))) by (intros; ring).
    rewrite sum_n_scal. ring. }
  assert (S2 : sum_n (ncols G) (fun l =>
                 mget (hessian_formula_unweighted G Wm lamda) j l * vget m l)
               = sum_n (ncols G) (fun l =>
                   sum_n (nrows G) (fun k => mget G k j * mget G k l) * vget m l)
                 + lamda * sum_n (ncols G) (fun l =>
                     sum_n (nrows Wm) (fun k => mget Wm k j * mget Wm k l) * vget m l)).
  { rewrite <- sum_n_scal, <- sum_n_plus. apply sum_n_ext. intros l Hl.
    unfold hessian_formula_unweighted. rewrite mget_mk_matrix by assumption. ring. }
  rewrite S1, S2. ring.
Qed.

End Reflection.

(** The update at a model where the forward model is linear: with [H] the
    Hessian of the script, [H_inv] a left inverse of it and [m_star] a
    solution of [H m_star = G^T d], the update leads to [2 m_star - m]. *)
Lemma manual_step_on_linear_model
    (linalg_solve : matrix -> vector -> result vector)
    (forward_operator : pygimli.forward_operator)
    (G Wm H_inv : matrix) (d m m0 Gtd m_star : vector) (lamda : R)
    (inv_options : cofi.params) :
  solve_sound linalg_solve ->
  solve_complete linalg_solve ->
  get_jacobian m forward_operator = Ok G ->
  matvec G m = Ok (get_response m forward_operator) ->
  length d = nrows G ->
  ncols Wm = ncols G ->
  matmul H_inv (hessian_formula_unweighted G Wm lamda) = Ok (eye (ncols G)) ->
  matvec (transpose G) d = Ok Gtd ->
  matvec (hessian_formula_unweighted G Wm lamda) m_star = Ok Gtd ->
  manual_step linalg_solve
    (__init__ (ert_problem d forward_operator Wm lamda m0) inv_options) m =
  Ok (mk_vector (ncols G) (fun i => 2 * vget m_star i - vget m i)%R).
Proof.
  intros Hs Hc EJ ER Ld LW EL Ed Estar.
  pose proof (ls_model_length forward_operator G m ER) as Lm.
  pose proof (ert_get_hessian_value forward_operator m d Wm lamda G LW EJ) as EH'.
  assert (NH : nrows (hessian_formula_unweighted G Wm lamda) = ncols G)
    by apply nrows_mk_matrix.
  assert (CH : ncols (hessian_formula_unweighted G Wm lamda) = ncols G)
    by apply ncols_mk_matrix.
  assert (WH : wf (hessian_formula_unweighted G Wm lamda)) by apply wf_mk_matrix.
  assert (EHm : matvec (hessian_formula_unweighted G Wm lamda) m =
                Ok (mk_vector (ncols G) (fun i =>
                      sum_n (ncols G) (fun k =>
                        mget (hessian_formula_unweighted G Wm lamda) i k * vget m k)%R))).
  { rewrite matvec_ok by congruence. now rewrite NH, CH. }
  pose proof (gn_gradient_linear forward_operator G Wm d m Gtd _ lamda
                EJ ER Ld LW Ed EHm) as Eg.
  clear EHm.
  remember (hessian_formula_unweighted G Wm lamda) as Hf eqn:EHf.
  clear EHf.
  set (step := mk_vector (ncols G) (fun i => 2 * (vget m_star i - vget m i))%R).
  set (Hm := mk_vector (ncols G) (fun i =>
               sum_n (ncols G) (fun k => mget Hf i k * vget m k)%R)) in *.
  assert (Ex : matvec Hf step =
               Ok (negative (mk_vector (ncols G) (fun j =>
                               2 * (vget Hm j - vget Gtd j))%R))).
  { apply matvec_inv in Estar as [Ls EG]. rewrite NH, CH in EG.
    unfold step. rewrite matvec_ok by (rewrite length_mk_vector; exact CH).
    rewrite NH, CH. f_equal.
    apply vector_ext; rewrite length_mk_vector;
      [ now rewrite length_negative, length_mk_vector | ].
    intros j Hj. rewrite vget_negative, !vget_mk_vector by exact Hj.
    unfold Hm. rewrite EG, !vget_mk_vector by exact Hj.
    rewrite (sum_n_ext (ncols G)
               (fun k => mget Hf j k *
                         vget (mk_vector (ncols G) (fun i =>
                                 2 * (vget m_star i - vget m i))) k)
               (fun k => 2 * (mget Hf j k * vget m_star k - mget Hf j k * vget m k)))%R
      by (intros k Hk; rewrite vget_mk_vector by exact Hk; ring).
    rewrite sum_n_scal, sum_n_minus. ring. }
  assert (EL' : matmul H_inv Hf = Ok (eye (ncols Hf))) by now rewrite CH.
  pose proof (solve_unique linalg_solve Hf H_inv _ _ Hs Hc WH
                (eq_trans NH (eq_sym CH)) EL' Ex) as Es.
  unfold manual_step.
  cbn [_hessian _gradient _model_0 __init__ ert_problem cofi.hessian cofi.gradient
         cofi.initial_model array].
  rewrite EH', Eg. cbn [rbind]. rewrite Es. cbn [rbind].
  rewrite add_ok by (unfold step; now rewrite length_mk_vector).
  rewrite Lm. f_equal. apply mk_vector_ext. intros i Hi.
  unfold step. rewrite vget_mk_vector by exact Hi. ring.
Qed.

(** X9.  Take a forward model that is linear at the model [m] (the rescaled
    Jacobian is [G] and the response is [G m]), any [lamda], and let the
    Hessian [H = G^T G + lamda Wm^T Wm] of the script have a left inverse
    and [m_star] solve the normal equations [H m_star = G^T d] of the
    regularised least-squares problem.  Then one iteration of the solver
    started at [m] does not return [m_star] but its mirror image
    [2 m_star - m]: the gradient of the script is the full gradient
    [2 (H m - G^T d)] while its Hessian is half the second derivative, so
    the step is twice the Newton step. *)
Theorem one_iteration_on_linear_model_overshoots
    (linalg_solve : matrix -> vector -> result vector)
    (forward_operator : pygimli.forward_operator)
    (G Wm H H_inv : matrix) (d m Gtd m_star : vector) (lamda : R) :
  solve_sound linalg_solve ->
  solve_complete linalg_solve ->
  get_jacobian m forward_operator = Ok G ->
  matvec G m = Ok (get_response m forward_operator) ->
  length d = nrows G ->
  ncols Wm = ncols G ->
  get_hessian m d forward_operator Wm lamda = Ok H ->
  matmul H_inv H = Ok (eye (ncols G)) ->
  matvec (transpose G) d = Ok Gtd ->
  matvec H m_star = Ok Gtd ->
  outcome (__call__ linalg_solve
             (__init__ (ert_problem d forward_operator Wm lamda m)
                {| cofi.niter := 1; cofi.verbose := false |})) =
  Ok {| cofi.model := mk_vector (ncols G) (fun i => 2 * vget m_star i - vget m i)%R;
        cofi.success := true |}.
Proof.
  intros Hs Hc EJ ER Ld LW EH EL Ed Estar.
  rewrite (ert_get_hessian_value forward_operator m d Wm lamda G LW EJ) in EH.
  injection EH as <-.
  rewrite outcome_call_passes. cbn [_niter __init__ cofi.niter].
  change (Z.to_nat 1) with 1%nat.
  rewrite outcome_passes_succ.
  unfold passes. cbn [range Z.of_nat Z.to_nat seq map for_each ret outcome snd rbind].
  rewrite outcome_loop_body_manual by (left; reflexivity).
  cbn [_model_0 __init__ ert_problem cofi.initial_model array].
  rewrite (manual_step_on_linear_model linalg_solve forward_operator G Wm H_inv d m m
             Gtd m_star lamda _ Hs Hc EJ ER Ld LW EL Ed Estar).
  reflexivity.
Qed.

(** The rescaled Jacobian of the one-cell problem at the model 3. *)
Lemma line_jacobian_at_3 :
  get_jacobian [3]%R example.fop_line = Ok example.line_G.
Proof.
  rewrite ert_get_jacobian_value, rescale_entries by reflexivity.
  unfold example.line_G, mk_matrix. cbn. rewrite ln_exp, exp_ln by lra.
  arrays_eq; field; apply Rgt_not_eq, exp_pos.
Qed.

(** Two data [(1, 3)] of one cell with [G = (1, 1)], [Wm = (1)] and
    [lamda = 2]: the Hessian is 4, the minimiser is 1, and one iteration
    from 3 lands at [2 * 1 - 3 = -1]. *)
Lemma one_iteration_on_linear_model_overshoots_witness :
  outcome (__call__ exact.solve
             (__init__ (ert_problem example.line_data example.fop_line
                          example.line_damping 2 [3]%R)
                {| cofi.niter := 1; cofi.verbose := false |})) =
  Ok {| cofi.model := mk_vector 1 (fun i => 2 * vget [1] i - vget [3] i)%R;
        cofi.success := true |}.
Proof.
  apply (one_iteration_on_linear_model_overshoots exact.solve example.fop_line
           example.line_G example.line_damping (mkMatrix 1 1 [[4]]%R)
           (mkMatrix 1 1 [[/ 4]]%R) example.line_data [3]%R [4]%R [1]%R 2%R).
  - exact exact_solve_sound.
  - exact exact_solve_complete.
  - exact line_jacobian_at_3.
  - unfold matvec, get_response, np.log, array. cbn. rewrite ln_exp.
    arrays_eq; ring.
  - reflexivity.
  - reflexivity.
  - rewrite (ert_get_hessian_value example.fop_line [3]%R example.line_data
               example.line_damping 2%R example.line_G eq_refl line_jacobian_at_3).
    unfold hessian_formula_unweighted, mk_matrix. cbn. arrays_eq; ring.
  - unfold matmul, eye, mk_matrix. cbn. arrays_eq; field.
  - unfold matvec. cbn. arrays_eq; ring.
  - unfold matvec. cbn. arrays_eq; ring.
Defined.

(** ** Edge behaviour of the solver *)

(** X10.  The iteration count is not validated: [range(niter)] is empty for
    a negative count as for zero, so the invocation performs no event and
    returns the initial model with the success flag set. *)
Theorem non_positive_niter_runs_no_iteration
    (linalg_solve : matrix -> vector -> result vector) (self : GaussNewton) (n : Z) :
  (n <= 0)%Z ->
  __call__ linalg_solve (set_niter self n) =
  ([], Ok {| cofi.model := _model_0 self; cofi.success := true |}).
Proof.
  intros Hn. unfold __call__, range. cbn [_niter set_niter _model_0].
  replace (Z.to_nat n) with 0%nat by (destruct n; [ reflexivity | lia | reflexivity ]).
  reflexivity.
Qed.

(** The valley, whose first solve would raise, with [niter = -3]. *)
Lemma non_positive_niter_runs_no_iteration_witness :
  __call__ exact.solve (set_niter example.valley (-3)) =
  ([], Ok {| cofi.model := [0; 0]%R; cofi.success := true |}).
Proof.
  apply (non_positive_niter_runs_no_iteration exact.solve example.valley (-3)). lia.
Defined.

Section Reporter.

Variable linalg_solve : matrix -> vector -> result vector.
Variable self : GaussNewton.

(** The verbose report raises what the misfit reporter raises. *)
Lemma report_raises (i : Z) (m : vector) (f : vector -> result R) (e : exn) :
  _verbose self = true -> _misfit self = Some f -> f m = Raise e ->
  outcome (report self i m) = Raise e.
Proof.
  intros Hv Hf He. unfold report. rewrite Hv, Hf.
  rewrite !outcome_bind. cbn [outcome print emit snd].
  rewrite outcome_call, He. reflexivity.
Qed.

End Reporter.

(** X11.  The reports are not guarded: when the solver is verbose and the
    misfit reporter raises at the model of pass [k + 1 <= niter], the
    invocation raises that error and the model is lost, although the same
    solver without reports has computed it after [k + 1] passes. *)
Theorem raising_reporter_aborts_the_run
    (linalg_solve : matrix -> vector -> result vector) (self : GaussNewton)
    (f : vector -> result R) (k : nat) (m m' : vector) (e : exn) :
  _verbose self = true ->
  _misfit self = Some f ->
  (k < Z.to_nat (_niter self))%nat ->
  outcome (passes linalg_solve self k) = Ok m ->
  manual_step linalg_solve self m = Ok m' ->
  f m' = Raise e ->
  outcome (__call__ linalg_solve self) = Raise e /\
  outcome (passes linalg_solve (set_reporting self false None None) (S k)) = Ok m'.
Proof.
  intros Hv Hf Hk Ek Em He. split.
  - assert (E : outcome (passes linalg_solve self (S k)) = Raise e).
    { rewrite outcome_passes_succ, Ek. cbn [rbind].
      rewrite outcome_loop_body, Em. cbn [rbind].
      now rewrite (report_raises self (Z.of_nat k) m' f e Hv Hf He). }
    rewrite outcome_call_passes.
    replace (Z.to_nat (_niter self)) with ((Z.to_nat (_niter self) - S k) + S k)%nat
      by lia.
    rewrite (passes_raise linalg_solve self (S k) _ e E), E. reflexivity.
  - pose proof (outcome_passes_quiet linalg_solve self (_verbose self) (_misfit self)
                  (_reg self) k m Ek) as Q.
    rewrite outcome_passes_succ, Q. cbn [rbind].
    rewrite outcome_loop_body_manual by (left; reflexivity). exact Em.
Qed.

(** The bowl with a misfit reporter that raises: the first report ends the
    run, the quiet bowl reaches [(1, 2)]. *)
Lemma raising_reporter_aborts_the_run_witness :
  outcome (__call__ exact.solve
             (set_reporting example.bowl true
                (Some (fun _ => Raise (ValueError "misfit"))) None)) =
    Raise (ValueError "misfit") /\
  outcome (passes exact.solve
             (set_reporting
                (set_reporting example.bowl true
                   (Some (fun _ => Raise (ValueError "misfit"))) None)
                false None None) 1) = Ok [1; 2]%R.
Proof.
  apply (raising_reporter_aborts_the_run exact.solve
           (set_reporting example.bowl true
              (Some (fun _ => Raise (ValueError "misfit"))) None)
           (fun _ => Raise (ValueError "misfit")) 0 [0; 0]%R [1; 2]%R
           (ValueError "misfit")).
  - reflexivity.
  - reflexivity.
  - cbn. lia.
  - reflexivity.
  - unfold manual_step.
    cbn [_hessian _gradient set_reporting example.bowl example.bowl_hessian
           example.bowl_gradient rbind].
    rewrite (solve_unique exact.solve (mkMatrix 2 2 [[2; 0]; [0; 2]]%R)
               (mkMatrix 2 2 [[/ 2; 0]; [0; / 2]]%R) [1; 2]%R).
    + cbn. arrays_eq; ring.
    + exact exact_solve_sound.
    + exact exact_solve_complete.
    + split; [ reflexivity | repeat constructor ].
    + reflexivity.
    + unfold matmul, eye, mk_matrix. cbn. arrays_eq; field.
    + unfold matvec, negative. cbn. arrays_eq; ring.
  - reflexivity.
Defined.

Section Broadcast.

Local Open Scope R_scope.

(** An elementwise operator at a one-element [u]: its entry meets every
    entry of [v]. *)
Lemma broadcast1_one_l (op : R -> R -> R) (u v : vector) :
  length u = 1%nat -> broadcast1 op u v = Ok (map (op (vget u 0)) v).
Proof.
  intros L. unfold broadcast1.
  replace (bdim (length u) (length v)) with (Some (length v)).
  - f_equal. rewrite <- mk_vector_map. apply mk_vector_ext. intros i Hi.
    rewrite (bvget_in_range v) by exact Hi.
    unfold bvget. now rewrite L.
  - unfold bdim. rewrite L.
    destruct (Nat.eqb_spec 1 (length v)) as [<- | _]; reflexivity.
Qed.

Lemma add_broadcast_l (u v : vector) :
  length u = 1%nat -> add u v = Ok (map (fun x => vget u 0 + x) v).
Proof. apply broadcast1_one_l. Qed.

Lemma add_broadcast_r (u v : vector) :
  length v = 1%nat -> add u v = Ok (map (fun x => x + vget v 0) u).
Proof.
  intros L. unfold add, broadcast1. rewrite L, bdim_one_r.
  f_equal. rewrite <- mk_vector_map. apply mk_vector_ext. intros i Hi.
  rewrite (bvget_in_range u) by exact Hi.
  unfold bvget. now rewrite L.
Qed.

Lemma add_mismatch (u v : vector) :
  length u <> length v -> length u <> 1%nat -> length v <> 1%nat ->
  add u v = Raise broadcast_error.
Proof.
  intros N Nu Nv. unfold add, broadcast1, bdim.
  destruct (Nat.eqb_spec (length u) (length v)); [ contradiction | ].
  destruct (Nat.eqb_spec (length u) 1); [ contradiction | ].
  destruct (Nat.eqb_spec (length v) 1); [ contradiction | reflexivity ].
Qed.

End Broadcast.

(** X12.  The update [current_model + model_update] follows numpy's
    broadcasting, and the solver checks no shape: a one-element model
    silently takes the length of the update (its entry is added to every
    entry of the update), a one-element update is added to every entry of
    the model, and any other difference of the two lengths raises numpy's
    [ValueError]. *)
Theorem update_broadcasts_model_and_step
    (linalg_solve : matrix -> vector -> result vector) (self : GaussNewton)
    (H : matrix) (g delta : vector) :
  _verbose self = false \/ reporters_total self ->
  _hessian self (_model_0 self) = Ok H ->
  _gradient self (_model_0 self) = Ok g ->
  linalg_solve H (negative g) = Ok delta ->
  (length (_model_0 self) = 1%nat ->
   outcome (__call__ linalg_solve (set_niter self 1)) =
   Ok {| cofi.model := map (fun x => vget (_model_0 self) 0 + x)%R delta;
         cofi.success := true |}) /\
  (length delta = 1%nat ->
   outcome (__call__ linalg_solve (set_niter self 1)) =
   Ok {| cofi.model := map (fun x => x + vget delta 0)%R (_model_0 self);
         cofi.success := true |}) /\
  (length (_model_0 self) <> length delta ->
   length (_model_0 self) <> 1%nat -> length delta <> 1%nat ->
   outcome (__call__ linalg_solve (set_niter self 1)) = Raise broadcast_error).
Proof.
  intros Hr EH Eg Es.
  assert (E : outcome (__call__ linalg_solve (set_niter self 1)) =
              rmap (fun m => {| cofi.model := m; cofi.success := true |})
                   (add (_model_0 self) delta)).
  { rewrite outcome_call_set_niter. change (Z.to_nat 1) with 1%nat.
    rewrite outcome_passes_succ. unfold passes.
    cbn [range Z.of_nat Z.to_nat seq map for_each ret outcome snd rbind].
    rewrite outcome_loop_body_manual by exact Hr.
    unfold manual_step, array. rewrite EH, Eg. cbn [rbind]. rewrite Es. reflexivity. }
  rewrite E. repeat split.
  - intros L. now rewrite add_broadcast_l.
  - intros L. now rewrite add_broadcast_r.
  - intros N N1 N2. now rewrite add_mismatch.
Qed.

(** The bowl started from the one-element model [(0)]: the update [(1, 2)]
    makes it a two-element model. *)
Lemma update_broadcasts_model_and_step_witness :
  (length [0]%R = 1%nat ->
   outcome (__call__ exact.solve (set_niter (set_model_0 example.bowl [0]%R) 1)) =
   Ok {| cofi.model := map (fun x => vget [0] 0 + x)%R [1; 2]%R;
         cofi.success := true |}) /\
  (length [1; 2]%R = 1%nat ->
   outcome (__call__ exact.solve (set_niter (set_model_0 example.bowl [0]%R) 1)) =
   Ok {| cofi.model := map (fun x => x + vget [1; 2] 0)%R [0]%R;
         cofi.success := true |}) /\
  (length [0]%R <> length [1; 2]%R ->
   length [0]%R <> 1%nat -> length [1; 2]%R <> 1%nat ->
   outcome (__call__ exact.solve (set_niter (set_model_0 example.bowl [0]%R) 1)) =
   Raise broadcast_error).
Proof.
  apply (update_broadcasts_model_and_step exact.solve
           (set_model_0 example.bowl [0]%R)
           (mkMatrix 2 2 [[2; 0]; [0; 2]]%R) [-2; -4]%R [1; 2]%R).
  - right. split; intros g [= <-] m; eexists; reflexivity.
  - reflexivity.
  - cbn [_gradient _model_0 set_model_0 example.bowl].
    unfold example.bowl_gradient, vget. cbn [nth]. arrays_eq; ring.
  - apply (solve_unique exact.solve (mkMatrix 2 2 [[2; 0]; [0; 2]]%R)
             (mkMatrix 2 2 [[/ 2; 0]; [0; / 2]]%R) [1; 2]%R).
    + exact exact_solve_sound.
    + exact exact_solve_complete.
    + split; [ reflexivity | repeat constructor ].
    + reflexivity.
    + unfold matmul, eye, mk_matrix. cbn. arrays_eq; field.
    + unfold matvec, negative. cbn. arrays_eq; ring.
Defined.

(** * The log-space library against the scripts *)

(** Runs the prints and the lifted computations of a library function,
    case by case on the results. *)
Ltac io_cases :=
  repeat (cbn [bind print emit ret lift app rbind fst snd];
          match goal with
          | |- context [ match ?r with Ok _ => _ | Raise _ => _ end ] =>
              lazymatch r with
              | context [ match _ with Ok _ => _ | Raise _ => _ end ] => fail
              | _ => destruct r
              end
          end);
  cbn [bind print emit ret lift app rbind fst snd]; try reflexivity.

Section Identity.

Local Open Scope R_scope.

(** [v @ np.eye(n)] is [v]. *)
Lemma vecmat_eye (n : nat) (v : vector) : length v = n -> vecmat v (eye n) = Ok v.
Proof.
  intros L. rewrite vecmat_ok by (rewrite L; reflexivity).
  cbn [nrows ncols eye mk_matrix]. f_equal.
  apply vector_ext; rewrite length_mk_vector; [ congruence | ].
  intros j Hj. rewrite vget_mk_vector by exact Hj.
  rewrite <- (sum_n_delta n j (vget v)) by exact Hj.
  apply sum_n_ext. intros k Hk. rewrite mget_eye by assumption.
  rewrite Nat.eqb_sym. ring.
Qed.

(** [A.T @ np.eye(n)] is [A.T] for [A] of [n] rows. *)
Lemma matmul_transpose_eye (A : matrix) :
  matmul (transpose A) (eye (nrows A)) = Ok (transpose A).
Proof.
  rewrite matmul_ok by reflexivity. f_equal.
  change (nrows (transpose A)) with (ncols A).
  change (ncols (transpose A)) with (nrows A).
  change (ncols (eye (nrows A))) with (nrows A).
  transitivity (mk_matrix (ncols A) (nrows A) (fun i j => mget A j i));
    [ | reflexivity ].
  apply mk_matrix_ext. intros i j Hi Hj.
  rewrite <- (sum_n_delta (nrows A) j (fun k => mget A k i)) by exact Hj.
  apply sum_n_ext. intros k Hk.
  rewrite mget_transpose, mget_eye by assumption.
  rewrite Nat.eqb_sym. ring.
Qed.

End Identity.

Section LogSpace.

Local Open Scope R_scope.

Variable forward_operator : pygimli.forward_operator.
Variables model log_data : vector.
Variable Wm : matrix.
Variable lamda : R.

Lemma exp_log_exp (v : vector) : np.exp (np.log (np.exp v)) = np.exp v.
Proof.
  unfold np.exp, np.log. rewrite !map_map. apply map_ext. intros a. now rewrite ln_exp.
Qed.

Lemma dcip_get_residual_eq :
  pygimli_dcip_lib.get_residual model log_data forward_operator =
  ([EvPrint (PArr (np.exp model))],
   pygimli_ert_scipy_minimize.get_residual (np.exp model) log_data forward_operator).
Proof.
  unfold pygimli_dcip_lib.get_residual, pygimli_dcip_lib.get_response,
    pygimli_ert_scipy_minimize.get_residual, pygimli_ert_scipy_minimize.get_response,
    pygimli.squeezeComplex.
  io_cases.
Qed.

Lemma dcip_get_jacobian_eq :
  pygimli_dcip_lib.get_jacobian model forward_operator =
  ([EvPrint (PArr (np.exp model))],
   pygimli_ert_scipy_minimize.get_jacobian (np.exp model) forward_operator).
Proof.
  unfold pygimli_dcip_lib.get_jacobian, pygimli_dcip_lib.get_response,
    pygimli_ert_scipy_minimize.get_jacobian, pygimli_ert_scipy_minimize.get_response,
    pygimli.squeezeComplex.
  rewrite exp_log_exp. io_cases.
Qed.

Lemma dcip_get_jac_residual_eq :
  pygimli_dcip_lib.get_jac_residual model log_data forward_operator =
  ([EvPrint (PArr (np.exp model))],
   pygimli_ert_scipy_minimize.get_jac_residual (np.exp model) log_data forward_operator).
Proof.
  unfold pygimli_dcip_lib.get_jac_residual, pygimli_dcip_lib.get_response,
    pygimli_ert_scipy_minimize.get_jac_residual,
    pygimli_ert_scipy_minimize.get_response, pygimli.squeezeComplex.
  rewrite exp_log_exp. io_cases.
Qed.

(** The residual has the length of the data when the response has. *)
Lemma scipy_residual_length (m r : vector) :
  length log_data = length (pygimli.response forward_operator m) ->
  pygimli_ert_scipy_minimize.get_residual m log_data forward_operator = Ok r ->
  length r = length log_data.
Proof.
  intros L. unfold pygimli_ert_scipy_minimize.get_residual,
    pygimli_ert_scipy_minimize.get_response.
  rewrite subtract_ok by (unfold np.log, array; now rewrite length_map).
  cbn [rbind]. intros [= <-]. apply length_mk_vector.
Qed.

Lemma scipy_jac_residual_length (m r : vector) (jac : matrix) :
  length log_data = length (pygimli.response forward_operator m) ->
  pygimli_ert_scipy_minimize.get_jac_residual m log_data forward_operator =
    Ok (jac, r) ->
  length r = length log_data.
Proof.
  intros L. unfold pygimli_ert_scipy_minimize.get_jac_residual,
    pygimli_ert_scipy_minimize.get_response.
  rewrite subtract_ok by (unfold np.log, array; now rewrite length_map).
  cbn [rbind].
  destruct (mdivide _ _) as [q | e]; cbn [rbind]; [ | discriminate ].
  destruct (mmultiply _ _) as [j | e]; cbn [rbind]; [ | discriminate ].
  intros [= _ <-]. apply length_mk_vector.
Qed.

Hypothesis data_length :
  length log_data = length (pygimli.response forward_operator (np.exp model)).

Lemma dcip_get_data_misfit_eq :
  pygimli_dcip_lib.get_data_misfit model log_data forward_operator None =
  ([EvPrint (PArr (np.exp model))],
   pygimli_ert_scipy_minimize.get_data_misfit (np.exp model) log_data forward_operator).
Proof.
  unfold pygimli_dcip_lib.get_data_misfit, pygimli_ert_scipy_minimize.get_data_misfit.
  rewrite dcip_get_residual_eq.
  destruct (pygimli_ert_scipy_minimize.get_residual _ _ _) as [r | e] eqn:E;
    [ | reflexivity ].
  apply (scipy_residual_length _ _ data_length) in E.
  cbn [bind lift]. rewrite vecmat_eye by exact E. io_cases.
Qed.

Lemma dcip_get_objective_eq :
  pygimli_dcip_lib.get_objective model log_data forward_operator Wm lamda None =
  ([EvPrint (PArr (np.exp model))],
   pygimli_ert_scipy_minimize.get_objective (np.exp model) log_data forward_operator
     Wm lamda).
Proof.
  unfold pygimli_dcip_lib.get_objective, pygimli_ert_scipy_minimize.get_objective.
  rewrite dcip_get_data_misfit_eq.
  change (pygimli_dcip_lib.get_regularisation model Wm lamda)
    with (pygimli_ert_scipy_minimize.get_regularisation (np.exp model) Wm lamda).
  io_cases.
Qed.

Lemma dcip_get_gradient_eq :
  pygimli_dcip_lib.get_gradient model log_data forward_operator Wm lamda None =
  ([EvPrint (PArr (np.exp model))],
   pygimli_ert_scipy_minimize.get_gradient (np.exp model) log_data forward_operator
     Wm lamda).
Proof.
  unfold pygimli_dcip_lib.get_gradient, pygimli_ert_scipy_minimize.get_gradient.
  rewrite dcip_get_jac_residual_eq.
  destruct (pygimli_ert_scipy_minimize.get_jac_residual _ _ _) as [[jac r] | e] eqn:E;
    [ | reflexivity ].
  apply (scipy_jac_residual_length _ _ _ data_length) in E.
  cbn [bind lift fst snd]. rewrite vecmat_eye by now rewrite length_negative.
  io_cases.
Qed.

Hypothesis jacobian_rows :
  forall J, pygimli_ert_scipy_minimize.get_jacobian (np.exp model) forward_operator
            = Ok J -> nrows J = length log_data.

Lemma dcip_get_hessian_eq :
  pygimli_dcip_lib.get_hessian model log_data forward_operator Wm lamda None =
  ([EvPrint (PArr (np.exp model))],
   pygimli_ert_scipy_minimize.get_hessian (np.exp model) log_data forward_operator
     Wm lamda).
Proof.
  unfold pygimli_dcip_lib.get_hessian, pygimli_ert_scipy_minimize.get_hessian.
  rewrite dcip_get_jacobian_eq.
  destruct (pygimli_ert_scipy_minimize.get_jacobian _ _) as [jac | e] eqn:E;
    [ | reflexivity ].
  rewrite <- (jacobian_rows jac eq_refl).
  cbn [bind lift]. rewrite matmul_transpose_eye. io_cases.
Qed.

End LogSpace.

(** X13.  [pygimli_dcip_lib] is the scipy-minimize script after the change
    of variable [model -> exp(model)], behind one print: each of its
    functions prints [exp(model)] once and returns, or raises, what the
    function of the same name of the script does at [exp(model)].  For the
    functions that take a covariance this holds with the default
    [data_cov_inv = None], when the data have the length of the response
    (misfit, objective, gradient) and the Jacobian has one row per datum
    (Hessian). *)
Theorem dcip_lib_is_scipy_script_at_exp_model
    (forward_operator : pygimli.forward_operator) (model log_data : vector)
    (Wm : matrix) (lamda : R) :
  let shown := [EvPrint (PArr (np.exp model))] in
  let m := np.exp model in
  pygimli_dcip_lib.get_response model forward_operator =
    (shown, Ok (pygimli_ert_scipy_minimize.get_response m forward_operator)) /\
  pygimli_dcip_lib.get_residual model log_data forward_operator =
    (shown, pygimli_ert_scipy_minimize.get_residual m log_data forward_operator) /\
  pygimli_dcip_lib.get_jacobian model forward_operator =
    (shown, pygimli_ert_scipy_minimize.get_jacobian m forward_operator) /\
  pygimli_dcip_lib.get_jac_residual model log_data forward_operator =
    (shown, pygimli_ert_scipy_minimize.get_jac_residual m log_data forward_operator) /\
  pygimli_dcip_lib.get_regularisation model Wm lamda =
    pygimli_ert_scipy_minimize.get_regularisation m Wm lamda /\
  (length log_data = length (pygimli.response forward_operator m) ->
   pygimli_dcip_lib.get_data_misfit model log_data forward_operator None =
     (shown, pygimli_ert_scipy_minimize.get_data_misfit m log_data forward_operator) /\
   pygimli_dcip_lib.get_objective model log_data forward_operator Wm lamda None =
     (shown,
      pygimli_ert_scipy_minimize.get_objective m log_data forward_operator Wm lamda) /\
   pygimli_dcip_lib.get_gradient model log_data forward_operator Wm lamda None =
     (shown,
      pygimli_ert_scipy_minimize.get_gradient m log_data forward_operator Wm lamda)) /\
  ((forall J, pygimli_ert_scipy_minimize.get_jacobian m forward_operator = Ok J ->
              nrows J = length log_data) ->
   pygimli_dcip_lib.get_hessian model log_data forward_operator Wm lamda None =
     (shown,
      pygimli_ert_scipy_minimize.get_hessian m log_data forward_operator Wm lamda)).
Proof.
  cbv zeta.
  split; [ reflexivity | ].
  split; [ apply dcip_get_residual_eq | ].
  split; [ apply dcip_get_jacobian_eq | ].
  split; [ apply dcip_get_jac_residual_eq | ].
  split; [ reflexivity | ].
  split.
  - intros L. split; [ now apply dcip_get_data_misfit_eq | ].
    split; [ now apply dcip_get_objective_eq | now apply dcip_get_gradient_eq ].
  - intros HJ. now apply dcip_get_hessian_eq.
Qed.

(** The product forward operator at the log-space model [(0, 0)] with two
    data: the library returns what the script returns at [(1, 1)]. *)
Lemma dcip_lib_is_scipy_script_at_exp_model_witness :
  pygimli_dcip_lib.get_data_misfit [0; 0]%R [1; 2]%R example.fop_product None =
    ([EvPrint (PArr (np.exp [0; 0]%R))],
     pygimli_ert_scipy_minimize.get_data_misfit (np.exp [0; 0]%R) [1; 2]%R
       example.fop_product) /\
  pygimli_dcip_lib.get_gradient [0; 0]%R [1; 2]%R example.fop_product example.smooth 20
      None =
    ([EvPrint (PArr (np.exp [0; 0]%R))],
     pygimli_ert_scipy_minimize.get_gradient (np.exp [0; 0]%R) [1; 2]%R
       example.fop_product example.smooth 20) /\
  pygimli_dcip_lib.get_hessian [0; 0]%R [1; 2]%R example.fop_product example.smooth 20
      None =
    ([EvPrint (PArr (np.exp [0; 0]%R))],
     pygimli_ert_scipy_minimize.get_hessian (np.exp [0; 0]%R) [1; 2]%R
       example.fop_product example.smooth 20).
Proof.
  destruct (dcip_lib_is_scipy_script_at_exp_model example.fop_product [0; 0]%R
              [1; 2]%R example.smooth 20)
    as (_ & _ & _ & _ & _ & Hd & Hh).
  destruct (Hd eq_refl) as (Em & _ & Eg).
  split; [ exact Em | ]. split; [ exact Eg | ].
  apply Hh. intros J E.
  change (pygimli_ert_scipy_minimize.get_jacobian (np.exp [0; 0]%R) example.fop_product)
    with (get_jacobian (np.exp [0; 0]%R) example.fop_product) in E.
  rewrite ert_get_jacobian_value, rescale_entries in E by reflexivity.
  injection E as <-. reflexivity.
Defined.

(** X14.  The default covariance makes the library stricter than the
    scripts: a single datum against a response of another length is
    broadcast by the subtraction, and the scripts return the sum of the
    squared residuals, but [residual.T @ np.eye(1)] of the library raises
    numpy's [ValueError], after the print. *)
Theorem dcip_default_covariance_rejects_broadcast_datum
    (forward_operator : pygimli.forward_operator) (model log_data : vector) :
  length log_data = 1%nat ->
  length (pygimli.response forward_operator (np.exp model)) <> 1%nat ->
  pygimli_dcip_lib.get_data_misfit model log_data forward_operator None =
    ([EvPrint (PArr (np.exp model))], Raise matmul_error) /\
  exists x,
    pygimli_ert_scipy_minimize.get_data_misfit (np.exp model) log_data forward_operator
    = Ok x.
Proof.
  intros L N.
  assert (E : pygimli_ert_scipy_minimize.get_residual (np.exp model) log_data
                forward_operator =
              Ok (map (Rminus (vget log_data 0))
                    (pygimli_ert_scipy_minimize.get_response (np.exp model)
                       forward_operator))).
  { unfold pygimli_ert_scipy_minimize.get_residual, subtract.
    now rewrite broadcast1_one_l. }
  assert (Lr : length (map (Rminus (vget log_data 0))
                         (pygimli_ert_scipy_minimize.get_response (np.exp model)
                            forward_operator)) <> 1%nat).
  { unfold pygimli_ert_scipy_minimize.get_response, np.log, array.
    now rewrite !length_map. }
  split.
  - unfold pygimli_dcip_lib.get_data_misfit.
    rewrite dcip_get_residual_eq, E. cbn [bind lift].
    unfold vecmat. rewrite L. cbn [nrows eye mk_matrix].
    destruct (Nat.eqb_spec (length (map (Rminus (vget log_data 0))
                (pygimli_ert_scipy_minimize.get_response (np.exp model)
                   forward_operator))) 1); [ contradiction | reflexivity ].
  - unfold pygimli_ert_scipy_minimize.get_data_misfit. rewrite E. cbn [rbind].
    rewrite vecvec_ok by reflexivity. cbn [rbind]. eexists. reflexivity.
Qed.

(** One datum against the two responses of the product forward operator. *)
Lemma dcip_default_covariance_rejects_broadcast_datum_witness :
  pygimli_dcip_lib.get_data_misfit [0; 0]%R [1]%R example.fop_product None =
    ([EvPrint (PArr (np.exp [0; 0]%R))], Raise matmul_error) /\
  exists x,
    pygimli_ert_scipy_minimize.get_data_misfit (np.exp [0; 0]%R) [1]%R
      example.fop_product = Ok x.
Proof.
  apply (dcip_default_covariance_rejects_broadcast_datum example.fop_product
           [0; 0]%R [1]%R).
  - reflexivity.
  - cbn. lia.
Defined.

(** ** The iterates on a linear forward model *)

(** X15.  On a forward model that is linear at [m] and at its mirror image
    [m1 = 2 m_star - m] about the minimiser [m_star] (the rescaled Jacobian
    is [G] and the responses are [G m] and [G m1]), the solver never
    approaches [m_star]: its iterates alternate between the two models,
    every even iteration count returns the initial model and every odd one
    its mirror image. *)
Theorem iterates_on_linear_model_alternate
    (linalg_solve : matrix -> vector -> result vector)
    (forward_operator : pygimli.forward_operator)
    (G Wm H H_inv : matrix) (d m m1 Gtd m_star : vector) (lamda : R) (n : nat) :
  solve_sound linalg_solve ->
  solve_complete linalg_solve ->
  m1 = mk_vector (ncols G) (fun i => 2 * vget m_star i - vget m i)%R ->
  get_jacobian m forward_operator = Ok G ->
  matvec G m = Ok (get_response m forward_operator) ->
  get_jacobian m1 forward_operator = Ok G ->
  matvec G m1 = Ok (get_response m1 forward_operator) ->
  length d = nrows G ->
  ncols Wm = ncols G ->
  get_hessian m d forward_operator Wm lamda = Ok H ->
  matmul H_inv H = Ok (eye (ncols G)) ->
  matvec (transpose G) d = Ok Gtd ->
  matvec H m_star = Ok Gtd ->
  outcome (__call__ linalg_solve
             (__init__ (ert_problem d forward_operator Wm lamda m)
                {| cofi.niter := Z.of_nat n; cofi.verbose := false |})) =
  Ok {| cofi.model := if Nat.even n then m else m1; cofi.success := true |}.
Proof.
  intros Hs Hc Em1 EJ ER EJ1 ER1 Ld LW EH EL Ed Estar.
  rewrite (ert_get_hessian_value forward_operator m d Wm lamda G LW EJ) in EH.
  injection EH as <-.
  pose proof (ls_model_length forward_operator G m ER) as Lm.
  rewrite outcome_call_passes. cbn [_niter __init__ cofi.niter]. rewrite Nat2Z.id.
  assert (P : outcome (passes linalg_solve
                         (__init__ (ert_problem d forward_operator Wm lamda m)
                            {| cofi.niter := Z.of_nat n; cofi.verbose := false |}) n) =
              Ok (if Nat.even n then m else m1)).
  { generalize (Z.of_nat n) as z. intros z.
    induction n as [ | k IH ]; [ reflexivity | ].
    rewrite outcome_passes_succ, IH. cbn [rbind].
    rewrite outcome_loop_body_manual by (left; reflexivity).
    rewrite Nat.even_succ, <- Nat.negb_even.
    destruct (Nat.even k); cbn [negb].
    - rewrite (manual_step_on_linear_model linalg_solve forward_operator G Wm H_inv d
                 m m Gtd m_star lamda _ Hs Hc EJ ER Ld LW EL Ed Estar).
      now rewrite Em1.
    - rewrite (manual_step_on_linear_model linalg_solve forward_operator G Wm H_inv d
                 m1 m Gtd m_star lamda _ Hs Hc EJ1 ER1 Ld LW EL Ed Estar).
      f_equal. apply vector_ext; rewrite length_mk_vector; [ now rewrite Lm | ].
      intros i Hi. rewrite vget_mk_vector by exact Hi.
      rewrite Em1, vget_mk_vector by exact Hi. ring. }
  rewrite P. reflexivity.
Qed.

(** The rescaled Jacobian of the one-cell problem at a positive model. *)
Lemma line_jacobian (x : R) :
  (0 < x)%R -> get_jacobian [x] example.fop_line = Ok example.line_G.
Proof.
  intros Hx. rewrite ert_get_jacobian_value, rescale_entries by reflexivity.
  unfold example.line_G, mk_matrix. cbn. rewrite ln_exp, exp_ln by exact Hx.
  arrays_eq; field; repeat split;
    first [ apply Rgt_not_eq, exp_pos | apply Rgt_not_eq; exact Hx ].
Qed.

(** Two data [(1, 3)] of one cell with [G = (1, 1)] and [lamda = 0]: the
    minimiser is 2; started at 3 the solver is at 1 after five iterations,
    as after one. *)
Lemma iterates_on_linear_model_alternate_witness :
  outcome (__call__ exact.solve
             (__init__ (ert_problem example.line_data example.fop_line
                          example.line_damping 0 [3]%R)
                {| cofi.niter := Z.of_nat 5; cofi.verbose := false |})) =
  Ok {| cofi.model := if Nat.even 5 then [3]%R else [1]%R; cofi.success := true |}.
Proof.
  apply (iterates_on_linear_model_alternate exact.solve example.fop_line
           example.line_G example.line_damping example.line_GtG example.line_GtG_inv
           example.line_data [3]%R [1]%R [4]%R [2]%R 0%R 5).
  - exact exact_solve_sound.
  - exact exact_solve_complete.
  - unfold mk_vector. cbn. arrays_eq; ring.
  - apply line_jacobian. lra.
  - unfold matvec, get_response, np.log, array. cbn. rewrite ln_exp.
    arrays_eq; ring.
  - apply line_jacobian. lra.
  - unfold matvec, get_response, np.log, array. cbn. rewrite ln_exp.
    arrays_eq; ring.
  - reflexivity.
  - reflexivity.
  - rewrite (ert_get_hessian_value example.fop_line [3]%R example.line_data
               example.line_damping 0%R example.line_G eq_refl (line_jacobian 3 ltac:(lra))).
    unfold hessian_formula_unweighted, example.line_GtG, mk_matrix. cbn.
    arrays_eq; ring.
  - unfold matmul, eye, mk_matrix. cbn. arrays_eq; field.
  - unfold matvec. cbn. arrays_eq; ring.
  - unfold matvec. cbn. arrays_eq; ring.
Defined.

(** ** The starting model of the log-space library *)

Section StartingModel.

Local Open Scope R_scope.

Variable median : vector -> R.
Variable ert_manager : pygimli.ERTManager.

(** Both starting models are constant arrays. *)
Lemma starting_model_value (val : option R) (c : R) :
  c = match val with
      | Some v => if Req_EM_T v 0 then median (pygimli.data_rhoa ert_manager) else v
      | None => median (pygimli.data_rhoa ert_manager)
      end ->
  pygimli_dcip_lib.starting_model median ert_manager val =
  (mk_vector (pygimli.paraDomain_cellCount ert_manager) (fun _ => c),
   mk_vector (pygimli.paraDomain_cellCount ert_manager) (fun _ => ln c)).
Proof.
  intros ->. unfold pygimli_dcip_lib.starting_model, times, ones, mk_vector.
  rewrite !map_map. f_equal; apply map_ext; intros i; ring.
Qed.

End StartingModel.

(** X16.  [starting_model] returns two constant arrays of one entry per
    cell of the parameter domain; a start value of zero is falsy and
    replaced by the median of the apparent resistivities, like no value;
    and when the start value in use is positive the second array is the
    logarithm of the first, so that [get_response] of the library, which
    exponentiates its model, prints the first array when given the
    second. *)
Theorem starting_model_pair_is_consistent
    (median : vector -> R) (ert_manager : pygimli.ERTManager) (val : option R)
    (forward_operator : pygimli.forward_operator) :
  let start := pygimli_dcip_lib.starting_model median ert_manager val in
  (length (fst start) = pygimli.paraDomain_cellCount ert_manager /\
   length (snd start) = pygimli.paraDomain_cellCount ert_manager) /\
  pygimli_dcip_lib.starting_model median ert_manager (Some 0%R) =
    pygimli_dcip_lib.starting_model median ert_manager None /\
  ((forall v, val = Some v -> (0 <= v)%R) ->
   (0 < median (pygimli.data_rhoa ert_manager))%R ->
   np.log (fst start) = snd start /\
   np.exp (snd start) = fst start /\
   trace (pygimli_dcip_lib.get_response (snd start) forward_operator) =
     [EvPrint (PArr (fst start))]).
Proof.
  cbv zeta.
  rewrite (starting_model_value median ert_manager val _ eq_refl).
  cbn [fst snd]. rewrite !length_mk_vector.
  split; [ split; reflexivity | ]. split.
  - unfold pygimli_dcip_lib.starting_model.
    destruct (Req_EM_T 0 0) as [_ | N]; [ reflexivity | now destruct N ].
  - intros Hv Hm.
    set (c := match val with
              | Some v => if Req_EM_T v 0
                          then median (pygimli.data_rhoa ert_manager) else v
              | None => median (pygimli.data_rhoa ert_manager)
              end).
    assert (Hc : (0 < c)%R).
    { unfold c. destruct val as [v | ]; [ | exact Hm ].
      destruct (Req_EM_T v 0) as [_ | N]; [ exact Hm | ].
      specialize (Hv v eq_refl). lra. }
    assert (E : np.exp (mk_vector (pygimli.paraDomain_cellCount ert_manager)
                          (fun _ => ln c)) =
                mk_vector (pygimli.paraDomain_cellCount ert_manager) (fun _ => c)).
    { unfold np.exp, mk_vector. rewrite map_map. apply map_ext. intros _.
      now apply exp_ln. }
    split; [ | split ].
    + unfold np.log, mk_vector. rewrite map_map. reflexivity.
    + exact E.
    + unfold pygimli_dcip_lib.get_response, pygimli.squeezeComplex.
      rewrite E. reflexivity.
Qed.

(** Three cells and no start value, with the first apparent resistivity,
    100, standing for the median. *)
Lemma starting_model_pair_is_consistent_witness :
  np.log (fst (pygimli_dcip_lib.starting_model (fun v => vget v 0)
                 {| pygimli.data_rhoa := [100; 100]%R;
                    pygimli.paraDomain_cellCount := 3 |} None)) =
    snd (pygimli_dcip_lib.starting_model (fun v => vget v 0)
           {| pygimli.data_rhoa := [100; 100]%R;
              pygimli.paraDomain_cellCount := 3 |} None) /\
  np.exp (snd (pygimli_dcip_lib.starting_model (fun v => vget v 0)
                 {| pygimli.data_rhoa := [100; 100]%R;
                    pygimli.paraDomain_cellCount := 3 |} None)) =
    fst (pygimli_dcip_lib.starting_model (fun v => vget v 0)
           {| pygimli.data_rhoa := [100; 100]%R;
              pygimli.paraDomain_cellCount := 3 |} None) /\
  trace (pygimli_dcip_lib.get_response
           (snd (pygimli_dcip_lib.starting_model (fun v => vget v 0)
                   {| pygimli.data_rhoa := [100; 100]%R;
                      pygimli.paraDomain_cellCount := 3 |} None))
           example.fop_product) =
    [EvPrint (PArr (fst (pygimli_dcip_lib.starting_model (fun v => vget v 0)
                           {| pygimli.data_rhoa := [100; 100]%R;
                              pygimli.paraDomain_cellCount := 3 |} None)))].
Proof.
  apply (starting_model_pair_is_consistent (fun v => vget v 0)
           {| pygimli.data_rhoa := [100; 100]%R; pygimli.paraDomain_cellCount := 3 |}
           None example.fop_product).
  - intros v E. discriminate E.
  - cbn. lra.
Defined.

(** ** What the solver prints *)

Section Prints.

Variable linalg_solve : matrix -> vector -> result vector.
Variable self : GaussNewton.

(** A quiet solver reports nothing. *)
Lemma report_quiet (i : Z) (m : vector) :
  _verbose self = false -> report self i m = ret tt.
Proof. intros Hq. unfold report. now rewrite Hq. Qed.

(** A verbose report that returns prints the rule, the iteration number
    and one number for each reporter. *)
Lemma prints_report (i : Z) (m : vector) :
  _verbose self = true -> outcome (report self i m) = Ok tt ->
  count is_print (trace (report self i m)) = (2 + reporters self)%nat /\
  count is_update (trace (report self i m)) = 0%nat.
Proof.
  intros Hv. unfold report, reporters, count. rewrite Hv.
  destruct (_misfit self) as [f | ], (_reg self) as [g | ];
    unfold call, print, emit, lift, ret;
    try destruct (f m); try destruct (g m);
    cbn [bind app fst snd trace outcome filter is_print is_update length Nat.add];
    intros E; try discriminate E; split; reflexivity.
Qed.

(** The prints of a pass that returns are those of its report. *)
Lemma prints_loop_body (i : Z) (m m' : vector) :
  outcome (loop_body linalg_solve self i m) = Ok m' ->
  count is_print (trace (loop_body linalg_solve self i m)) =
  count is_print (trace (report self i m')) /\
  outcome (report self i m') = Ok tt.
Proof.
  unfold loop_body, count.
  rewrite outcome_bind, trace_bind, trace_call, outcome_call.
  destruct (_hessian self m) as [H | e]; [ | discriminate ].
  rewrite outcome_bind, trace_bind, trace_call, outcome_call.
  destruct (_gradient self m) as [g | e]; [ | discriminate ].
  rewrite outcome_bind, trace_bind, trace_solve, outcome_solve.
  destruct (linalg_solve H (negative g)) as [d | e]; [ | discriminate ].
  rewrite outcome_bind, trace_bind, trace_lift, outcome_lift.
  destruct (add m d) as [m2 | e]; [ | discriminate ].
  rewrite outcome_bind, trace_bind. unfold array.
  destruct (outcome (report self i m2)) as [[] | e] eqn:Er; [ | discriminate ].
  cbn [outcome trace ret fst snd app filter is_print]. intros [= <-].
  now rewrite app_nil_r.
Qed.

(** Every event of a quiet pass is a Hessian call, a gradient call or a
    linear solve. *)
Lemma quiet_loop_body (i : Z) (m : vector) :
  _verbose self = false ->
  filter is_update (trace (loop_body linalg_solve self i m)) =
  trace (loop_body linalg_solve self i m).
Proof.
  intros Hq. unfold loop_body.
  rewrite trace_bind, trace_call, outcome_call. cbn [app filter is_update]. f_equal.
  destruct (_hessian self m) as [H | e]; [ | reflexivity ].
  rewrite trace_bind, trace_call, outcome_call. cbn [app filter is_update]. f_equal.
  destruct (_gradient self m) as [g | e]; [ | reflexivity ].
  rewrite trace_bind, trace_solve, outcome_solve. cbn [app filter is_update]. f_equal.
  destruct (linalg_solve H (negative g)) as [d | e]; [ | reflexivity ].
  rewrite trace_bind, trace_lift, outcome_lift. cbn [app].
  destruct (add m d) as [m' | e]; [ | reflexivity ].
  rewrite report_quiet by exact Hq. reflexivity.
Qed.

Lemma quiet_passes (k : nat) :
  _verbose self = false ->
  filter is_update (trace (passes linalg_solve self k)) =
  trace (passes linalg_solve self k).
Proof.
  intros Hq. induction k as [ | k IH ]; [ reflexivity | ].
  rewrite trace_passes_succ, filter_app, IH. f_equal.
  destruct (outcome (passes linalg_solve self k)) as [m | e]; [ | reflexivity ].
  now apply quiet_loop_body.
Qed.

Lemma prints_passes (k : nat) (m : vector) :
  _verbose self = true ->
  outcome (passes linalg_solve self k) = Ok m ->
  count is_print (trace (passes linalg_solve self k)) = (k * (2 + reporters self))%nat.
Proof.
  intros Hv. revert m. induction k as [ | k IH ]; intros m; [ reflexivity | ].
  rewrite outcome_passes_succ, trace_passes_succ.
  destruct (outcome (passes linalg_solve self k)) as [m1 | e]; cbn [rbind];
    [ | discriminate ].
  intros E. rewrite count_app, (IH m1 eq_refl).
  destruct (prints_loop_body _ _ _ E) as [-> Er].
  destruct (prints_report (Z.of_nat k) m Hv Er) as [-> _]. lia.
Qed.

End Prints.

(** No update event is a print. *)
Lemma prints_of_updates (t : list event) : count is_print (filter is_update t) = 0%nat.
Proof.
  unfold count. induction t as [ | ev t IH ]; [ reflexivity | ].
  cbn [filter]. destruct ev as [[ | | | ] ? | ? ? | ?]; cbn [is_update filter is_print];
    exact IH.
Qed.

(** X17.  A quiet solver performs nothing but Hessian calls, gradient calls
    and linear solves: it prints nothing and never calls a reporter.  A
    verbose solver that returns has printed, for each of its [niter]
    passes, the rule, the iteration number and one number for each reporter
    it holds. *)
Theorem verbose_flag_decides_all_prints
    (linalg_solve : matrix -> vector -> result vector) (self : GaussNewton) :
  (_verbose self = false ->
   filter is_update (trace (__call__ linalg_solve self)) =
     trace (__call__ linalg_solve self) /\
   count is_print (trace (__call__ linalg_solve self)) = 0%nat) /\
  (_verbose self = true ->
   forall res, outcome (__call__ linalg_solve self) = Ok res ->
   count is_print (trace (__call__ linalg_solve self)) =
     (Z.to_nat (_niter self) * (2 + reporters self))%nat).
Proof.
  split.
  - intros Hq. rewrite trace_call_passes.
    pose proof (quiet_passes linalg_solve self (Z.to_nat (_niter self)) Hq) as Q.
    split; [ exact Q | ].
    rewrite <- Q. apply prints_of_updates.
  - intros Hv res E. apply call_ok_inv in E as [E _].
    rewrite trace_call_passes.
    exact (prints_passes linalg_solve self _ _ Hv E).
Qed.

(** The quiet valley prints nothing; the bowl, verbose with one reporter,
    prints three lines in its one pass. *)
Lemma verbose_flag_decides_all_prints_witness :
  count is_print (trace (__call__ exact.solve example.valley)) = 0%nat /\
  count is_print (trace (__call__ exact.solve (set_niter example.bowl 1))) =
    (Z.to_nat 1 * (2 + reporters (set_niter example.bowl 1)))%nat.
Proof.
  destruct (verbose_flag_decides_all_prints exact.solve example.valley) as [Q _].
  destruct (verbose_flag_decides_all_prints exact.solve (set_niter example.bowl 1))
    as [_ V].
  split; [ apply (Q eq_refl) | exact (V eq_refl _ bowl_first_iteration) ].
Defined.
